(** * Illustrator structure parser: detection, matching and integrity engine

    A shallow embedding of the ExtendScript sources
    ([lib/variable_detector_v2.jsx], [lib/pattern_matcher.jsx],
    [lib/config.jsx] and the utility script holding [IntegrityChecker]
    and [IdGenerator]) together with the properties the design
    document states about them.

    Conventions of the embedding:
    - a JavaScript number is a rational ([Q]); integers that the code
      pushes through bit operations are [Z] with the 32-bit wrap-around
      written out;
    - a JavaScript string is the list of its UTF-16 code units
      ([jsstring]); identifiers that are plain ASCII (type keys, ids,
      paths, property names) are [string];
    - an object used as a dictionary is a [gmap] holding its own
      properties (no key used by the engine names a property inherited
      from [Object.prototype]);
    - an array is a [list]; an object that is mutated through several
      references lives in an explicit store and is named by its index
      or path. *)

From Stdlib Require Import ZArith QArith Qround Qabs Lia Lqa.
From Stdlib Require Import Ascii String Permutation Sorted.
From Stdlib Require Import DecimalString DecimalNat DecimalZ.
From Stdlib Require Import HexadecimalString HexadecimalN.
From stdpp Require Import gmap strings list.

Set Warnings "-register-all".
Local Open Scope Z_scope.

(* ================================================================== *)
(** * Part I: the programs *)

(** ** JavaScript values and library functions used by the sources *)

Module JS.

(** A string as the sequence of its UTF-16 code units. *)
Definition jsstring := list Z.

Fixpoint bytes_of (s : string) : list Z :=
  match s with
  | EmptyString => []
  | String a rest => Z.of_nat (nat_of_ascii a) :: bytes_of rest
  end.

(** Code units of text written in UTF-8. *)
Fixpoint utf16_of_utf8 (bs : list Z) : jsstring :=
  match bs with
  | [] => []
  | b0 :: rest =>
      if b0 <? 128 then b0 :: utf16_of_utf8 rest
      else if b0 <? 224 then
        match rest with
        | b1 :: rest' => ((b0 - 192) * 64 + (b1 - 128)) :: utf16_of_utf8 rest'
        | _ => []
        end
      else if b0 <? 240 then
        match rest with
        | b1 :: b2 :: rest' =>
            ((b0 - 224) * 4096 + (b1 - 128) * 64 + (b2 - 128))
              :: utf16_of_utf8 rest'
        | _ => []
        end
      else
        match rest with
        | b1 :: b2 :: b3 :: rest' =>
            let cp := (b0 - 240) * 262144 + (b1 - 128) * 4096
                      + (b2 - 128) * 64 + (b3 - 128) - 65536 in
            (55296 + cp / 1024) :: (56320 + cp mod 1024)
              :: utf16_of_utf8 rest'
        | _ => []
        end
  end.

(** A string literal of the source as a JavaScript string. *)
Definition lit (s : string) : jsstring := utf16_of_utf8 (bytes_of s).

(** Equality of strings, [===]. *)
Definition streq (a b : jsstring) : bool := bool_decide (a = b).

(** Comparisons of numbers. *)
Definition lt (a b : Q) : bool := negb (Qle_bool b a).
Definition gt (a b : Q) : bool := lt b a.

(** [Math.round]: the nearest integer, halves towards +infinity. *)
Definition Math_round (q : Q) : Z := Qfloor (q + (1 # 2)).

(** [String(n)] for an integer-valued number (of magnitude below
    10^21, where the decimal notation is used). *)
Definition string_of_nat (n : nat) : string :=
  DecimalString.NilZero.string_of_uint (Nat.to_uint n).

Definition string_of_Z (z : Z) : string :=
  DecimalString.NilZero.string_of_int (Z.to_int z).

(** [n.toString(16)] for a non-negative integer. *)
Definition toString16 (n : Z) : string :=
  HexadecimalString.NilZero.string_of_uint (N.to_hex_uint (Z.to_N n)).

(** [toLowerCase] on an ASCII identifier. *)
Definition lower_ascii (a : ascii) : ascii :=
  let n := nat_of_ascii a in
  if (65 <=? n)%nat && (n <=? 90)%nat then ascii_of_nat (n + 32) else a.

Fixpoint toLowerCase (s : string) : string :=
  match s with
  | EmptyString => EmptyString
  | String a rest => String (lower_ascii a) (toLowerCase rest)
  end.

(** Membership in a character class given by its ranges. *)
Definition in_ranges (c : Z) (ranges : list (Z * Z)) : bool :=
  existsb (fun r => (fst r <=? c) && (c <=? snd r)) ranges.

(** The characters matched by [\s]: WhiteSpace and LineTerminator. *)
Definition space_ranges : list (Z * Z) :=
  [(9, 13); (32, 32); (160, 160); (5760, 5760); (8192, 8202);
   (8232, 8233); (8239, 8239); (8287, 8287); (12288, 12288);
   (65279, 65279)].

Definition is_space (c : Z) : bool := in_ranges c space_ranges.

Fixpoint drop_spaces (s : jsstring) : jsstring :=
  match s with
  | [] => []
  | c :: s' => if is_space c then drop_spaces s' else s
  end.

(** [s.replace(/^\s+|\s+$/g, "")] *)
Definition trim (s : jsstring) : jsstring :=
  rev (drop_spaces (rev (drop_spaces s))).

(** [s.replace(/\s+/g, "")] *)
Definition remove_spaces (s : jsstring) : jsstring :=
  List.filter (fun c => negb (is_space c)) s.

(** [s.indexOf(kw) >= 0]. *)
Fixpoint starts_with (kw s : jsstring) : bool :=
  match kw, s with
  | [], _ => true
  | _ :: _, [] => false
  | k :: kw', c :: s' => (k =? c) && starts_with kw' s'
  end.

Fixpoint includes (kw s : jsstring) : bool :=
  starts_with kw s ||
  match s with
  | [] => false
  | _ :: s' => includes kw s'
  end.

(** [ToInt32] and the two bit operators the sources use. *)
Definition ToInt32 (z : Z) : Z :=
  let m := z mod 2 ^ 32 in
  if m <? 2 ^ 31 then m else m - 2 ^ 32.

Definition shl (a n : Z) : Z := ToInt32 (Z.shiftl (ToInt32 a) n).
Definition band (a b : Z) : Z := ToInt32 (Z.land (ToInt32 a) (ToInt32 b)).

(** [Array.prototype.sort(cmp)].  The language leaves the algorithm
    to the engine; the embedding takes a stable insertion sort, which
    calls [cmp(a, b)] and puts [a] behind [b] exactly when the result
    is positive.  What is proved about a sorted array rests on two
    facts that hold for every engine: the result is a permutation of
    the array, and it is in order when the comparison is consistent. *)
Section Sort.
Context {A : Type} (cmp : A -> A -> Q).

Fixpoint sort_insert (a : A) (l : list A) : list A :=
  match l with
  | [] => [a]
  | b :: l' =>
      if gt (cmp a b) 0 then b :: sort_insert a l' else a :: b :: l'
  end.

Definition Array_sort (l : list A) : list A := foldr sort_insert [] l.
End Sort.

End JS.

(** ** IntegrityChecker *)

Module IntegrityChecker.
Import JS.

Record Bounds := {
  left : Q; top : Q; right : Q; bottom : Q
}.

(** The fields of an element that the checker reads. *)
Record Element := {
  id : string;
  type : string;
  parentId : option string;
  bounds : option Bounds
}.

(** One entry of [duplicates]: [{ id: id, indices: [ids[id], i] }]. *)
Record Duplicate := {
  dup_id : string;
  indices : nat * nat
}.

Record IdCheck := {
  unique : bool;
  duplicates : list Duplicate;
  totalIds : nat
}.

(** The [for] loop of [checkIdUniqueness] from index [i] on.  The test
    [if (ids[id])] is a truthiness test: an id stored with index [0]
    reads as not stored. *)
Fixpoint checkIdUniqueness_loop (elements : list Element) (i : nat)
    (ids : gmap string nat) (dups : list Duplicate)
    : gmap string nat * list Duplicate :=
  match elements with
  | [] => (ids, dups)
  | e :: rest =>
      match ids !! id e with
      | Some (S j) =>
          checkIdUniqueness_loop rest (S i) ids
            (dups ++ [{| dup_id := id e; indices := (S j, i) |}])
      | _ =>
          checkIdUniqueness_loop rest (S i) (<[id e := i]> ids) dups
      end
  end.

Definition checkIdUniqueness (elements : list Element) : IdCheck :=
  let '(ids, dups) := checkIdUniqueness_loop elements 0 ∅ [] in
  {| unique := Nat.eqb (length dups) 0;
     duplicates := dups;
     totalIds := size ids |}.

(** An entry of [outOfBounds] or [partiallyVisible]; [reason] is set
    only in the former. *)
Record BoundsEntry := {
  elementId : string;
  elementType : string;
  entry_bounds : Bounds;
  reason : option jsstring
}.

Record BoundsCheck := {
  valid : bool;
  outOfBounds : list BoundsEntry;
  partiallyVisible : list BoundsEntry;
  fullyVisible : nat;
  artboardSize : Q * Q
}.

(** What [CoordinateSystem.getArtboardInfo()] hands over. *)
Record ArtboardInfo := {
  ab_width : Q;
  ab_height : Q
}.

Definition margin : Q := 10.

(** First test of the loop body: "完全在画板外". *)
Definition fully_outside (b : Bounds) (checkWidth checkHeight : Q) : bool :=
  lt (right b) (- margin) || gt (left b) (checkWidth + margin) ||
  lt (bottom b) (- margin) || gt (top b) (checkHeight + margin).

(** Second test of the loop body: "部分在画板外". *)
Definition partly_outside (b : Bounds) (checkWidth checkHeight : Q) : bool :=
  lt (left b) (- margin) || gt (right b) (checkWidth + margin) ||
  lt (top b) (- margin) || gt (bottom b) (checkHeight + margin).

Fixpoint checkBounds_loop (elements : list Element) (checkWidth checkHeight : Q)
    (out part : list BoundsEntry) (full : nat)
    : list BoundsEntry * list BoundsEntry * nat :=
  match elements with
  | [] => (out, part, full)
  | elem :: rest =>
      match bounds elem with
      | None => checkBounds_loop rest checkWidth checkHeight out part full
      | Some b =>
          if fully_outside b checkWidth checkHeight then
            checkBounds_loop rest checkWidth checkHeight
              (out ++ [{| elementId := id elem; elementType := type elem;
                          entry_bounds := b;
                          reason := Some (lit "完全在画板外") |}])
              part full
          else if partly_outside b checkWidth checkHeight then
            checkBounds_loop rest checkWidth checkHeight out
              (part ++ [{| elementId := id elem; elementType := type elem;
                           entry_bounds := b; reason := None |}])
              full
          else
            checkBounds_loop rest checkWidth checkHeight out part (S full)
      end
  end.

(** [artboardInfo] is [None] when no [CoordinateSystem] is loaded. *)
Definition checkBounds (elements : list Element)
    (artboardInfo : option ArtboardInfo) (docWidth docHeight : Q)
    : BoundsCheck :=
  let checkWidth :=
    match artboardInfo with Some a => ab_width a | None => docWidth end in
  let checkHeight :=
    match artboardInfo with Some a => ab_height a | None => docHeight end in
  let '(out, part, full) :=
    checkBounds_loop elements checkWidth checkHeight [] [] 0 in
  {| valid := Nat.eqb (length out) 0;
     outOfBounds := out;
     partiallyVisible := part;
     fullyVisible := full;
     artboardSize := (checkWidth, checkHeight) |}.

End IntegrityChecker.

(** ** IdGenerator *)

Module IdGenerator.
Import JS.

(** The fields of a page item that [hashContent] reads. *)
Record Item := {
  typename : string;
  position : Q * Q;
  width : Q;
  height : Q;
  contents : jsstring
}.

Record Context := {
  layerIndex : nat;
  path : string
}.

(** The string [str] that [hashContent] builds. *)
Definition hash_key (item : Item) (context : Context) : jsstring :=
  lit (typename item)
  ++ lit "|" ++ lit (string_of_Z (Math_round (fst (position item))))
  ++ lit "," ++ lit (string_of_Z (Math_round (snd (position item))))
  ++ lit "|" ++ lit (string_of_Z (Math_round (width item)))
  ++ lit "x" ++ lit (string_of_Z (Math_round (height item)))
  ++ lit "|" ++ lit (string_of_nat (layerIndex context))
  ++ lit "|" ++ lit (path context)
  ++ (if String.eqb (typename item) "TextFrame"
         && negb (Nat.eqb (length (contents item)) 0)
      then lit "|" ++ take 20 (contents item)
      else []).

(** One turn of the hashing loop:
    [hash = ((hash << 5) + hash) + str.charCodeAt(i); hash = hash & 0x7FFFFFFF]. *)
Definition hash_step (hash c : Z) : Z :=
  band ((shl hash 5 + hash) + c) 2147483647.

Definition hashContent (item : Item) (context : Context) : string :=
  toString16 (fold_left hash_step (hash_key item context) 5381).

Definition generateStableId (item : Item) (context : Context) : string :=
  let hash := hashContent item context in
  let type := if String.eqb (typename item) "" then "unknown"%string
              else typename item in
  (toLowerCase type +:+ "_" +:+ hash)%string.

End IdGenerator.


(** ** VariableNamer *)

Module VariableNamer.
Import JS.

(** The third argument of [generateId]: left out, [null], or a number. *)
Inductive IndexArg :=
| IndexUndefined
| IndexNull
| IndexNumber (n : nat).

Definition index_text (index : IndexArg) : string :=
  match index with
  | IndexUndefined => "undefined"
  | IndexNull => "null"
  | IndexNumber n => string_of_nat n
  end.

(** A string argument that may be [null] or [undefined] ([None]). *)
Definition truthy (s : option string) : bool :=
  match s with
  | Some s => negb (String.eqb s "")
  | None => false
  end.

Definition text_of (s : option string) : string :=
  match s with
  | Some s => s
  | None => "undefined"
  end.

(** [fieldType || "item"] *)
Definition key_of (fieldType : option string) : string :=
  if truthy fieldType then text_of fieldType else "item"%string.

(** [generateId] with the object's [counters] passed in and out. *)
Definition generateId (patternName fieldType : option string)
    (index : IndexArg) (counters : gmap string nat)
    : string * gmap string nat :=
  if truthy patternName
     && negb (match index with IndexUndefined => true | _ => false end)
  then
    ((text_of patternName +:+ "_" +:+ index_text index +:+ "."
        +:+ text_of fieldType)%string, counters)
  else if truthy patternName then
    ((text_of patternName +:+ "." +:+ text_of fieldType)%string, counters)
  else
    let key := key_of fieldType in
    let n := default 0%nat (counters !! key) in
    ((key +:+ "_" +:+ string_of_nat n)%string, <[key := S n]> counters).

(** [reset]. *)
Definition reset : gmap string nat := ∅.

(** The standalone allocations of one pass, [generateId(null, t, null)]
    for each detected type key [t] in turn, as [processElements] issues
    them. *)
Fixpoint allocate (fieldTypes : list (option string))
    (counters : gmap string nat) : list string :=
  match fieldTypes with
  | [] => []
  | t :: rest =>
      let '(id, counters') := generateId None t IndexNull counters in
      id :: allocate rest counters'
  end.

Definition pass (fieldTypes : list (option string)) : list string :=
  allocate fieldTypes reset.

End VariableNamer.

(** ** PatternMatcher *)

Module PatternMatcher.
Import JS.

Record Point := { x : Q; y : Q }.
Record Size := { width : Q; height : Q }.

(** An entry of [COMPOSITE_PATTERNS], with the properties the matcher
    reads ([maxSpacing], [zoneHint] and [minCount] are never read). *)
Record PatternDef := {
  key : string;
  id : string;
  label : jsstring;
  category : string;
  required : list string;
  optional : list string;
  repeatable : bool;
  minFields : option nat;
  layout : option string
}.

(** The catalog in the order of its declaration, which is the order in
    which [for (var patternKey in COMPOSITE_PATTERNS)] visits it. *)
Definition COMPOSITE_PATTERNS : list PatternDef := [
  {| key := "GUEST_CARD"; id := "guest"; label := lit "嘉宾卡片";
     category := "person"; required := ["avatar"; "name"];
     optional := ["title"; "desc"; "company"]; repeatable := true;
     minFields := None; layout := Some "vertical" |};
  {| key := "TEAM_MEMBER"; id := "member"; label := lit "团队成员";
     category := "person"; required := ["name"; "title"];
     optional := ["desc"; "phone"; "email"]; repeatable := true;
     minFields := None; layout := None |};
  {| key := "TESTIMONIAL"; id := "testimonial"; label := lit "用户评价";
     category := "person"; required := ["text"; "name"];
     optional := ["avatar"; "title"; "company"]; repeatable := true;
     minFields := None; layout := None |};
  {| key := "EVENT_HEADER"; id := "header"; label := lit "活动头部";
     category := "event"; required := ["event_title"];
     optional := ["date"; "slogan"; "logo"]; repeatable := false;
     minFields := None; layout := None |};
  {| key := "AGENDA_ITEM"; id := "agenda"; label := lit "议程项";
     category := "event"; required := ["time"; "text"];
     optional := ["name"; "title"]; repeatable := true;
     minFields := None; layout := Some "horizontal" |};
  {| key := "TIME_LOCATION"; id := "schedule"; label := lit "时间地点";
     category := "event"; required := ["date"];
     optional := ["time"; "address"; "qrcode"]; repeatable := false;
     minFields := None; layout := None |};
  {| key := "PRICE_CARD"; id := "price"; label := lit "价格卡片";
     category := "product"; required := ["price"];
     optional := ["text"; "desc"; "percent"]; repeatable := true;
     minFields := None; layout := None |};
  {| key := "FEATURE_ITEM"; id := "feature"; label := lit "特性项";
     category := "product"; required := ["text"];
     optional := ["icon"; "desc"]; repeatable := true;
     minFields := None; layout := Some "horizontal" |};
  {| key := "PRODUCT_CARD"; id := "product"; label := lit "产品卡片";
     category := "product"; required := ["photo"; "text"];
     optional := ["price"; "desc"]; repeatable := true;
     minFields := None; layout := None |};
  {| key := "CONTACT_BLOCK"; id := "contact"; label := lit "联系信息";
     category := "contact"; required := ["phone"];
     optional := ["email"; "address"; "wechat"; "qq"; "qrcode"];
     repeatable := false; minFields := Some 2%nat; layout := None |};
  {| key := "SOCIAL_LINKS"; id := "social"; label := lit "社交媒体";
     category := "contact"; required := ["icon"];
     optional := ["text"]; repeatable := true;
     minFields := None; layout := None |};
  {| key := "STAT_ITEM"; id := "stat"; label := lit "数据统计";
     category := "layout"; required := ["number"];
     optional := ["text"; "percent"]; repeatable := true;
     minFields := None; layout := None |};
  {| key := "STEP_ITEM"; id := "step"; label := lit "步骤项";
     category := "layout"; required := ["number"; "text"];
     optional := ["icon"; "desc"]; repeatable := true;
     minFields := None; layout := Some "horizontal" |};
  {| key := "LIST_ITEM"; id := "list"; label := lit "列表项";
     category := "layout"; required := ["text"];
     optional := ["icon"]; repeatable := true;
     minFields := None; layout := None |};
  {| key := "BRAND_SHOWCASE"; id := "brand"; label := lit "品牌展示";
     category := "layout"; required := ["logo"];
     optional := ["text"]; repeatable := true;
     minFields := None; layout := None |}
].

(** [child.variable] in either format: [primaryType] (V2, empty when
    absent) and [variableType.key] (V1). *)
Record VariableTag := {
  primaryType : string;
  variableType : option string
}.

(** The fields of an element that the matcher reads; [content] and
    [name] are empty when absent. *)
Record Element := {
  elem_id : string;
  elem_type : string;
  parentId : option string;
  variable : option VariableTag;
  content : jsstring;
  name : jsstring;
  elem_path : string;
  elem_position : Point;
  elem_size : Size
}.

(** A record pushed by [extractTags]. *)
Record TagRecord := {
  elementId : string;
  type : string;
  value : jsstring;
  tag_position : Point;
  tag_size : Size
}.

(** The object returned by [matchPattern].  A value of [fields] is
    [None] when the property holds [undefined] (the first entry of an
    empty list); [repeatTotal] is [None] until it is assigned. *)
Record PatternMatch := {
  patternId : string;
  patternLabel : jsstring;
  groupId : string;
  groupPath : string;
  position : Point;
  size : Size;
  fields : gmap string (option TagRecord);
  match_repeatable : bool;
  repeatIndex : nat;
  repeatTotal : option nat
}.

Definition findGroups (elements : list Element) : list Element :=
  filter (fun e => elem_type e = "group"%string
                   \/ elem_type e = "clip_group"%string) elements.

Definition getGroupChildren (elements : list Element) (groupId : string)
    : list Element :=
  filter (fun e => parentId e = Some groupId) elements.

(** [a || b] on strings. *)
Definition or_else (a b : jsstring) : jsstring :=
  match a with [] => b | _ => a end.

Definition tag_type (v : VariableTag) : string :=
  if String.eqb (primaryType v) "" then
    match variableType v with Some k => k | None => ""%string end
  else primaryType v.

Fixpoint extractTags_loop (children : list Element)
    (tags : gmap string (list TagRecord)) : gmap string (list TagRecord) :=
  match children with
  | [] => tags
  | child :: rest =>
      match variable child with
      | None => extractTags_loop rest tags
      | Some v =>
          let t := tag_type v in
          if String.eqb t "" then extractTags_loop rest tags
          else
            let old := default [] (tags !! t) in
            extractTags_loop rest
              (<[t := old ++ [{| elementId := elem_id child;
                                 type := t;
                                 value := or_else (content child)
                                            (or_else (name child) []);
                                 tag_position := elem_position child;
                                 tag_size := elem_size child |}]]> tags)
      end
  end.

Definition extractTags (children : list Element)
    : gmap string (list TagRecord) :=
  extractTags_loop children ∅.

(** The first loop of [matchPattern]: every required key has a
    non-empty list. *)
Definition hasAllRequired (pattern : PatternDef)
    (childTags : gmap string (list TagRecord)) : bool :=
  forallb (fun reqField =>
             match childTags !! reqField with
             | Some (_ :: _) => true
             | _ => false
             end) (required pattern).

(** The second loop: how many optional keys are properties of
    [childTags]. *)
Definition optionalCount (pattern : PatternDef)
    (childTags : gmap string (list TagRecord)) : nat :=
  length (filter (fun o => is_Some (childTags !! o)) (optional pattern)).

(** [pattern.minFields && (required.length + optionalCount) < minFields] *)
Definition below_minFields (pattern : PatternDef)
    (childTags : gmap string (list TagRecord)) : bool :=
  match minFields pattern with
  | Some (S m) =>
      (length (required pattern) + optionalCount pattern childTags
         <? S m)%nat
  | _ => false
  end.

Definition add_required (childTags : gmap string (list TagRecord))
    (fields : gmap string (option TagRecord)) (reqField : string)
    : gmap string (option TagRecord) :=
  <[reqField := head (default [] (childTags !! reqField))]> fields.

Definition add_optional (childTags : gmap string (list TagRecord))
    (fields : gmap string (option TagRecord)) (optField : string)
    : gmap string (option TagRecord) :=
  match childTags !! optField with
  | Some l => <[optField := head l]> fields
  | None => fields
  end.

Definition build_fields (pattern : PatternDef)
    (childTags : gmap string (list TagRecord))
    : gmap string (option TagRecord) :=
  fold_left (add_optional childTags) (optional pattern)
    (fold_left (add_required childTags) (required pattern) ∅).

Definition build_match (pattern : PatternDef) (group : Element)
    (childTags : gmap string (list TagRecord)) : PatternMatch :=
  {| patternId := id pattern;
     patternLabel := label pattern;
     groupId := elem_id group;
     groupPath := elem_path group;
     position := elem_position group;
     size := elem_size group;
     fields := build_fields pattern childTags;
     match_repeatable := repeatable pattern;
     repeatIndex := 0;
     repeatTotal := None |}.

(** Whether the loop body reaches its [return] for this definition. *)
Definition pattern_matches (pattern : PatternDef)
    (childTags : gmap string (list TagRecord)) : bool :=
  hasAllRequired pattern childTags
  && negb (below_minFields pattern childTags).

Fixpoint matchPattern_loop (catalog : list PatternDef) (group : Element)
    (childTags : gmap string (list TagRecord)) : option PatternMatch :=
  match catalog with
  | [] => None
  | pattern :: rest =>
      if negb (hasAllRequired pattern childTags) then
        matchPattern_loop rest group childTags
      else if below_minFields pattern childTags then
        matchPattern_loop rest group childTags
      else Some (build_match pattern group childTags)
  end.

(** [matchPattern(group, childTags, children)]; the third argument is
    not read. *)
Definition matchPattern (group : Element)
    (childTags : gmap string (list TagRecord)) (children : list Element)
    : option PatternMatch :=
  matchPattern_loop COMPOSITE_PATTERNS group childTags.

(** The comparison function handed to [group.sort]. *)
Definition by_position (a b : PatternMatch) : Q :=
  let yDiff := (y (position a) - y (position b))%Q in
  if gt (Qabs yDiff) 20 then yDiff
  else (x (position a) - x (position b))%Q.

(** [byType]: type names in the order of first appearance, each with
    the references (indices into [patterns]) pushed for it. *)
Fixpoint byType_push (byType : list (string * list nat)) (t : string)
    (r : nat) : list (string * list nat) :=
  match byType with
  | [] => [(t, [r])]
  | (t', refs) :: rest =>
      if String.eqb t' t then (t', refs ++ [r]) :: rest
      else (t', refs) :: byType_push rest t r
  end.

Fixpoint group_by_type (patterns : list PatternMatch) (i : nat)
    (byType : list (string * list nat)) : list (string * list nat) :=
  match patterns with
  | [] => byType
  | p :: rest => group_by_type rest (S i) (byType_push byType (patternId p) i)
  end.

(** The comparison on references: it reads the objects in the store. *)
Definition by_position_ref (store : list PatternMatch) (r1 r2 : nat) : Q :=
  match store !! r1, store !! r2 with
  | Some a, Some b => by_position a b
  | _, _ => 0%Q
  end.

Definition set_repeat (i total : nat) (p : PatternMatch) : PatternMatch :=
  {| patternId := patternId p;
     patternLabel := patternLabel p;
     groupId := groupId p;
     groupPath := groupPath p;
     position := position p;
     size := size p;
     fields := fields p;
     match_repeatable := match_repeatable p;
     repeatIndex := i;
     repeatTotal := Some total |}.

(** [for (i ...) { group[i].repeatIndex = i; group[i].repeatTotal = group.length; }] *)
Fixpoint assign_indices (group : list nat) (i total : nat)
    (store : list PatternMatch) : list PatternMatch :=
  match group with
  | [] => store
  | r :: rest =>
      assign_indices rest (S i) total (alter (set_repeat i total) r store)
  end.

Definition number_group (store : list PatternMatch) (group : list nat)
    : list PatternMatch :=
  if (1 <? length group)%nat then
    let sorted := Array_sort (by_position_ref store) group in
    assign_indices sorted 0 (length group) store
  else store.

(** [detectRepeatablePatterns]: the objects of [patterns] are updated
    in place and the same array is returned. *)
Definition detectRepeatablePatterns (patterns : list PatternMatch)
    : list PatternMatch :=
  fold_left (fun store entry => number_group store (snd entry))
    (group_by_type patterns 0 []) patterns.

(** Steps 2 to 4 of [matchAll]. *)
Definition match_groups (elements : list Element) : list PatternMatch :=
  omap (fun group =>
          let children := getGroupChildren elements (elem_id group) in
          matchPattern group (extractTags children) children)
       (findGroups elements).

Definition matchAll_patterns (elements : list Element) : list PatternMatch :=
  detectRepeatablePatterns (match_groups elements).

End PatternMatcher.

(** ** Regular expressions *)

Module Regex.
Import JS.

(** The fragment of the pattern language that the detector's literals
    use: classes, concatenation, alternation and repetition. *)
Inductive regex :=
| Eps
| Cls (ranges : list (Z * Z))
| Seq (r1 r2 : regex)
| Alt (r1 r2 : regex)
| Star (r : regex).

(** The strings a pattern matches in full. *)
Inductive Matches : regex -> jsstring -> Prop :=
| MEps : Matches Eps []
| MCls c ranges : in_ranges c ranges = true -> Matches (Cls ranges) [c]
| MSeq r1 r2 s1 s2 :
    Matches r1 s1 -> Matches r2 s2 -> Matches (Seq r1 r2) (s1 ++ s2)
| MAltL r1 r2 s : Matches r1 s -> Matches (Alt r1 r2) s
| MAltR r1 r2 s : Matches r2 s -> Matches (Alt r1 r2) s
| MStar0 r : Matches (Star r) []
| MStarS r s1 s2 :
    Matches r s1 -> Matches (Star r) s2 -> Matches (Star r) (s1 ++ s2).

Definition Void : regex := Cls [].

Fixpoint nullable (r : regex) : bool :=
  match r with
  | Eps => true
  | Cls _ => false
  | Seq r1 r2 => nullable r1 && nullable r2
  | Alt r1 r2 => nullable r1 || nullable r2
  | Star _ => true
  end.

(** What is left to match after reading [c]. *)
Fixpoint deriv (c : Z) (r : regex) : regex :=
  match r with
  | Eps => Void
  | Cls ranges => if in_ranges c ranges then Eps else Void
  | Seq r1 r2 =>
      if nullable r1 then Alt (Seq (deriv c r1) r2) (deriv c r2)
      else Seq (deriv c r1) r2
  | Alt r1 r2 => Alt (deriv c r1) (deriv c r2)
  | Star r1 => Seq (deriv c r1) (Star r1)
  end.

(** Some prefix of [s] matches [r]. *)
Fixpoint match_here (r : regex) (s : jsstring) : bool :=
  nullable r ||
  match s with
  | [] => false
  | c :: s' => match_here (deriv c r) s'
  end.

(** [r.test(s)]: some substring of [s] matches [r]. *)
Fixpoint test (r : regex) (s : jsstring) : bool :=
  match_here r s ||
  match s with
  | [] => false
  | _ :: s' => test r s'
  end.

(** Abbreviations of the pattern syntax. *)
Definition Chr (c : Z) : regex := Cls [(c, c)].

Fixpoint Str (s : jsstring) : regex :=
  match s with
  | [] => Eps
  | c :: s' => Seq (Chr c) (Str s')
  end.

Definition Plus (r : regex) : regex := Seq r (Star r).
Definition Opt (r : regex) : regex := Alt r Eps.

Fixpoint Times (n : nat) (r : regex) : regex :=
  match n with
  | O => Eps
  | S n' => Seq r (Times n' r)
  end.

Fixpoint UpTo (n : nat) (r : regex) : regex :=
  match n with
  | O => Eps
  | S n' => Opt (Seq r (UpTo n' r))
  end.

(** [r{n,m}] *)
Definition Between (n m : nat) (r : regex) : regex :=
  Seq (Times n r) (UpTo (m - n) r).

(** [w1|w2|...] for literal words. *)
Fixpoint Words (ws : list string) : regex :=
  match ws with
  | [] => Void
  | w :: ws' =>
      match ws' with
      | [] => Str (lit w)
      | _ => Alt (Str (lit w)) (Words ws')
      end
  end.

(** [[abc]] for literal characters. *)
Definition one_of (s : string) : list (Z * Z) :=
  map (fun c => (c, c)) (lit s).

Definition digit : list (Z * Z) := [(48, 57)].
Definition word : list (Z * Z) := [(48, 57); (65, 90); (95, 95); (97, 122)].

(** The least length of a string that the pattern can match. *)
Fixpoint min_len (r : regex) : nat :=
  match r with
  | Eps => 0
  | Cls _ => 1
  | Seq r1 r2 => min_len r1 + min_len r2
  | Alt r1 r2 => Nat.min (min_len r1) (min_len r2)
  | Star _ => 0
  end.

End Regex.

(** ** MultiTagDetector *)

Module MultiTagDetector.
Import JS Regex.

Record VarType := {
  key : string;
  category : string;
  label : jsstring;
  priority : nat
}.

(** The entries of [VAR_TYPES] that [detectText] hands out. *)
Definition PERSON_NAME : VarType :=
  {| key := "name"; category := "person"; label := lit "人名"; priority := 1 |}.
Definition PERSON_TITLE : VarType :=
  {| key := "title"; category := "person"; label := lit "职位"; priority := 2 |}.
Definition DATE : VarType :=
  {| key := "date"; category := "time"; label := lit "日期"; priority := 1 |}.
Definition TIME : VarType :=
  {| key := "time"; category := "time"; label := lit "时间"; priority := 2 |}.
Definition EVENT_TITLE : VarType :=
  {| key := "event_title"; category := "event"; label := lit "活动标题";
     priority := 1 |}.
Definition SLOGAN : VarType :=
  {| key := "slogan"; category := "event"; label := lit "口号标语";
     priority := 2 |}.
Definition PHONE : VarType :=
  {| key := "phone"; category := "contact"; label := lit "电话"; priority := 1 |}.
Definition EMAIL : VarType :=
  {| key := "email"; category := "contact"; label := lit "邮箱"; priority := 1 |}.
Definition ADDRESS : VarType :=
  {| key := "address"; category := "contact"; label := lit "地址";
     priority := 2 |}.
Definition WECHAT : VarType :=
  {| key := "wechat"; category := "contact"; label := lit "微信";
     priority := 2 |}.
Definition PRICE : VarType :=
  {| key := "price"; category := "number"; label := lit "价格"; priority := 1 |}.
Definition PERCENT : VarType :=
  {| key := "percent"; category := "number"; label := lit "百分比";
     priority := 2 |}.
Definition TEXT : VarType :=
  {| key := "text"; category := "generic"; label := lit "文本"; priority := 3 |}.

(** The entries of [compiledRegex]. *)

(** [/\d{4}[.\-\/年]\d{1,2}[.\-\/月]\d{1,2}/] *)
Definition re_date : regex :=
  Seq (Times 4 (Cls digit))
    (Seq (Cls (one_of ".-/年"))
       (Seq (Between 1 2 (Cls digit))
          (Seq (Cls (one_of ".-/月")) (Between 1 2 (Cls digit))))).

(** [/\d{1,2}:\d{2}/] *)
Definition re_time : regex :=
  Seq (Between 1 2 (Cls digit)) (Seq (Chr 58) (Times 2 (Cls digit))).

(** [/1[3-9]\d{9}/] *)
Definition re_phone : regex :=
  Seq (Chr 49) (Seq (Cls [(51, 57)]) (Times 9 (Cls digit))).

(** [/[\w.-]+@[\w.-]+\.\w+/] *)
Definition re_email : regex :=
  Seq (Plus (Cls (word ++ one_of ".-")))
    (Seq (Chr 64)
       (Seq (Plus (Cls (word ++ one_of ".-")))
          (Seq (Chr 46) (Plus (Cls word))))).

(** [/[¥￥$€]\s*[\d,]+/] *)
Definition re_price : regex :=
  Seq (Cls (one_of "¥￥$€"))
    (Seq (Star (Cls space_ranges)) (Plus (Cls (digit ++ one_of ",")))).

(** [/\d+(\.\d+)?\s*%/] *)
Definition re_percent : regex :=
  Seq (Plus (Cls digit))
    (Seq (Opt (Seq (Chr 46) (Plus (Cls digit))))
       (Seq (Star (Cls space_ranges)) (Chr 37))).

(** [/创始人|CEO|CTO|COO|CFO|总裁|董事|总监|经理|主任|教授|博士|院士|专家|顾问/] *)
Definition re_title : regex :=
  Words ["创始人"; "CEO"; "CTO"; "COO"; "CFO"; "总裁"; "董事"; "总监";
         "经理"; "主任"; "教授"; "博士"; "院士"; "专家"; "顾问"].

(** [/微信[:：]?\s*\w+/] *)
Definition re_wechat : regex :=
  Seq (Str (lit "微信"))
    (Seq (Opt (Cls (one_of ":：")))
       (Seq (Star (Cls space_ranges)) (Plus (Cls word)))).

(** [/省|市|区|县|街道|路|号|楼|室|大厦|广场/] *)
Definition re_address : regex :=
  Words ["省"; "市"; "区"; "县"; "街道"; "路"; "号"; "楼"; "室";
         "大厦"; "广场"].

Record Tag := {
  type : string;
  varType : VarType;
  confidence : Q
}.

(** The object returned by [detectText]; the early return carries only
    [tags] and [primaryType]. *)
Record Detection := {
  tags : list Tag;
  primaryType : option VarType;
  allTypes : option (list string);
  maxConfidence : option Q
}.

Definition isChineseName (str : jsstring) : bool :=
  match str with
  | [] => false
  | _ =>
      let cleaned := remove_spaces str in
      if (length cleaned <? 2)%nat || (4 <? length cleaned)%nat then false
      else forallb (fun code => negb ((code <? 19968) || (40869 <? code)))
             cleaned
  end.

Definition isEventTitle (str : jsstring) : bool :=
  if (length str <? 4)%nat then false
  else existsb (fun kw => includes (lit kw) str)
         ["年会"; "大会"; "峰会"; "论坛"; "发布会"; "颁奖"; "典礼";
          "晚宴"; "庆典"; "仪式"; "盛典"; "活动"; "会议"; "展览"; "展会"].

Definition isSlogan (str : jsstring) : bool :=
  if (length str <? 4)%nat || (30 <? length str)%nat then false
  else
    existsb (fun kw => includes (lit kw) str)
      ["周年"; "之夜"; "荣耀"; "同行"; "共赢"; "携手"; "共创"; "未来"]
    || (includes (lit "第") str && includes (lit "届") str).

(** [if (cond) tags.push(tag)] *)
Definition push_if (cond : bool) (tag : Tag) (tags : list Tag) : list Tag :=
  if cond then tags ++ [tag] else tags.

(** The tags of the rules, in the order the rules push them. *)
Definition rule_tags (trimmed : jsstring) : list Tag :=
  let tags := [] in
  let tags := push_if (test re_date trimmed)
                {| type := "date"; varType := DATE; confidence := 0.95 |} tags in
  let tags := push_if (test re_time trimmed)
                {| type := "time"; varType := TIME; confidence := 0.9 |} tags in
  let tags := push_if (test re_phone trimmed)
                {| type := "phone"; varType := PHONE; confidence := 0.95 |} tags in
  let tags := push_if (test re_email trimmed)
                {| type := "email"; varType := EMAIL; confidence := 0.95 |} tags in
  let tags := push_if (test re_price trimmed)
                {| type := "price"; varType := PRICE; confidence := 0.9 |} tags in
  let tags := push_if (test re_percent trimmed)
                {| type := "percent"; varType := PERCENT; confidence := 0.9 |}
                tags in
  let tags := push_if (test re_title trimmed)
                {| type := "title"; varType := PERSON_TITLE;
                   confidence := 0.85 |} tags in
  let tags := push_if (test re_wechat trimmed)
                {| type := "wechat"; varType := WECHAT; confidence := 0.9 |}
                tags in
  let tags := push_if (test re_address trimmed)
                {| type := "address"; varType := ADDRESS; confidence := 0.75 |}
                tags in
  let tags := push_if (isChineseName trimmed)
                {| type := "name"; varType := PERSON_NAME; confidence := 0.85 |}
                tags in
  let tags := push_if (isEventTitle trimmed)
                {| type := "event_title"; varType := EVENT_TITLE;
                   confidence := 0.85 |} tags in
  push_if (isSlogan trimmed)
    {| type := "slogan"; varType := SLOGAN; confidence := 0.75 |} tags.

(** The tags before sorting: those of the rules and, failing any, the
    generic one ("通用文本（兜底）"). *)
Definition collect_tags (trimmed : jsstring) : list Tag :=
  let tags := rule_tags trimmed in
  push_if (Nat.eqb (length tags) 0 && (2 <=? length trimmed)%nat)
    {| type := "text"; varType := TEXT;
       confidence := if (50 <? length trimmed)%nat then 0.4 else 0.5 |} tags.

(** [detectText(content)]; [None] stands for [null] and [undefined]. *)
Definition detectText (content : option jsstring) : Detection :=
  match content with
  | None | Some [] =>
      {| tags := []; primaryType := None;
         allTypes := None; maxConfidence := None |}
  | Some content =>
      let trimmed := trim content in
      let tags :=
        Array_sort (fun a b => (confidence b - confidence a)%Q)
          (collect_tags trimmed) in
      {| tags := tags;
         primaryType := varType <$> head tags;
         allTypes := Some (map type tags);
         maxConfidence :=
           Some (match head tags with
                 | Some t => confidence t
                 | None => 0%Q
                 end) |}
  end.

End MultiTagDetector.

(** ** BatchReplacer *)

Module BatchReplacer.
Import JS.

(** A page item of the open document: what the replacer reads of it.
    [pageItems] is empty for an item that has no such collection. *)
Inductive PageItem := mkPageItem {
  typename : string;
  name : jsstring;
  contents : jsstring;
  pageItems : list PageItem
}.

(** [doc.layers]: each layer with its [pageItems]. *)
Abbreviation Document := (list (list PageItem)).

(** A reference to a layer ([[l]]) or to an item ([l :: indices]). *)
Abbreviation Ref := (list nat).

(** One entry of [config.replacements] in the array format; an absent
    string property is empty. *)
Record Replacement := {
  varKey : string;
  elementPath : string;
  currentValue : jsstring;
  newValue : jsstring;
  value : jsstring
}.

Record Config := {
  replacements : list Replacement;
  outputDir : jsstring;
  outputName : jsstring;
  exportFormats : option (list string)
}.

(** An entry of [BatchReplacer.log]. *)
Record LogEntry := {
  action : string;
  elementId : jsstring;
  logged_value : jsstring
}.

(** A JavaScript value handed back to the caller. *)
Inductive jsvalue :=
| VBool (b : bool)
| VString (s : jsstring)
| VArray (items : list jsvalue)
| VObject (props : list (string * jsvalue)).

(** Reading a property of a returned object. *)
Definition get (v : jsvalue) (prop : string) : option jsvalue :=
  match v with
  | VObject props => snd <$> List.find (fun p => String.eqb (fst p) prop) props
  | _ => None
  end.

(** [s.replace(/[\r\n]/g, "").substring(0, 30)] *)
Definition clean (s : jsstring) : jsstring :=
  take 30 (List.filter (fun c => negb ((c =? 13) || (c =? 10))) s).

(** The test of the loop body of [findTextByContent] on one item. *)
Definition content_matches (targetContent : jsstring) (item : PageItem)
    : bool :=
  String.eqb (typename item) "TextFrame"
  && streq (clean (contents item)) (clean targetContent).

(** The [for] loop of [findTextByContent] over [items] from index [k],
    with the treatment of one item passed in. *)
Fixpoint scan (visit : PageItem -> option Ref) (items : list PageItem)
    (k : nat) : option Ref :=
  match items with
  | [] => None
  | item :: rest =>
      match visit item with
      | Some p => Some (k :: p)
      | None => scan visit rest (S k)
      end
  end.

(** One turn of the loop: the item itself when it is a matching text
    frame, otherwise the search among its [pageItems]. *)
Fixpoint visit (targetContent : jsstring) (item : PageItem) : option Ref :=
  if content_matches targetContent item then Some []
  else scan (visit targetContent) (pageItems item) 0.

(** [findTextByContent(container, targetContent)], given the
    container's [pageItems]; the result is relative to the container. *)
Definition findTextByContent (items : list PageItem)
    (targetContent : jsstring) : option Ref :=
  scan (visit targetContent) items 0.

(** The item a reference below a list of items points to. *)
Fixpoint item_at (items : list PageItem) (p : Ref) : option PageItem :=
  match p with
  | [] => None
  | [k] => items !! k
  | k :: p' =>
      match items !! k with
      | Some item => item_at (pageItems item) p'
      | None => None
      end
  end.

(** [pathStr.split("/")] *)
Fixpoint split_slash (s : string) (cur : string) : list string :=
  match s with
  | EmptyString => [cur]
  | String a rest =>
      if Ascii.eqb a "/" then cur :: split_slash rest ""
      else split_slash rest (cur +:+ String a "")
  end.

Definition digit_of (a : ascii) : option nat :=
  let n := nat_of_ascii a in
  if (48 <=? n)%nat && (n <=? 57)%nat then Some (n - 48)%nat else None.

Fixpoint digits_value (s : string) (acc : option nat) : option nat :=
  match s with
  | EmptyString => acc
  | String a rest =>
      match digit_of a with
      | Some d => digits_value rest (Some (10 * default 0 acc + d)%nat)
      | None => acc
      end
  end.

Fixpoint skip_blanks (s : string) : string :=
  match s with
  | String a rest =>
      let n := nat_of_ascii a in
      if ((9 <=? n)%nat && (n <=? 13)%nat) || (n =? 32)%nat
      then skip_blanks rest else s
  | EmptyString => s
  end.

(** [parseInt(s, 10)] as an index: [None] when the result is [NaN] or
    negative (every use of it then finds nothing). *)
Definition parseInt (s : string) : option nat :=
  match skip_blanks s with
  | String "-" rest =>
      match digits_value rest None with
      | Some O => Some O
      | _ => None
      end
  | String "+" rest => digits_value rest None
  | s' => digits_value s' None
  end.

(** The loop of [findByPath] over the remaining parts. *)
Fixpoint walk (items : list PageItem) (parts : list string) (acc : Ref)
    : option Ref :=
  match parts with
  | [] => Some acc
  | part :: rest =>
      match parseInt part with
      | None => None
      | Some idx =>
          match items !! idx with
          | Some item => walk (pageItems item) rest (acc ++ [idx])
          | None => None
          end
      end
  end.

Definition findByPath (doc : Document) (pathStr : string) : option Ref :=
  if String.eqb pathStr "" then None
  else
    match split_slash pathStr "" with
    | [] => None
    | part :: rest =>
        match parseInt part with
        | None => None
        | Some layerIndex =>
            match doc !! layerIndex with
            | Some items => walk items rest [layerIndex]
            | None => None
            end
        end
    end.

(** What a reference into the document points to. *)
Definition deref (doc : Document) (r : Ref) : option PageItem :=
  match r with
  | [] => None
  | l :: p =>
      match doc !! l with
      | Some items => item_at items p
      | None => None
      end
  end.

(** The content-match stage: the layers in order, until one yields. *)
Fixpoint find_in_layers (layers : list (list PageItem)) (layerIdx : nat)
    (targetContent : jsstring) : option Ref :=
  match layers with
  | [] => None
  | items :: rest =>
      match findTextByContent items targetContent with
      | Some p => Some (layerIdx :: p)
      | None => find_in_layers rest (S layerIdx) targetContent
      end
  end.

Definition by_content (doc : Document) (rep : Replacement) : option Ref :=
  match currentValue rep with
  | [] => None
  | _ => find_in_layers doc 0 (currentValue rep)
  end.

(** The typename of what a reference points to; a reference of length
    one is the layer itself. *)
Definition typename_at (doc : Document) (r : Ref) : option string :=
  match r with
  | [l] => if decide (l < length doc)%nat then Some "Layer"%string else None
  | _ => typename <$> deref doc r
  end.

Definition items_at (doc : Document) (r : Ref) : list PageItem :=
  match r with
  | [l] => default [] (doc !! l)
  | _ => default [] (pageItems <$> deref doc r)
  end.

(** The path-fallback stage. *)
Definition by_path (doc : Document) (rep : Replacement) : option Ref :=
  match findByPath doc (elementPath rep) with
  | None => None
  | Some r =>
      match typename_at doc r with
      | None => None
      | Some t =>
          if negb (String.eqb t "TextFrame")
             && negb (Nat.eqb (length (currentValue rep)) 0)
          then (fun p => r ++ p)
                 <$> findTextByContent (items_at doc r) (currentValue rep)
          else Some r
      end
  end.

(** The value of [item] when the loop body reaches [if (item)]. *)
Definition resolve (doc : Document) (rep : Replacement) : option Ref :=
  match by_content doc rep with
  | Some r => Some r
  | None => by_path doc rep
  end.

(** [item.contents = newContent] and the like: rewriting the item a
    reference points to. *)
Fixpoint update_items (f : PageItem -> PageItem) (items : list PageItem)
    (p : Ref) : list PageItem :=
  match p with
  | [] => items
  | [k] => alter f k items
  | k :: p' =>
      alter (fun item =>
               mkPageItem (typename item) (name item) (contents item)
                 (update_items f (pageItems item) p')) k items
  end.

Definition update_doc (f : PageItem -> PageItem) (doc : Document) (r : Ref)
    : Document :=
  match r with
  | [] => doc
  | l :: p => alter (fun items => update_items f items p) l doc
  end.

Definition set_contents (newContent : jsstring) (item : PageItem)
    : PageItem :=
  mkPageItem (typename item) (name item) newContent (pageItems item).

(** The raster item gives way to a fresh placed item at its place. *)
Definition placed_anew (item : PageItem) : PageItem :=
  mkPageItem "PlacedItem" [] [] [].

(** The replacer's state while the loop runs: the open document and
    [this.log].  The lines written to the debug log file and the
    artwork itself (images, geometry) are not part of it. *)
Record State := {
  doc : Document;
  log : list LogEntry
}.

(** [rep.newValue || rep.value || ""] *)
Definition new_value_of (rep : Replacement) : jsstring :=
  match newValue rep with
  | [] => value rep
  | v => v
  end.

(** The body of the loop over [replacements], for one entry.
    [file_exists] answers [new File(path).exists]. *)
Definition replace_one (file_exists : jsstring -> bool) (st : State)
    (rep : Replacement) : State :=
  let newValue := new_value_of rep in
  match resolve (doc st) rep with
  | None => st
  | Some r =>
      match deref (doc st) r with
      | None => st
      | Some item =>
          if String.eqb (typename item) "TextFrame" then
            {| doc := update_doc (set_contents newValue) (doc st) r;
               log := log st ++ [{| action := "replaceText";
                                    elementId := name item;
                                    logged_value := newValue |}] |}
          else if String.eqb (typename item) "PlacedItem" then
            if file_exists newValue then
              {| doc := doc st;
                 log := log st ++ [{| action := "replaceImage";
                                      elementId := name item;
                                      logged_value := newValue |}] |}
            else st
          else if String.eqb (typename item) "RasterItem" then
            if file_exists newValue then
              {| doc := update_doc placed_anew (doc st) r;
                 log := log st ++ [{| action := "replaceImage";
                                      elementId := [];
                                      logged_value := newValue |}] |}
            else st
          else st
      end
  end.

(** The export loop: one path per recognised format. *)
Definition export_path (config : Config) (format : string)
    : option jsstring :=
  let outputName := match outputName config with
                    | [] => lit "output"
                    | n => n
                    end in
  let base := outputDir config ++ lit "/" ++ outputName in
  let format := toLowerCase format in
  if String.eqb format "ai" then Some (base ++ lit ".ai")
  else if String.eqb format "pdf" then Some (base ++ lit ".pdf")
  else if String.eqb format "png" then Some (base ++ lit ".png")
  else if String.eqb format "jpg" || String.eqb format "jpeg"
  then Some (base ++ lit ".jpg")
  else None.

Definition exported_files (config : Config) : list jsstring :=
  omap (export_path config) (default ["pdf"%string] (exportFormats config)).

(** [runFromConfig] from the point where the configuration has been
    read and the source document opened: the state after the loop over
    the replacements, and the object returned. *)
Definition runFromConfig (file_exists : jsstring -> bool) (config : Config)
    (opened : Document) : State * jsvalue :=
  let st := fold_left (replace_one file_exists) (replacements config)
              {| doc := opened; log := [] |} in
  (st, VObject [("success"%string, VBool true);
                ("files"%string, VArray (map VString (exported_files config)))]).

End BatchReplacer.

(* ================================================================== *)
(** * Part I, continued: the vocabulary of the properties *)

(** ** Bounds check *)

Module BoundsSpec.
Import JS IntegrityChecker.




Inductive visibility := Outside | Partly | Fully.

#[export] Instance visibility_eq_dec : EqDecision visibility.
Proof. solve_decision. Defined.

(** The class the loop body puts an element with bounds [b] in. *)
Definition class_of (b : Bounds) (W H : Q) : visibility :=
  if fully_outside b W H then Outside
  else if partly_outside b W H then Partly
  else Fully.

Definition out_entry (e : Element) (b : Bounds) : BoundsEntry :=
  {| elementId := id e; elementType := type e; entry_bounds := b;
     reason := Some (lit "完全在画板外") |}.

Definition part_entry (e : Element) (b : Bounds) : BoundsEntry :=
  {| elementId := id e; elementType := type e; entry_bounds := b;
     reason := None |}.

(** The elements of a class with their bounds, in the order of the
    list. *)
Fixpoint members (c : visibility) (W H : Q) (elements : list Element)
    : list (Element * Bounds) :=
  match elements with
  | [] => []
  | e :: rest =>
      match bounds e with
      | Some b =>
          if decide (class_of b W H = c)
          then (e, b) :: members c W H rest
          else members c W H rest
      | None => members c W H rest
      end
  end.

(** The size the elements are checked against. *)
Definition checked_size (artboardInfo : option ArtboardInfo)
    (docWidth docHeight : Q) : Q * Q :=
  match artboardInfo with
  | Some a => (ab_width a, ab_height a)
  | None => (docWidth, docHeight)
  end.

End BoundsSpec.

(** ** Pattern matching *)

Module MatchSpec.
Import JS PatternMatcher.

(** How many optional keys of the definition are present in the tag
    map. *)
Definition optional_present (pattern : PatternDef)
    (childTags : gmap string (list TagRecord)) : nat :=
  length (filter (fun o => is_Some (childTags !! o)) (optional pattern)).

(** The definition matches the tag map: every required key has at
    least one record and, when [minFields] is set, the required keys
    plus the optional keys present reach it. *)
Definition satisfies (pattern : PatternDef)
    (childTags : gmap string (list TagRecord)) : Prop :=
  (forall k, k ∈ required pattern ->
     exists record others, childTags !! k = Some (record :: others))
  /\ (forall n, minFields pattern = Some n ->
        (n <= length (required pattern)
              + optional_present pattern childTags)%nat).

(** The element a field of a match is bound to. *)
Definition field_element (m : PatternMatch) (k : string) : option string :=
  match fields m !! k with
  | Some (Some record) => Some (elementId record)
  | _ => None
  end.

(** Scenario C: a group with an avatar, a name and a title. *)
Definition origin : Point := {| x := 0; y := 0 |}.
Definition unit_size : Size := {| width := 100; height := 100 |}.

Definition child (i t : string) (parent : string) : Element :=
  {| elem_id := i; elem_type := "text"; parentId := Some parent;
     variable := Some {| primaryType := t; variableType := None |};
     content := lit "x"; name := []; elem_path := "0/0/0";
     elem_position := origin; elem_size := unit_size |}.

Definition card (i : string) (at_x at_y : Q) : Element :=
  {| elem_id := i; elem_type := "group"; parentId := None;
     variable := None; content := []; name := []; elem_path := "0/0";
     elem_position := {| x := at_x; y := at_y |};
     elem_size := unit_size |}.

Definition scenario_C : list Element :=
  [card "group_1" 50 100;
   child "image_1" "avatar" "group_1";
   child "text_1" "name" "group_1";
   child "text_2" "title" "group_1"].

End MatchSpec.

(** ** Variable naming *)

Module NamerSpec.
Import JS VariableNamer.

(** The character [a] does not occur in [s]. *)
Fixpoint free_of (a : ascii) (s : string) : Prop :=
  match s with
  | EmptyString => True
  | String c s' => c <> a /\ free_of a s'
  end.

(** How many of the allocations before the [i]-th were for the type
    key [k]. *)
Definition earlier (fieldTypes : list (option string)) (i : nat)
    (k : string) : nat :=
  length (filter (fun t => key_of t = k) (take i fieldTypes)).

(** The type key of a standalone element as the design document has
    it: the type that was detected for the element, and "item" for an
    element that comes without one. *)
Definition type_key (fieldType : option string) : string :=
  match fieldType with
  | Some (String c s) => String c s
  | _ => "item"
  end.

(** The value of the counter of the type key [k] at the [i]-th
    allocation: the counter starts at 0 and goes up by one with every
    allocation for [k]. *)
Definition counter_at (fieldTypes : list (option string)) (i : nat)
    (k : string) : nat :=
  length (filter (fun t => type_key t = k) (take i fieldTypes)).

End NamerSpec.

(** ** Stable identity *)

Module IdSpec.
Import JS IdGenerator.

(** DJB2 as the design document words it: seed 5381, multiply by 33
    and add the character, masked to 31 bits. *)
Definition djb2 (key : jsstring) : Z :=
  fold_left (fun hash c => Z.land (hash * 33 + c) (2 ^ 31 - 1)) key 5381.

(** The kind that prefixes the id. *)
Definition kind (item : Item) : string :=
  if String.eqb (typename item) "" then "unknown"%string else typename item.

(** Parts written one after the other with a separator between them. *)
Fixpoint join (sep : jsstring) (parts : list jsstring) : jsstring :=
  match parts with
  | [] => []
  | [part] => part
  | part :: rest => part ++ sep ++ join sep rest
  end.

(** The parts of the key as the design document lists them: the kind
    (as the item gives it, empty when it gives none), the rounded
    position, the rounded size, the layer index, the structural path
    and, for a text frame with content, the first 20 characters of the
    content.  The two coordinates are written with a comma between
    them, the two sizes with an "x". *)
Definition key_parts (item : Item) (context : Context) : list jsstring :=
  [ lit (typename item);
    lit (string_of_Z (Math_round (fst (position item)))) ++ lit ","
      ++ lit (string_of_Z (Math_round (snd (position item))));
    lit (string_of_Z (Math_round (width item))) ++ lit "x"
      ++ lit (string_of_Z (Math_round (height item)));
    lit (string_of_nat (layerIndex context));
    lit (path context) ]
  ++ (if decide (typename item = "TextFrame"%string /\ contents item <> [])
      then [take 20 (contents item)] else []).

(** The key: the parts, set apart by "|". *)
Definition identity_key (item : Item) (context : Context) : jsstring :=
  join (lit "|") (key_parts item context).

(** Two items agree on what the id is made of: kind, rounded position,
    rounded size, layer index, structural path and, for text, the
    first 20 characters of the content. *)
Definition same_identity (item1 : Item) (ctx1 : Context)
    (item2 : Item) (ctx2 : Context) : Prop :=
  typename item1 = typename item2
  /\ Math_round (fst (position item1)) = Math_round (fst (position item2))
  /\ Math_round (snd (position item1)) = Math_round (snd (position item2))
  /\ Math_round (width item1) = Math_round (width item2)
  /\ Math_round (height item1) = Math_round (height item2)
  /\ layerIndex ctx1 = layerIndex ctx2
  /\ path ctx1 = path ctx2
  /\ (typename item1 = "TextFrame"%string ->
      take 20 (contents item1) = take 20 (contents item2)).

(** A text frame before and after a nudge of a fraction of a point,
    with text changed beyond the 20th character. *)
Definition caption : Item :=
  {| typename := "TextFrame"; position := (10.4, -20.5)%Q;
     width := 100; height := 2.5;
     contents := lit "2024 annual partner summit" |}.

Definition caption_nudged : Item :=
  {| typename := "TextFrame"; position := (10.2, -20.4)%Q;
     width := 100.3; height := 2.6;
     contents := lit "2024 annual partner meeting" |}.

Definition caption_ctx : Context := {| layerIndex := 0; path := "0/1" |}.

End IdSpec.

(** ** Text classification *)

Module DetectSpec.
Import JS Regex MultiTagDetector.

(** The tag of the name rule. *)
Definition name_tag : Tag :=
  {| type := "name"; varType := PERSON_NAME; confidence := 0.85 |}.

Definition address_tag : Tag :=
  {| type := "address"; varType := ADDRESS; confidence := 0.75 |}.

(** A character of the range the name rule accepts, U+4E00 to U+9FA5. *)
Definition cjk (code : Z) : Prop := 19968 <= code <= 40869.

(** What the name rule accepts: with all white space taken out, two
    to four characters, each of them in the range. *)
Definition name_shaped (str : jsstring) : Prop :=
  (2 <= length (remove_spaces str) <= 4)%nat
  /\ Forall cjk (remove_spaces str).

(** Exclusion keywords as the design document names them. *)
Definition exclusion_keywords : list string := ["团队"; "流程"; "嘉宾"].

Definition excluded (str : jsstring) : bool :=
  existsb (fun kw => includes (lit kw) str) exclusion_keywords.

(** The address keywords of one character. *)
Definition address_characters : jsstring := lit "省市区县路号楼室".

(** Text that is blank, or whose trimmed content is one character
    that is no address keyword. *)
Definition short_text (content : jsstring) : Prop :=
  (length (trim content) <= 1)%nat
  /\ forall ch, trim content = [ch] -> ch ∉ address_characters.

End DetectSpec.

(** ** Repeat groups *)

Module RepeatSpec.
Import JS PatternMatcher.

(** The references of the matches of pattern [t] from index [i] on. *)
Fixpoint refs_from (patterns : list PatternMatch) (i : nat) (t : string)
    : list nat :=
  match patterns with
  | [] => []
  | p :: rest =>
      if String.eqb (patternId p) t then i :: refs_from rest (S i) t
      else refs_from rest (S i) t
  end.

(** The matches that share the pattern id [t], by reference. *)
Definition refs_of (patterns : list PatternMatch) (t : string) : list nat :=
  refs_from patterns 0 t.

(** The references stored for [t] in [byType]. *)
Fixpoint stored (byType : list (string * list nat)) (t : string)
    : list nat :=
  match byType with
  | [] => []
  | (t', refs) :: rest =>
      if String.eqb t' t then refs else stored rest t
  end.





(** A match differs from another in its repeat fields at most. *)
Definition same_match (p p' : PatternMatch) : Prop :=
  patternId p' = patternId p /\ patternLabel p' = patternLabel p
  /\ groupId p' = groupId p /\ groupPath p' = groupPath p
  /\ position p' = position p /\ size p' = size p
  /\ fields p' = fields p /\ match_repeatable p' = match_repeatable p.

(** A guest card found at a position. *)
Definition guest_at (g : string) (at_x at_y : Q) : PatternMatch :=
  {| patternId := "guest"; patternLabel := lit "嘉宾卡片";
     groupId := g; groupPath := "0/0";
     position := {| x := at_x; y := at_y |};
     size := {| width := 100; height := 100 |};
     fields := ∅; match_repeatable := true;
     repeatIndex := 0; repeatTotal := None |}.

(** Scenario D. *)
Definition scenario_D : list PatternMatch :=
  [guest_at "group_1" 50 100; guest_at "group_2" 200 105;
   guest_at "group_3" 50 400].


End RepeatSpec.

(** ** Batch replacement *)

Module ReplaceSpec.
Import JS BatchReplacer.

(** The items below a list of items in document order, each with its
    reference relative to the list. *)
Fixpoint number_items (order : PageItem -> list (Ref * PageItem))
    (items : list PageItem) (k : nat) : list (Ref * PageItem) :=
  match items with
  | [] => []
  | item :: rest =>
      map (fun pr => (k :: fst pr, snd pr)) (order item)
      ++ number_items order rest (S k)
  end.

(** An item followed by everything below it, in document order. *)
Fixpoint document_order (item : PageItem) : list (Ref * PageItem) :=
  ([], item) :: number_items document_order (pageItems item) 0.

Definition items_order (items : list PageItem) : list (Ref * PageItem) :=
  number_items document_order items 0.

(** All items of the document: layer order, then document order. *)
Fixpoint layers_order (layers : list (list PageItem)) (l : nat)
    : list (Ref * PageItem) :=
  match layers with
  | [] => []
  | items :: rest =>
      map (fun pr => (l :: fst pr, snd pr)) (items_order items)
      ++ layers_order rest (S l)
  end.

(** The first text frame of a sequence whose cleaned content equals
    the cleaned target. *)
Definition first_match (targetContent : jsstring)
    (order : list (Ref * PageItem)) : option Ref :=
  fst <$> List.find (fun pr => content_matches targetContent (snd pr)) order.


Definition success_record (field : string) (v : jsvalue) : jsvalue :=
  VObject [("field"%string, VString (lit field)); ("value"%string, v)].

(** The returned object lists [entry] under [list_name]. *)
Definition recorded (ret : jsvalue) (list_name : string) (entry : jsvalue)
    : Prop :=
  exists entries, get ret list_name = Some (VArray entries)
                  /\ entry ∈ entries.

(** A document of one layer: a group holding a name and a title. *)
Definition text_frame (n : string) (c : string) : PageItem :=
  mkPageItem "TextFrame" (lit n) (lit c) [].

Definition poster : Document :=
  [[mkPageItem "GroupItem" (lit "card") []
      [text_frame "name" "李四"; text_frame "title" "CEO"]]].


(** The same field when the document holds its recorded value. *)
Definition scenario_E_found : Replacement :=
  {| varKey := "guest_0.name"; elementPath := "";
     currentValue := lit "李四"; newValue := lit "Alice"; value := [] |}.

Definition config_of (reps : list Replacement) : Config :=
  {| replacements := reps; outputDir := lit "/tmp/out";
     outputName := lit "output_001"; exportFormats := Some ["ai"%string] |}.

Definition no_files (path : jsstring) : bool := false.

End ReplaceSpec.

(* ================================================================== *)
(** * Part I, continued: further functions of the same scripts *)

(** ** IntegrityChecker.checkHierarchy *)

Module HierarchyChecker.
Import JS IntegrityChecker.

(** One entry of [issues]. *)
Record Issue := {
  issue_elementId : string;
  issue : jsstring
}.

Record HierarchyCheck := {
  hierarchy_valid : bool;
  issues : list Issue
}.

(** First loop: [idSet[elements[i].id] = true]. *)
Definition build_idSet (elements : list Element) : gmap string bool :=
  fold_left (fun idSet e => <[id e := true]> idSet) elements ∅.

(** [elem.parentId && !idSet[elem.parentId]]: the parent id is a
    non-empty string and not a key of [idSet]. *)
Definition dangling (idSet : gmap string bool) (elem : Element) : bool :=
  match parentId elem with
  | Some p => negb (String.eqb p "") && negb (default false (idSet !! p))
  | None => false
  end.

Definition issue_of (elem : Element) : Issue :=
  {| issue_elementId := id elem;
     issue := lit "父元素ID不存在: " ++ lit (default ""%string (parentId elem)) |}.

(** Second loop. *)
Fixpoint checkHierarchy_loop (elements : list Element)
    (idSet : gmap string bool) (found : list Issue) : list Issue :=
  match elements with
  | [] => found
  | elem :: rest =>
      if dangling idSet elem
      then checkHierarchy_loop rest idSet (found ++ [issue_of elem])
      else checkHierarchy_loop rest idSet found
  end.

Definition checkHierarchy (elements : list Element) : HierarchyCheck :=
  let found := checkHierarchy_loop elements (build_idSet elements) [] in
  {| hierarchy_valid := Nat.eqb (length found) 0;
     issues := found |}.

End HierarchyChecker.

(** ** IdGenerator.generateSequentialId *)

Module SequentialId.
Import JS.

(** [this.counters[type] = (this.counters[type] || 0) + 1;
     return type.toLowerCase() + "_" + this.counters[type];]
    The counter is kept under the type as given, the id is built from
    the lower-cased type. *)
Definition generateSequentialId (type : string) (counters : gmap string nat)
    : string * gmap string nat :=
  let n := (default 0 (counters !! type) + 1)%nat in
  (toLowerCase type +:+ "_" +:+ string_of_nat n, <[type := n]> counters).

Definition reset : gmap string nat := ∅.

(** The ids handed out for a sequence of requests. *)
Fixpoint generate (types : list string) (counters : gmap string nat)
    : list string :=
  match types with
  | [] => []
  | t :: rest =>
      let '(id, counters') := generateSequentialId t counters in
      id :: generate rest counters'
  end.

End SequentialId.

(** ** CoordinateSystem *)

Module CoordinateSystem.
Import JS.
Local Open Scope Q_scope.

(** The fields of the object that the functions below read. *)
Record Setup := {
  docHeight : Q;
  docWidth : Q;
  origin : string;
  artboardLeft : Q;
  artboardTop : Q;
  artboardWidth : Q;
  artboardHeight : Q;
  useArtboardRelative : bool
}.

(** [Math.round(num * 100) / 100] for an argument that is a number (the
    branch for other values is not reached then).  The arithmetic is
    exact here where the engine rounds to doubles, so the value may
    differ from the engine's in the last hundredth.  The properties
    below do not depend on it: they use of [round] only that it is
    monotone and maps 0 to 0, or they compare the same rounded values
    on both sides. *)
Definition round (num : Q) : Q := inject_Z (Math_round (num * 100)) / 100.

Record Position := { x : Q; y : Q }.

Definition transformPosition (cs : Setup) (px py : Q) : Position :=
  let '(relX, relY) :=
    if useArtboardRelative cs
    then (px - artboardLeft cs, artboardTop cs - py)
    else (px, if String.eqb (origin cs) "top-left" then - py else py) in
  {| x := round relX; y := round relY |}.

(** The result of [transformBounds]; the centre is given in the
    artboard-relative mode only. *)
Record Transformed := {
  left : Q; top : Q; right : Q; bottom : Q;
  width : Q; height : Q;
  centerX : option Q; centerY : option Q
}.

(** [bounds] is the native array [[left, top, right, bottom]]. *)
Definition transformBounds (cs : Setup) (bounds : Q * Q * Q * Q)
    : Transformed :=
  let '(aiLeft, aiTop, aiRight, aiBottom) := bounds in
  let w := aiRight - aiLeft in
  let h := aiTop - aiBottom in
  if useArtboardRelative cs then
    let relLeft := aiLeft - artboardLeft cs in
    let relTop := artboardTop cs - aiTop in
    let relRight := aiRight - artboardLeft cs in
    let relBottom := artboardTop cs - aiBottom in
    {| left := round relLeft; top := round relTop;
       right := round relRight; bottom := round relBottom;
       width := round w; height := round h;
       centerX := Some (round (relLeft + w / 2));
       centerY := Some (round (relTop + h / 2)) |}
  else if String.eqb (origin cs) "top-left" then
    {| left := round aiLeft; top := round (- aiTop);
       right := round aiRight; bottom := round (- aiBottom);
       width := round w; height := round h;
       centerX := None; centerY := None |}
  else
    {| left := round aiLeft; top := round aiTop;
       right := round aiRight; bottom := round aiBottom;
       width := round w; height := round (Qabs h);
       centerX := None; centerY := None |}.

Definition getArtboardInfo (cs : Setup) : IntegrityChecker.ArtboardInfo :=
  {| IntegrityChecker.ab_width := artboardWidth cs;
     IntegrityChecker.ab_height := artboardHeight cs |}.

Definition isInArtboard (cs : Setup) (bounds : Q * Q * Q * Q) : bool :=
  let transformed := transformBounds cs bounds in
  Qle_bool (- (10)) (left transformed) &&
  Qle_bool (- (10)) (top transformed) &&
  Qle_bool (right transformed) (artboardWidth cs + 10) &&
  Qle_bool (bottom transformed) (artboardHeight cs + 10).

Definition getArtboardCoverage (cs : Setup) (bounds : Q * Q * Q * Q) : Q :=
  let transformed := transformBounds cs bounds in
  let elemArea := width transformed * height transformed in
  let artboardArea := artboardWidth cs * artboardHeight cs in
  if gt artboardArea 0 then elemArea / artboardArea else 0.

(** The [bounds] field that [ElementFactory.createBase] stores in an
    element. *)
Definition element_bounds (cs : Setup) (bounds : Q * Q * Q * Q)
    : IntegrityChecker.Bounds :=
  let transformed := transformBounds cs bounds in
  {| IntegrityChecker.left := left transformed;
     IntegrityChecker.top := top transformed;
     IntegrityChecker.right := right transformed;
     IntegrityChecker.bottom := bottom transformed |}.

End CoordinateSystem.

(** ** PatternMatcher: summary, confidence, adjacent groups, variable ids *)

Module PatternScoring.
Import JS PatternMatcher.
Local Open Scope Q_scope.

(** [generateSummary].  A match has no [category] property, so the
    loop never writes to [byCategory]. *)
Record Summary := {
  totalPatterns : nat;
  byType : gmap string nat;
  byCategory : gmap string nat
}.

Definition count_type (byType : gmap string nat) (p : PatternMatch)
    : gmap string nat :=
  <[patternId p := (default 0 (byType !! patternId p) + 1)%nat]> byType.

Definition generateSummary (patterns : list PatternMatch) : Summary :=
  {| totalPatterns := length patterns;
     byType := fold_left count_type patterns ∅;
     byCategory := ∅ |}.

(** [if (childTags[k])]: the key is a property of the tag map. *)
Definition present (childTags : gmap string (list TagRecord)) (k : string)
    : bool :=
  match childTags !! k with Some _ => true | None => false end.

(** [variance]. *)
Definition variance (arr : list Q) : Q :=
  if (length arr <? 2)%nat then 0
  else
    let n := inject_Z (Z.of_nat (length arr)) in
    let mean := fold_left Qplus arr 0 / n in
    let sumSq :=
      fold_left (fun s a => s + (a - mean) * (a - mean)) arr 0 in
    sumSq / n.

(** [checkLayout] reads of each child its [position] only, which a
    child may lack ([None]); the loop collects the coordinates of the
    children that have one. *)
Definition placed (children : list (option Point)) : list Point :=
  omap (fun position => position) children.

Definition checkLayout (children : list (option Point))
    (expectedLayout : string) : bool :=
  if (length children <? 2)%nat then true
  else
    let xPositions := map x (placed children) in
    let yPositions := map y (placed children) in
    if (length xPositions <? 2)%nat then true
    else
      let xVariance := variance xPositions in
      let yVariance := variance yPositions in
      if String.eqb expectedLayout "vertical" then gt yVariance xVariance
      else if String.eqb expectedLayout "horizontal"
           then gt xVariance yVariance
           else true.

(** The two scoring loops of [calculateConfidence], on the pair
    [(score, maxScore)]. *)
Definition score_required (childTags : gmap string (list TagRecord))
    (acc : Z * Z) (r : string) : Z * Z :=
  ((if present childTags r then fst acc + 2 else fst acc)%Z,
   (snd acc + 2)%Z).

Definition score_optional (childTags : gmap string (list TagRecord))
    (acc : Z * Z) (o : string) : Z * Z :=
  ((if present childTags o then fst acc + 1 else fst acc)%Z,
   (snd acc + 1)%Z).

(** [pattern.layout && this.checkLayout(children, pattern.layout)] *)
Definition layout_bonus (pattern : PatternDef)
    (children : list (option Point)) : bool :=
  match layout pattern with
  | Some l => negb (String.eqb l "") && checkLayout children l
  | None => false
  end.

Definition scores (pattern : PatternDef)
    (childTags : gmap string (list TagRecord))
    (children : list (option Point)) : Z * Z :=
  let acc := fold_left (score_optional childTags) (optional pattern)
               (fold_left (score_required childTags) (required pattern)
                  (0, 0)%Z) in
  if layout_bonus pattern children
  then (fst acc + 1, snd acc + 1)%Z else acc.

(** [calculateConfidence(pattern, childTags, children)]; the children
    are passed on to [checkLayout] and are given by their positions. *)
Definition calculateConfidence (pattern : PatternDef)
    (childTags : gmap string (list TagRecord))
    (children : list (option Point)) : Q :=
  let '(score, maxScore) := scores pattern childTags children in
  if (0 <? maxScore)%Z
  then inject_Z (Math_round (inject_Z score / inject_Z maxScore * 100)) / 100
  else 0.

(** The object returned by [tryMatchAdjacentGroup]. *)
Record AdjacentMatch := {
  adj_patternId : string;
  adj_patternLabel : jsstring;
  adj_category : string;
  isAdjacentGroup : bool;
  elementCount : nat;
  confidence : Q
}.

(** The positions of elements of the matcher, each of which has
    one. *)
Definition positions_of (elements : list Element) : list (option Point) :=
  map (fun e => Some (elem_position e)) elements.

Fixpoint tryMatchAdjacentGroup_loop (catalog : list PatternDef)
    (childTags : gmap string (list TagRecord)) (elements : list Element)
    : option AdjacentMatch :=
  match catalog with
  | [] => None
  | pattern :: rest =>
      if negb (repeatable pattern) then
        tryMatchAdjacentGroup_loop rest childTags elements
      else if forallb (present childTags) (required pattern) then
        Some {| adj_patternId := id pattern;
                adj_patternLabel := label pattern;
                adj_category := category pattern;
                isAdjacentGroup := true;
                elementCount := length elements;
                confidence :=
                  calculateConfidence pattern childTags
                    (positions_of elements) |}
      else tryMatchAdjacentGroup_loop rest childTags elements
  end.

Definition tryMatchAdjacentGroup (elements : list Element)
    : option AdjacentMatch :=
  tryMatchAdjacentGroup_loop COMPOSITE_PATTERNS (extractTags elements)
    elements.

(** An entry of the list returned by [generatePatternVariableIds]. *)
Record PatternVariable := {
  variableId : string;
  var_patternId : string;
  var_repeatIndex : nat;
  fieldName : string;
  var_elementId : string;
  currentValue : jsstring
}.

(** [p.repeatTotal > 1 ? p.patternId + "_" + p.repeatIndex : p.patternId];
    an unassigned [repeatTotal] compares as false. *)
Definition prefix_of (p : PatternMatch) : string :=
  match repeatTotal p with
  | Some total =>
      if (1 <? total)%nat
      then (patternId p +:+ "_" +:+ string_of_nat (repeatIndex p))%string
      else patternId p
  | None => patternId p
  end.

(** The body of the inner loop.  Reading [field.elementId] of a field
    that holds [undefined] throws; the result is [None] then. *)
Definition variable_of (p : PatternMatch)
    (entry : string * option TagRecord) : option PatternVariable :=
  match snd entry with
  | Some field =>
      Some {| variableId := (prefix_of p +:+ "." +:+ fst entry)%string;
              var_patternId := patternId p;
              var_repeatIndex := repeatIndex p;
              fieldName := fst entry;
              var_elementId := elementId field;
              currentValue := value field |}
  | None => None
  end.

(** [generatePatternVariableIds].  The fields of one match are visited
    in the enumeration order of the map; the embedding does not keep
    the order in which the properties were created. *)
Definition generatePatternVariableIds (patterns : list PatternMatch)
    : option (list PatternVariable) :=
  (fun perMatch => concat perMatch)
    <$> mapM (fun p => mapM (variable_of p) (map_to_list (fields p)))
          patterns.

End PatternScoring.

(** ** MultiTagDetector: images, shapes and the type table *)

Module MultiTagDetectorMedia.
Import JS Regex MultiTagDetector.
Local Open Scope Q_scope.

(** The other entries of [VAR_TYPES]. *)
Definition AVATAR : VarType :=
  {| key := "avatar"; category := "image"; label := lit "头像"; priority := 1 |}.
Definition PHOTO : VarType :=
  {| key := "photo"; category := "image"; label := lit "照片"; priority := 2 |}.
Definition LOGO : VarType :=
  {| key := "logo"; category := "image"; label := lit "Logo"; priority := 1 |}.
Definition BANNER : VarType :=
  {| key := "banner"; category := "image"; label := lit "横幅图";
     priority := 2 |}.
Definition QRCODE : VarType :=
  {| key := "qrcode"; category := "image"; label := lit "二维码";
     priority := 1 |}.
Definition IMAGE : VarType :=
  {| key := "image"; category := "generic"; label := lit "图片";
     priority := 3 |}.

(** [getVarType]: [mapping[type] || VAR_TYPES.TEXT]. *)
Definition mapping : list (string * VarType) :=
  [("date", DATE); ("time", TIME); ("phone", PHONE); ("email", EMAIL);
   ("price", PRICE); ("percent", PERCENT); ("title", PERSON_TITLE);
   ("wechat", WECHAT); ("address", ADDRESS); ("name", PERSON_NAME);
   ("event_title", EVENT_TITLE); ("slogan", SLOGAN)]%string.

Definition getVarType (type : string) : VarType :=
  match List.find (fun entry => String.eqb (fst entry) type) mapping with
  | Some entry => snd entry
  | None => TEXT
  end.

(** [width / (height || 1)] *)
Definition ratio_of (width height : Q) : Q :=
  width / (if Qeq_bool height 0 then 1 else height).

(** The tags of [detectImage] before sorting. *)
Definition image_tags (width height : Q) : list Tag :=
  let ratio := ratio_of width height in
  let tags := [] in
  let tags :=
    push_if (gt ratio 0.8 && lt ratio 1.2
             && Qle_bool 50 width && Qle_bool width 500)
      {| type := "avatar"; varType := AVATAR; confidence := 0.85 |} tags in
  let tags :=
    push_if (gt ratio 0.95 && lt ratio 1.05
             && Qle_bool 80 width && Qle_bool width 300)
      {| type := "qrcode"; varType := QRCODE; confidence := 0.8 |} tags in
  let tags :=
    push_if (lt width 300 && lt height 150)
      {| type := "logo"; varType := LOGO; confidence := 0.6 |} tags in
  let tags :=
    push_if (gt ratio 2.5 && gt width 400)
      {| type := "banner"; varType := BANNER; confidence := 0.85 |} tags in
  let tags :=
    push_if (gt width 200 && gt height 200)
      {| type := "photo"; varType := PHOTO; confidence := 0.6 |} tags in
  push_if (Nat.eqb (length tags) 0)
    {| type := "image"; varType := IMAGE; confidence := 0.5 |} tags.

(** [detectImage]; the object it returns has no [maxConfidence].
    [tags[0].varType] of an empty list would throw: [primaryType] is
    [None] then. *)
Definition detectImage (width height : Q) : Detection :=
  let tags :=
    Array_sort (fun a b => confidence b - confidence a)
      (image_tags width height) in
  {| tags := tags;
     primaryType := varType <$> head tags;
     allTypes := Some (map type tags);
     maxConfidence := None |}.

(** A literal word under the flag [i]: a letter stands for both of
    its cases (the other characters of the patterns have no case). *)
Definition both_cases (c : Z) : list (Z * Z) :=
  if (97 <=? c)%Z && (c <=? 122)%Z then [(c, c); (c - 32, c - 32)%Z]
  else if (65 <=? c)%Z && (c <=? 90)%Z then [(c, c); (c + 32, c + 32)%Z]
  else [(c, c)].

Fixpoint StrI (s : jsstring) : regex :=
  match s with
  | [] => Eps
  | c :: s' => Seq (Cls (both_cases c)) (StrI s')
  end.

Fixpoint WordsI (ws : list string) : regex :=
  match ws with
  | [] => Void
  | w :: ws' =>
      match ws' with
      | [] => StrI (lit w)
      | _ => Alt (StrI (lit w)) (WordsI ws')
      end
  end.

(** [/bg|背景|background/i], [/circle|圆|圈/i], [/line|线|分割/i] *)
Definition re_bg : regex := WordsI ["bg"; "背景"; "background"].
Definition re_circle : regex := WordsI ["circle"; "圆"; "圈"].
Definition re_line : regex := WordsI ["line"; "线"; "分割"].

(** The object returned by [detectShape]; its one tag has no
    [varType]. *)
Record ShapeDetection := {
  shape_tags : list (string * Q);
  shape_primaryType : VarType;
  shape_allTypes : list string;
  shape_maxConfidence : Q
}.

(** The chain of tests of [detectShape]: the shape type, its label and
    the confidence.  [name && ...] is false for the empty name. *)
Definition classify_shape (width height : Q) (name : jsstring)
    : string * jsstring * Q :=
  let ratio := ratio_of width height in
  let named := match name with [] => false | _ => true end in
  if named && test re_bg name then ("bg_shape"%string, lit "背景形状", 0.7)
  else if named && test re_circle name then ("circle"%string, lit "圆形", 0.7)
  else if named && test re_line name then ("line"%string, lit "线条", 0.7)
  else if gt ratio 0.9 && lt ratio 1.1 && lt width 200
       then ("circle"%string, lit "圆形", 0.6)
  else if gt ratio 10 || lt ratio 0.1 then ("line"%string, lit "线条", 0.6)
  else if gt width 500 && gt height 500
       then ("bg_shape"%string, lit "背景形状", 0.6)
  else ("shape"%string, lit "形状", 0.5).

Definition detectShape (width height : Q) (name : jsstring)
    : ShapeDetection :=
  let '(shapeType, shapeLabel, conf) := classify_shape width height name in
  {| shape_tags := [(shapeType, conf)];
     shape_primaryType :=
       {| key := shapeType; label := shapeLabel; category := "shape";
          priority := 2 |};
     shape_allTypes := [shapeType];
     shape_maxConfidence := conf |}.

End MultiTagDetectorMedia.

(** ** VariableDetectorV2 *)

Module VariableDetectorV2.
Import JS MultiTagDetector MultiTagDetectorMedia.
Local Open Scope Q_scope.

(** [elem.variable] as the parsers leave it (absent properties are
    the empty string, [None], or 0), or as [processElements] itself
    writes it. *)
Record ParsedVariable := {
  isVariable : bool;
  variableKey : string;
  parsed_type : option (string * jsstring);
  suggestedName : jsstring;
  parsed_confidence : Q;
  originalContent : jsstring
}.

Record DetectedVariable := {
  detected_id : string;
  detected_primaryType : string;
  primaryLabel : jsstring;
  detected_category : string;
  allTags : option (list string);
  detected_confidence : option Q
}.

Inductive ElementVariable :=
| Parsed (v : ParsedVariable)
| Detected (v : DetectedVariable).

(** The fields of an element that [processElements] reads or writes. *)
Record Element := {
  id : string;
  path : string;
  type : string;
  content : jsstring;
  name : jsstring;
  position : option (Q * Q);
  size : option (Q * Q);
  variable : option ElementVariable;
  replaceable : bool
}.

(** An entry of [variables]. *)
Record VarInfo := {
  elementId : string;
  elementPath : string;
  var_key : string;
  variableType : string;
  variableLabel : jsstring;
  var_suggestedName : jsstring;
  var_confidence : option Q;
  currentValue : jsstring;
  var_position : option (Q * Q);
  var_size : option (Q * Q)
}.

(** [a || b] on strings. *)
Definition or_string (a b : string) : string :=
  if String.eqb a "" then b else a.

Definition or_text (a b : jsstring) : jsstring :=
  match a with [] => b | _ => a end.

(** The test that sends an element down the first branch:
    [elem.variable && (elem.variable.isVariable || elem.variable.variableKey)]. *)
Definition preset (elem : Element) : option ParsedVariable :=
  match variable elem with
  | Some (Parsed v) =>
      if isVariable v || negb (String.eqb (variableKey v) "")
      then Some v else None
  | _ => None
  end.

(** The three detection branches: the primary type, [allTypes] and
    [maxConfidence] of the detection, if there is one with a primary
    type. *)
Definition detect (elem : Element)
    : option (VarType * option (list string) * option Q) :=
  let w := match size elem with Some s => fst s | None => 0 end in
  let h := match size elem with Some s => snd s | None => 0 end in
  if String.eqb (type elem) "text"
     && match content elem with [] => false | _ => true end
  then
    let detection := detectText (Some (content elem)) in
    match primaryType detection with
    | Some t => Some (t, allTypes detection, maxConfidence detection)
    | None => None
    end
  else if String.eqb (type elem) "image_embedded"
          || String.eqb (type elem) "image_linked"
  then
    let detection := detectImage w h in
    match primaryType detection with
    | Some t => Some (t, allTypes detection, maxConfidence detection)
    | None => None
    end
  else if String.eqb (type elem) "path"
          || String.eqb (type elem) "compound_path"
  then
    let detection := detectShape w h (or_text (name elem) []) in
    Some (shape_primaryType detection, Some (shape_allTypes detection),
          Some (shape_maxConfidence detection))
  else None.

(** The state of the loop: the elements seen so far (as they are
    left), the list and the map of variables, the namer's counters. *)
Record Progress := {
  seen : list Element;
  variables : list VarInfo;
  variableMap : gmap string string;
  counters : gmap string nat
}.

Definition step (st : Progress) (elem : Element) : Progress :=
  match preset elem with
  | Some v =>
      let varType_key :=
        match parsed_type v with Some t => fst t | None => ""%string end in
      let varType_label :=
        match parsed_type v with Some t => snd t | None => [] end in
      let '(varKey, counters') :=
        if String.eqb (variableKey v) "" then
          VariableNamer.generateId None
            (Some (or_string varType_key "unknown")) VariableNamer.IndexNull
            (counters st)
        else (variableKey v, counters st) in
      {| seen := seen st ++ [elem];
         variables :=
           variables st ++
           [{| elementId := id elem;
               elementPath := path elem;
               var_key := varKey;
               variableType := or_string varType_key "text";
               variableLabel := or_text varType_label (lit "文本");
               var_suggestedName := suggestedName v;
               var_confidence :=
                 Some (if Qeq_bool (parsed_confidence v) 0 then 0.5
                       else parsed_confidence v);
               currentValue :=
                 or_text (originalContent v)
                   (or_text (content elem) (or_text (name elem) []));
               var_position := position elem;
               var_size := size elem |}];
         variableMap := <[varKey := id elem]> (variableMap st);
         counters := counters' |}
  | None =>
      match detect elem with
      | Some (primary, types, conf) =>
          let '(varId, counters') :=
            VariableNamer.generateId None (Some (key primary))
              VariableNamer.IndexNull (counters st) in
          {| seen :=
               seen st ++
               [{| id := id elem; path := path elem; type := type elem;
                   content := content elem; name := name elem;
                   position := position elem; size := size elem;
                   variable :=
                     Some (Detected
                             {| detected_id := varId;
                                detected_primaryType := key primary;
                                primaryLabel := label primary;
                                detected_category := category primary;
                                allTags := types;
                                detected_confidence := conf |});
                   replaceable := true |}];
             variables :=
               variables st ++
               [{| elementId := id elem;
                   elementPath := path elem;
                   var_key := varId;
                   variableType := key primary;
                   variableLabel := label primary;
                   var_suggestedName := [];
                   var_confidence := conf;
                   currentValue := or_text (content elem)
                                     (or_text (name elem) []);
                   var_position := position elem;
                   var_size := size elem |}];
             variableMap := <[varId := id elem]> (variableMap st);
             counters := counters' |}
      | None =>
          {| seen := seen st ++ [elem];
             variables := variables st;
             variableMap := variableMap st;
             counters := counters st |}
      end
  end.

(** [groupBy(arr, key)] for a key read by [get]: the groups in the
    order of their creation. *)
Fixpoint push_group {A : Type} (groups : list (string * list A))
    (val : string) (a : A) : list (string * list A) :=
  match groups with
  | [] => [(val, [a])]
  | (val', members) :: rest =>
      if String.eqb val' val then (val', members ++ [a]) :: rest
      else (val', members) :: push_group rest val a
  end.

Definition groupBy {A : Type} (get : A -> string) (arr : list A)
    : list (string * list A) :=
  fold_left (fun groups a => push_group groups (get a) a) arr [].

(** The object returned by [processElements], with the elements as
    the loop leaves them. *)
Record Analysis := {
  result_variables : list VarInfo;
  result_variableMap : gmap string string;
  totalVariables : nat;
  byType : list (string * list VarInfo);
  elements_after : list Element
}.

Definition processElements (elements : list Element) : Analysis :=
  let final :=
    fold_left step elements
      {| seen := []; variables := []; variableMap := ∅;
         counters := VariableNamer.reset |} in
  {| result_variables := variables final;
     result_variableMap := variableMap final;
     totalVariables := length (variables final);
     byType := groupBy variableType (variables final);
     elements_after := seen final |}.

(** The [fields] of [generateTemplate(variables)] on the entries that
    [processElements] builds.  Such an entry has no property
    [category], [variableId], [primaryType] or [primaryLabel]: each
    of these reads [undefined], which as a property name is the
    string "undefined". *)
Record TemplateField := {
  field_type : option string;
  field_label : option jsstring;
  defaultValue : jsstring;
  field_elementId : string
}.

Definition read_category (v : VarInfo) : string := "undefined".
Definition read_variableId (v : VarInfo) : string := "undefined".

(** [{ type: v.primaryType, label: v.primaryLabel,
      defaultValue: v.currentValue, elementId: v.elementId }] *)
Definition template_field (v : VarInfo) : TemplateField :=
  {| field_type := None; field_label := None;
     defaultValue := currentValue v; field_elementId := elementId v |}.

Definition fill_category (items : list VarInfo)
    : gmap string TemplateField :=
  fold_left
    (fun fields v => <[read_variableId v := template_field v]> fields)
    items ∅.

Definition generateTemplate (variables : list VarInfo)
    : gmap string (gmap string TemplateField) :=
  fold_left
    (fun fields group => <[fst group := fill_category (snd group)]> fields)
    (groupBy read_category variables) ∅.

End VariableDetectorV2.

(** ** The main script: the path of an element *)

Module TemplateParser.
Import JS.

(** [context.parentPath ? context.parentPath + "/" + i : String(i)] *)
Definition itemPath (parentPath : string) (i : nat) : string :=
  if String.eqb parentPath "" then string_of_nat i
  else (parentPath +:+ "/" +:+ string_of_nat i)%string.

(** The [path] that [traverseItems] hands to [processItem] for the
    item reached from the [pageItems] of a layer by [indices]: the
    call for a layer starts with the empty [parentPath], the call for
    the items of a group with the [itemPath] of the group. *)
Fixpoint path_below (parentPath : string) (indices : list nat) : string :=
  match indices with
  | [] => parentPath
  | i :: rest => path_below (itemPath parentPath i) rest
  end.

Definition recorded_path (indices : list nat) : string :=
  path_below "" indices.

End TemplateParser.

(** ** DataValidator *)

Module DataValidator.
Import JS.
Local Open Scope Q_scope.

(** A warning, by the parts of its message: the field name and the
    bound that was applied. *)
Inductive Warning :=
| LimitedToMin (fieldName : jsstring) (min : Q)
| LimitedToMax (fieldName : jsstring) (max : Q).

Record Stats := {
  validated : nat;
  cleaned : nat;
  rejected : nat;
  warnings : list Warning
}.

(** [sanitizeNumber(num, min, max, defaultVal, fieldName)].  [num] is
    [None] for [null], [undefined], [NaN] and whatever [Number] does
    not turn into a finite number; a bound or default that is left
    out is [None]. *)
Definition sanitizeNumber (num : option Q) (min max defaultVal : option Q)
    (fieldName : jsstring) (stats : Stats) : Q * Stats :=
  match num with
  | None =>
      (default 0 defaultVal,
       {| validated := validated stats; cleaned := S (cleaned stats);
          rejected := rejected stats; warnings := warnings stats |})
  | Some n =>
      let '(n1, w1) :=
        match min with
        | Some lo =>
            if lt n lo
            then (lo, warnings stats ++ [LimitedToMin fieldName lo])
            else (n, warnings stats)
        | None => (n, warnings stats)
        end in
      let '(n2, w2) :=
        match max with
        | Some hi =>
            if gt n1 hi then (hi, w1 ++ [LimitedToMax fieldName hi])
            else (n1, w1)
        | None => (n1, w1)
        end in
      (n2, {| validated := S (validated stats); cleaned := cleaned stats;
              rejected := rejected stats; warnings := w2 |})
  end.

(** The fields of an element that [validateElement] reads: a string
    is empty when absent, a coordinate is [None] when it is not a
    number, a size is [None] when absent. *)
Record Element := {
  id : string;
  type : string;
  typename : string;
  position : option (option Q * option Q);
  size : option (Q * Q);
  bounds : option (Q * Q * Q)
}.

Record ElementReport := {
  elem_valid : bool;
  elem_errors : list jsstring;
  elem_warnings : list jsstring
}.

Definition add_if (cond : bool) (msg : string) (l : list jsstring)
    : list jsstring :=
  if cond then l ++ [lit msg] else l.

(** [validateElement]; [bounds] holds [width], [right] and [left]. *)
Definition validateElement (elem : Element) : ElementReport :=
  let errors := [] in
  let warns := [] in
  let errors := add_if (String.eqb (id elem) "") "缺少ID" errors in
  let errors := add_if (String.eqb (type elem) "") "缺少类型" errors in
  let warns := add_if (String.eqb (typename elem) "") "缺少typename" warns in
  let warns :=
    match position elem with
    | None => add_if true "缺少位置信息" warns
    | Some (px, py) =>
        add_if (negb (bool_decide (is_Some py))) "位置Y非数字"
          (add_if (negb (bool_decide (is_Some px))) "位置X非数字" warns)
    end in
  let warns :=
    match size elem with
    | None => add_if true "缺少尺寸信息" warns
    | Some _ => warns
    end in
  let errors :=
    match size elem with
    | None => errors
    | Some (w, h) =>
        add_if (lt h 0) "高度为负数" (add_if (lt w 0) "宽度为负数" errors)
    end in
  let warns :=
    match bounds elem with
    | Some (bw, bright, bleft) =>
        add_if (negb (Qeq_bool bw (bright - bleft))) "边界宽度不一致" warns
    | None => warns
    end in
  {| elem_valid := Nat.eqb (length errors) 0;
     elem_errors := errors;
     elem_warnings := warns |}.

(** The parts of a structure that [validateStructure] reads; a part
    that is absent is [None], a string that is absent is empty, a
    number that is absent is 0. *)
Record Meta := { version : string; exportTime : string }.
Record DocumentInfo := { doc_name : jsstring; doc_width : Q; doc_height : Q }.

Record Structure := {
  meta : option Meta;
  document : option DocumentInfo;
  elements : option (list Element)
}.

Record StructureReport := {
  valid : bool;
  errors : list jsstring;
  report_warnings : list jsstring;
  elementErrors : nat;
  elementWarnings : nat
}.

Definition validateStructure (structure : Structure) : StructureReport :=
  let '(valid1, errors1, warnings1) :=
    match meta structure with
    | None => (false, [lit "缺少 meta 信息"], [])
    | Some m =>
        (true, [],
         add_if (String.eqb (exportTime m) "") "缺少导出时间"
           (add_if (String.eqb (version m) "") "缺少版本号" []))
    end in
  let '(valid2, errors2, warnings2) :=
    match document structure with
    | None => (false, errors1 ++ [lit "缺少 document 信息"], warnings1)
    | Some d =>
        let warnings' :=
          add_if (match doc_name d with [] => true | _ => false end)
            "缺少文档名" warnings1 in
        if Qeq_bool (doc_width d) 0 || Qeq_bool (doc_height d) 0
        then (false, errors1 ++ [lit "缺少文档尺寸"], warnings')
        else (valid1, errors1, warnings')
    end in
  match elements structure with
  | None =>
      {| valid := false;
         errors := errors2 ++ [lit "缺少 elements 数组"];
         report_warnings := warnings2;
         elementErrors := 0; elementWarnings := 0 |}
  | Some elems =>
      let reports := map validateElement elems in
      {| valid := valid2;
         errors := errors2;
         report_warnings := warnings2;
         elementErrors :=
           length (List.filter (fun r => negb (elem_valid r)) reports);
         elementWarnings :=
           fold_left (fun n r => (n + length (elem_warnings r))%nat)
             reports 0%nat |}
  end.

End DataValidator.

(** ** ColorProcessor, JsonSerializer, PrefixParser *)

Module ColorProcessor.
Import JS.
Local Open Scope Q_scope.

Record RGB := { r : Z; g : Z; b : Z }.

Definition cmykToRgb (c m y k : Q) : RGB :=
  let c := c / 100 in
  let m := m / 100 in
  let y := y / 100 in
  let k := k / 100 in
  {| r := Math_round (255 * (1 - c) * (1 - k));
     g := Math_round (255 * (1 - m) * (1 - k));
     b := Math_round (255 * (1 - y) * (1 - k)) |}.

(** The inner [toHex], for a component that rounds to a non-negative
    integer. *)
Definition toHex (c : Q) : string :=
  let hex := toString16 (Math_round c) in
  if Nat.eqb (String.length hex) 1 then ("0" +:+ hex)%string else hex.

Definition rgbToHex (r g b : Q) : string :=
  ("#" +:+ toHex r +:+ toHex g +:+ toHex b)%string.

End ColorProcessor.

Module JsonSerializer.
Import JS.

(** [escape]: the loop over the characters. *)
Fixpoint escape (str : jsstring) : jsstring :=
  match str with
  | [] => []
  | c :: rest =>
      if (c =? 92)%Z then 92 :: 92 :: escape rest
      else if (c =? 34)%Z then 92 :: 34 :: escape rest
      else if (c =? 10)%Z then 92 :: 110 :: escape rest
      else if (c =? 13)%Z then 92 :: 114 :: escape rest
      else if (c =? 9)%Z then 92 :: 116 :: escape rest
      else if (c <? 32)%Z then escape rest
      else c :: escape rest
  end.

End JsonSerializer.

Module PrefixParser.
Import JS.

Record PrefixDef := {
  def_prefix : string;
  def_type : string;
  def_replaceable : bool;
  def_role : string
}.

(** [ELEMENT_PREFIXES] in the order of its declaration (the property
    [cssTag] is not read by the parser). *)
Definition ELEMENT_PREFIXES : list PrefixDef := [
  {| def_prefix := "txt_"; def_type := "text"; def_replaceable := true;
     def_role := "dynamic_text" |};
  {| def_prefix := "title_"; def_type := "text"; def_replaceable := true;
     def_role := "heading" |};
  {| def_prefix := "subtitle_"; def_type := "text"; def_replaceable := true;
     def_role := "subheading" |};
  {| def_prefix := "label_"; def_type := "text"; def_replaceable := true;
     def_role := "label" |};
  {| def_prefix := "desc_"; def_type := "text"; def_replaceable := true;
     def_role := "description" |};
  {| def_prefix := "name_"; def_type := "text"; def_replaceable := true;
     def_role := "person_name" |};
  {| def_prefix := "date_"; def_type := "text"; def_replaceable := true;
     def_role := "date" |};
  {| def_prefix := "price_"; def_type := "text"; def_replaceable := true;
     def_role := "price" |};
  {| def_prefix := "img_"; def_type := "image"; def_replaceable := true;
     def_role := "dynamic_image" |};
  {| def_prefix := "photo_"; def_type := "image"; def_replaceable := true;
     def_role := "photo" |};
  {| def_prefix := "avatar_"; def_type := "image"; def_replaceable := true;
     def_role := "avatar" |};
  {| def_prefix := "banner_"; def_type := "image"; def_replaceable := true;
     def_role := "banner" |};
  {| def_prefix := "thumb_"; def_type := "image"; def_replaceable := true;
     def_role := "thumbnail" |};
  {| def_prefix := "logo_"; def_type := "logo"; def_replaceable := true;
     def_role := "branding" |};
  {| def_prefix := "icon_"; def_type := "icon"; def_replaceable := true;
     def_role := "symbol" |};
  {| def_prefix := "qr_"; def_type := "qrcode"; def_replaceable := true;
     def_role := "dynamic_code" |};
  {| def_prefix := "barcode_"; def_type := "barcode"; def_replaceable := true;
     def_role := "dynamic_code" |};
  {| def_prefix := "btn_"; def_type := "button"; def_replaceable := false;
     def_role := "interactive" |};
  {| def_prefix := "link_"; def_type := "link"; def_replaceable := false;
     def_role := "interactive" |};
  {| def_prefix := "input_"; def_type := "input"; def_replaceable := false;
     def_role := "form" |};
  {| def_prefix := "bg_"; def_type := "background"; def_replaceable := true;
     def_role := "decoration" |};
  {| def_prefix := "mask_"; def_type := "mask"; def_replaceable := false;
     def_role := "decoration" |};
  {| def_prefix := "line_"; def_type := "divider"; def_replaceable := false;
     def_role := "decoration" |};
  {| def_prefix := "box_"; def_type := "container"; def_replaceable := false;
     def_role := "layout" |};
  {| def_prefix := "card_"; def_type := "card"; def_replaceable := false;
     def_role := "layout" |};
  {| def_prefix := "list_"; def_type := "list"; def_replaceable := true;
     def_role := "data" |};
  {| def_prefix := "table_"; def_type := "table"; def_replaceable := true;
     def_role := "data" |};
  {| def_prefix := "chart_"; def_type := "chart"; def_replaceable := true;
     def_role := "data" |}
].

(** The object returned by [parse]. *)
Record PrefixInfo := {
  prefix : string;
  baseName : jsstring;
  type : string;
  replaceable : bool;
  role : string
}.

(** The loop of [parse] over the table: the first prefix with
    [name.indexOf(prefix) === 0]. *)
Fixpoint parse_loop (table : list PrefixDef) (name : jsstring)
    : option PrefixInfo :=
  match table with
  | [] => None
  | d :: rest =>
      if starts_with (lit (def_prefix d)) name
      then Some {| prefix := def_prefix d;
                   baseName := drop (String.length (def_prefix d)) name;
                   type := def_type d;
                   replaceable := def_replaceable d;
                   role := def_role d |}
      else parse_loop rest name
  end.

Definition parse (name : jsstring) : option PrefixInfo :=
  match name with
  | [] => None
  | _ => parse_loop ELEMENT_PREFIXES name
  end.

End PrefixParser.

(* ================================================================== *)
(** * Part I, continued: the vocabulary of the further properties *)

Module HierarchySpec.
Import JS IntegrityChecker.

(** A hexadecimal digit as [toString(16)] writes it; the decimal
    digits are among them. *)
Definition hex_digit (a : ascii) : Prop :=
  (48 <= nat_of_ascii a <= 57)%nat \/ (97 <= nat_of_ascii a <= 102)%nat.

Fixpoint hex_digits (s : string) : Prop :=
  match s with
  | EmptyString => True
  | String a rest => hex_digit a /\ hex_digits rest
  end.

(** An id as [IdGenerator] builds it in either mode: a lower-cased
    type or kind, an underscore, and a number in decimal or
    hexadecimal digits.  No property that a plain object inherits has
    a name of this form (the names with an underscore end in one), so
    a lookup under such an id reads the own properties only. *)
Definition generated_id (s : string) : Prop :=
  exists kind number,
    s = (kind +:+ "_" +:+ number)%string
    /\ number <> ""%string /\ hex_digits number.

(** The form as a test: somewhere in the string an underscore is
    followed by digits, and by nothing else, up to the end. *)
Fixpoint all_hex (s : string) : bool :=
  match s with
  | EmptyString => true
  | String a rest =>
      let n := nat_of_ascii a in
      (((48 <=? n) && (n <=? 57)) || ((97 <=? n) && (n <=? 102)))%nat
      && all_hex rest
  end.

Fixpoint ends_in_number (s : string) : bool :=
  match s with
  | EmptyString => false
  | String a rest =>
      (Ascii.eqb a "_" && negb (String.eqb rest "") && all_hex rest)
      || ends_in_number rest
  end.

(** The names of the properties that a plain object inherits: those
    of [Object.prototype] in the language standard and the additions
    of ExtendScript and of other engines. *)
Definition inherited_names : list string :=
  ["constructor"; "toString"; "toLocaleString"; "valueOf";
   "hasOwnProperty"; "isPrototypeOf"; "propertyIsEnumerable";
   "toSource"; "watch"; "unwatch"; "reflect";
   "__proto__"; "__count__"; "__parent__"; "__class__";
   "__defineGetter__"; "__defineSetter__"; "__lookupGetter__";
   "__lookupSetter__"; "__noSuchMethod__"]%string.

(** The elements carry ids, and parent ids, as the generator builds
    them. *)
Definition generated_ids (elements : list Element) : Prop :=
  forall e, e ∈ elements -> generated_id (id e).

Definition generated_parent_ids (elements : list Element) : Prop :=
  forall e p, e ∈ elements -> parentId e = Some p -> generated_id p.

(** Three text frames, the last two with the same id. *)
Definition repeated_id : list Element :=
  [ {| id := "textframe_1f"; type := "text"; parentId := None;
       bounds := None |};
    {| id := "textframe_2a"; type := "text"; parentId := None;
       bounds := None |};
    {| id := "textframe_2a"; type := "text"; parentId := None;
       bounds := None |} ].

(** A text frame below a group that is not in the list. *)
Definition lost_child : list Element :=
  [ {| id := "group_1"; type := "group"; parentId := None;
       bounds := None |};
    {| id := "text_1"; type := "text"; parentId := Some "group_7"%string;
       bounds := None |} ].

(** An element whose parent id is given (a non-empty string) and is
    the id of no element of the list. *)
Definition orphan (elements : list Element) (e : Element) : Prop :=
  match parentId e with
  | Some p => p <> ""%string /\ p ∉ (id <$> elements)
  | None => False
  end.

#[export] Instance orphan_dec (elements : list Element) (e : Element)
  : Decision (orphan elements e).
Proof. unfold orphan. destruct (parentId e); apply _. Defined.

(** An element that is its own parent. *)
Definition self_parented : Element :=
  {| id := "group_1"; type := "group"; parentId := Some "group_1"%string;
     bounds := None |}.

End HierarchySpec.

Module SequentialSpec.
Import JS.

(** How many of the requests before the [i]-th were for the type [t]. *)
Definition seen (types : list string) (i : nat) (t : string) : nat :=
  length (filter (fun t' => t' = t) (take i types)).

(** No two types of the list differ in the case of their letters only. *)
Definition case_distinct (types : list string) : Prop :=
  forall t1 t2, t1 ∈ types -> t2 ∈ types ->
    toLowerCase t1 = toLowerCase t2 -> t1 = t2.

End SequentialSpec.

Module TagSpec.
Import JS PatternMatcher.

(** The record that [extractTags] pushes for a child tagged [t]. *)
Definition record_of (child : Element) (t : string) : TagRecord :=
  {| elementId := elem_id child;
     type := t;
     value := or_else (content child) (or_else (name child) []);
     tag_position := elem_position child;
     tag_size := elem_size child |}.

(** The tag of a child: the [primaryType] of its [variable] or, when
    that is empty, the key of the [variableType]. *)
Definition tag_of (v : VariableTag) : string :=
  match primaryType v, variableType v with
  | EmptyString, Some k => k
  | EmptyString, None => ""
  | t, _ => t
  end.

(** The record of a child if it carries the tag [k]. *)
Definition tagged_as (k : string) (child : Element) : option TagRecord :=
  match variable child with
  | Some v =>
      if decide (tag_of v = k /\ k <> ""%string)
      then Some (record_of child k) else None
  | None => None
  end.

(** In a catalog, no definition that may repeat asks for a minimal
    number of fields. *)
Definition repeatable_unbounded (catalog : list PatternDef) : Prop :=
  forall d, d ∈ catalog -> repeatable d = true -> minFields d = None.

End TagSpec.

Module VariableIdSpec.
Import JS PatternMatcher.

(** The character [a] does not occur in [s], as a test. *)
Fixpoint no_char (a : ascii) (s : string) : bool :=
  match s with
  | EmptyString => true
  | String c s' => negb (Ascii.eqb c a) && no_char a s'
  end.

(** The ids of a catalog hold neither "_" nor ".". *)
Definition plain_ids (catalog : list PatternDef) : bool :=
  forallb (fun d => no_char "_" (id d) && no_char "." (id d)) catalog.

End VariableIdSpec.

Module TagOrderSpec.
Import JS MultiTagDetector.

(** Tags in the order of falling confidence. *)
Definition descending (tags : list Tag) : Prop :=
  StronglySorted (fun a b => (confidence b <= confidence a)%Q) tags.

(** The type names in the order in which [detectText] tries them. *)
Definition text_types : list string :=
  ["date"; "time"; "phone"; "email"; "price"; "percent"; "title";
   "wechat"; "address"; "name"; "event_title"; "slogan"; "text"]%string.

(** The type names in the order in which [detectImage] tries them. *)
Definition image_types : list string :=
  ["avatar"; "qrcode"; "logo"; "banner"; "photo"; "image"]%string.

End TagOrderSpec.

Module VariablesSpec.
Import JS MultiTagDetector MultiTagDetectorMedia VariableDetectorV2.

(** The type key under which an element asks the namer for an id, if
    it becomes a variable without bringing a key of its own. *)
Definition wanted (elem : Element) : option string :=
  match preset elem with
  | Some v =>
      Some (or_string
              (match parsed_type v with Some t => fst t | None => ""%string end)
              "unknown")
  | None =>
      match detect elem with
      | Some (primary, _, _) => Some (key primary)
      | None => None
      end
  end.

(** Two states of the loop of [processElements] that differ at most
    in the elements seen. *)
Definition same_findings (st st' : Progress) : Prop :=
  variables st = variables st' /\ variableMap st = variableMap st'
  /\ counters st = counters st'.

(** Two results of [processElements] report the same variables. *)
Definition same_report (a b : Analysis) : Prop :=
  result_variables a = result_variables b
  /\ result_variableMap a = result_variableMap b
  /\ totalVariables a = totalVariables b
  /\ byType a = byType b.

(** No element comes with a variable key of its own. *)
Definition keys_from_namer (elements : list Element) : Prop :=
  forall e v, e ∈ elements -> preset e = Some v -> variableKey v = ""%string.

(** An element of a kind that [processElements] classifies by its
    size and name. *)
Definition drawn (elem : Element) : Prop :=
  type elem = "path"%string \/ type elem = "compound_path"%string
  \/ type elem = "image_embedded"%string \/ type elem = "image_linked"%string.

(** An unnamed rectangle, a photo and a caption. *)
Definition plain_element (i t : string) (text : jsstring) : Element :=
  {| id := i; path := "0"; type := t; content := text; name := [];
     position := Some (0, 0)%Q; size := Some (120, 80)%Q;
     variable := None; replaceable := false |}.

Definition sample_elements : list Element :=
  [plain_element "path_1" "path" [];
   plain_element "image_1" "image_linked" [];
   plain_element "text_1" "text" (lit "2024-05-01");
   plain_element "path_2" "path" []].

End VariablesSpec.

Module PathSpec.
Import JS BatchReplacer.

(** The indices of a reference, written in decimal and joined by "/". *)
Definition path_string (r : Ref) : string :=
  String.concat "/" (string_of_nat <$> r).

(** The indices after the first, each behind a "/". *)
Fixpoint steps (p : Ref) : string :=
  match p with
  | [] => ""
  | k :: p' => ("/" +:+ string_of_nat k +:+ steps p')%string
  end.

(** Each index of [p] in turn is the position of an item: the first
    among [items], the next among the [pageItems] of that item. *)
Fixpoint descends (items : list PageItem) (p : Ref) : Prop :=
  match p with
  | [] => True
  | k :: p' =>
      match items !! k with
      | Some item => descends (pageItems item) p'
      | None => False
      end
  end.

(** The reference names a layer of the document and a way down from
    its items. *)
Definition resolves (doc : Document) (r : Ref) : Prop :=
  match r with
  | [] => False
  | l :: p =>
      match doc !! l with
      | Some items => descends items p
      | None => False
      end
  end.

#[export] Instance descends_dec (items : list PageItem) (p : Ref)
  : Decision (descends items p).
Proof.
  revert items. induction p as [|k p IH]; intros items; simpl.
  - apply _.
  - destruct (items !! k); [apply IH | apply _].
Defined.

#[export] Instance resolves_dec (doc : Document) (r : Ref)
  : Decision (resolves doc r).
Proof.
  destruct r as [|l p]; simpl; [apply _|].
  destruct (doc !! l); apply _.
Defined.

(** Two layers: a group with two text frames, and a title. *)
Definition two_layers : Document :=
  [ [ mkPageItem "GroupItem" (lit "card") []
        [ mkPageItem "TextFrame" (lit "name") (lit "Bob") [];
          mkPageItem "TextFrame" (lit "title") (lit "CEO") [] ] ];
    [ mkPageItem "TextFrame" (lit "headline") (lit "Summit") [] ] ].

End PathSpec.

Module ValidationSpec.
Import JS DataValidator.

(** What [validateElement] counts as an error of an element. *)
Definition faulty (e : Element) : Prop :=
  id e = ""%string \/ type e = ""%string
  \/ match size e with
     | Some (w, h) => (w < 0)%Q \/ (h < 0)%Q
     | None => False
     end.

#[export] Instance faulty_dec (e : Element) : Decision (faulty e).
Proof.
  unfold faulty. destruct (size e) as [[w h]|]; [|apply _].
  assert (Decision (w < 0)%Q).
  { destruct (Qlt_le_dec w 0); [left|right]; [done|by apply Qle_not_lt]. }
  assert (Decision (h < 0)%Q).
  { destruct (Qlt_le_dec h 0); [left|right]; [done|by apply Qle_not_lt]. }
  apply _.
Defined.

(** The structure has what [validateStructure] insists on. *)
Definition well_formed (s : Structure) : Prop :=
  is_Some (meta s)
  /\ (exists d, document s = Some d
                /\ ~ (doc_width d == 0)%Q /\ ~ (doc_height d == 0)%Q)
  /\ is_Some (elements s).

Definition no_stats : Stats :=
  {| validated := 0; cleaned := 0; rejected := 0; warnings := [] |}.

End ValidationSpec.

Module JsonSpec.
Import JS.

(** Reading the body of a JSON string as far as the escapes that
    [escape] writes go: [None] for a raw quote, a raw backslash, a
    raw control character or another escape. *)
Fixpoint json_unescape (s : jsstring) : option jsstring :=
  match s with
  | [] => Some []
  | c :: rest =>
      if (c =? 92)%Z then
        match rest with
        | e :: rest' =>
            let decoded :=
              if (e =? 92)%Z then Some 92%Z
              else if (e =? 34)%Z then Some 34%Z
              else if (e =? 110)%Z then Some 10%Z
              else if (e =? 114)%Z then Some 13%Z
              else if (e =? 116)%Z then Some 9%Z
              else None in
            match decoded, json_unescape rest' with
            | Some d, Some out => Some (d :: out)
            | _, _ => None
            end
        | [] => None
        end
      else if (c <? 32)%Z || (c =? 34)%Z then None
      else
        match json_unescape rest with
        | Some out => Some (c :: out)
        | None => None
        end
  end.

(** The characters that [escape] keeps: everything from the space on,
    and tab, line feed and carriage return. *)
Definition kept (c : Z) : bool :=
  negb (c <? 32)%Z || (c =? 9)%Z || (c =? 10)%Z || (c =? 13)%Z.

End JsonSpec.

Module PrefixSpec.
Import JS PrefixParser.

(** No prefix of the table starts another one, and each is written in
    ASCII. *)
Definition table_unambiguous (table : list PrefixDef) : bool :=
  forallb (fun d1 =>
             Nat.eqb (length (lit (def_prefix d1)))
               (String.length (def_prefix d1))
             && forallb (fun d2 =>
                           implb (starts_with (lit (def_prefix d1))
                                    (lit (def_prefix d2)))
                             (String.eqb (def_prefix d1) (def_prefix d2)))
                  table)
    table.

End PrefixSpec.
(* ================================================================== *)
(** * Part II: what the design document states about the programs *)

(** ** Numbers *)

Section Numbers.
Import JS.

Lemma lt_spec (a b : Q) : lt a b = true <-> (a < b)%Q.
Proof.
  unfold lt. rewrite negb_true_iff, <- not_true_iff_false, Qle_bool_iff.
  split; [apply Qnot_le_lt | apply Qlt_not_le].
Qed.

Lemma gt_spec (a b : Q) : gt a b = true <-> (b < a)%Q.
Proof. apply lt_spec. Qed.

Lemma lt_false (a b : Q) : lt a b = false <-> (b <= a)%Q.
Proof.
  unfold lt. rewrite negb_false_iff. apply Qle_bool_iff.
Qed.

Lemma gt_false (a b : Q) : gt a b = false <-> (a <= b)%Q.
Proof. apply lt_false. Qed.

End Numbers.

(** ** IntegrityChecker: id uniqueness *)

Section checkIdUniqueness_facts.
Import IntegrityChecker.

(** C1, where the code falls short of it.  Two elements carry the id
    "text_1f" and the first sits at index 0.  The check stores index 0,
    reads it back as "not seen", and reports the list as unique with
    no entry in [duplicates]. *)
Lemma checkIdUniqueness_misses_index0 :
  let e := {| id := "text_1f"; type := "text"; parentId := None;
              bounds := None |} in
  let r := checkIdUniqueness [e; e] in
  unique r = true /\ duplicates r = [] /\ totalIds r = 1%nat.
Proof. vm_compute. auto. Qed.

(** The same two elements behind any other element are reported. *)
Lemma checkIdUniqueness_flags_later :
  let e0 := {| id := "group_0"; type := "group"; parentId := None;
               bounds := None |} in
  let e := {| id := "text_1f"; type := "text"; parentId := None;
              bounds := None |} in
  let r := checkIdUniqueness [e0; e; e] in
  unique r = false
  /\ duplicates r = [{| dup_id := "text_1f"; indices := (1, 2)%nat |}].
Proof. vm_compute. auto. Qed.

(** Whatever the id: a list of two elements with one id is reported
    as unique. *)
Lemma checkIdUniqueness_pair (e e' : Element) :
  id e = id e' ->
  checkIdUniqueness [e; e']
  = {| unique := true; duplicates := []; totalIds := 1 |}.
Proof.
  intros Hid. unfold checkIdUniqueness. simpl.
  rewrite lookup_empty. rewrite <- Hid, lookup_insert_eq.
  rewrite insert_insert_eq.
  rewrite map_size_insert_None by apply lookup_empty.
  by rewrite map_size_empty.
Qed.

Lemma unique_iff_no_duplicates (elements : list Element) :
  unique (checkIdUniqueness elements) = true
  <-> duplicates (checkIdUniqueness elements) = [].
Proof.
  unfold checkIdUniqueness.
  destruct (checkIdUniqueness_loop elements 0 ∅ []) as [ids dups]. simpl.
  rewrite Nat.eqb_eq. destruct dups; simpl; split; congruence.
Qed.

End checkIdUniqueness_facts.

(** ** IntegrityChecker: bounds *)

Section checkBounds_facts.
Import JS IntegrityChecker BoundsSpec.





Lemma members_length (W H : Q) (elements : list Element) :
  (length (members Outside W H elements)
   + length (members Partly W H elements)
   + length (members Fully W H elements)
   = length (filter (fun e => is_Some (bounds e)) elements))%nat.
Proof.
  induction elements as [|e rest IH]; simpl; [done|].
  destruct (bounds e) as [b|] eqn:Hb.
  - rewrite filter_cons_True by (rewrite Hb; eauto).
    destruct (class_of b W H); simpl; lia.
  - rewrite filter_cons_False by (rewrite Hb; intros [? [=]]). apply IH.
Qed.

Lemma members_filter (c : visibility) (W H : Q) (elements : list Element) :
  members c W H (filter (fun e => is_Some (bounds e)) elements)
  = members c W H elements.
Proof.
  induction elements as [|e rest IH]; simpl; [done|].
  destruct (bounds e) as [b|] eqn:Hb.
  - rewrite filter_cons_True by (rewrite Hb; eauto).
    simpl. rewrite Hb, IH. done.
  - rewrite filter_cons_False by (rewrite Hb; intros [? [=]]). apply IH.
Qed.

Lemma checkBounds_loop_spec (elements : list Element) (W H : Q)
    (out part : list BoundsEntry) (full : nat) :
  checkBounds_loop elements W H out part full
  = (out ++ map (fun p => out_entry (fst p) (snd p))
              (members Outside W H elements),
     part ++ map (fun p => part_entry (fst p) (snd p))
               (members Partly W H elements),
     (full + length (members Fully W H elements))%nat).
Proof.
  revert out part full.
  induction elements as [|e rest IH]; intros out part full; simpl.
  - by rewrite !app_nil_r, Nat.add_0_r.
  - destruct (bounds e) as [b|]; [|apply IH].
    unfold class_of.
    destruct (fully_outside b W H); [|destruct (partly_outside b W H)];
      rewrite IH; simpl; rewrite <- ?app_assoc; simpl; repeat f_equal; lia.
Qed.

Lemma checkBounds_spec (elements : list Element)
    (artboardInfo : option ArtboardInfo) (docWidth docHeight : Q) :
  let W := fst (checked_size artboardInfo docWidth docHeight) in
  let H := snd (checked_size artboardInfo docWidth docHeight) in
  checkBounds elements artboardInfo docWidth docHeight
  = {| valid := Nat.eqb (length (members Outside W H elements)) 0;
       outOfBounds := map (fun p => out_entry (fst p) (snd p))
                        (members Outside W H elements);
       partiallyVisible := map (fun p => part_entry (fst p) (snd p))
                             (members Partly W H elements);
       fullyVisible := length (members Fully W H elements);
       artboardSize := (W, H) |}.
Proof.
  unfold checkBounds, checked_size.
  destruct artboardInfo as [a|]; simpl; rewrite checkBounds_loop_spec;
    simpl; by rewrite length_map.
Qed.


(** C10.  An element without a [bounds] field is skipped: the result
    is the one obtained from the list without such elements, the three
    results together count exactly the elements that carry bounds, and
    this is less than the number of elements as soon as one lacks
    them. *)
Theorem checkBounds_skips_unbounded (elements : list Element)
    (artboardInfo : option ArtboardInfo) (docWidth docHeight : Q) :
  let r := checkBounds elements artboardInfo docWidth docHeight in
  let bounded := filter (fun e => is_Some (bounds e)) elements in
  r = checkBounds bounded artboardInfo docWidth docHeight
  /\ (length (outOfBounds r) + length (partiallyVisible r) + fullyVisible r
      = length bounded)%nat
  /\ (length bounded <= length elements)%nat
  /\ ((exists e, e ∈ elements /\ bounds e = None) ->
      (length (outOfBounds r) + length (partiallyVisible r) + fullyVisible r
       < length elements)%nat).
Proof.
  intros r bounded. subst r bounded.
  rewrite !checkBounds_spec. simpl.
  rewrite !members_filter, !length_map, members_length.
  split; [done|]. split; [done|].
  split; [apply length_filter|].
  intros (e & He & Hb).
  induction elements as [|e' rest IH]; [by apply elem_of_nil in He|].
  apply elem_of_cons in He as [->|He].
  - rewrite filter_cons_False by (rewrite Hb; intros [? [=]]).
    simpl. pose proof (length_filter (fun e => is_Some (bounds e)) rest). lia.
  - specialize (IH He). rewrite filter_cons.
    destruct (decide _); simpl; lia.
Qed.

(** An input on which C10's inequality is strict: of two elements one
    has no bounds, and the three results count one. *)
Lemma checkBounds_skips_unbounded_witness :
  let e1 := {| id := "text_1"; type := "text"; parentId := None;
               bounds := Some {| left := 10; top := 10; right := 50;
                                 bottom := 30 |} |} in
  let e2 := {| id := "group_2"; type := "group"; parentId := None;
               bounds := None |} in
  let r := checkBounds [e1; e2] None 1000 1000 in
  (length (outOfBounds r) + length (partiallyVisible r) + fullyVisible r
   < 2)%nat.
Proof.
  intros e1 e2 r.
  apply (checkBounds_skips_unbounded [e1; e2] None 1000 1000).
  exists e2. split; [|reflexivity].
  apply elem_of_cons. right. apply elem_of_cons. left. reflexivity.
Defined.


End checkBounds_facts.

(** ** PatternMatcher: matching one container *)

Section matchPattern_facts.
Import JS PatternMatcher MatchSpec.

Lemma hasAllRequired_spec (pattern : PatternDef)
    (childTags : gmap string (list TagRecord)) :
  hasAllRequired pattern childTags = true
  <-> forall k, k ∈ required pattern ->
        exists record others, childTags !! k = Some (record :: others).
Proof.
  unfold hasAllRequired. rewrite forallb_forall. split.
  - intros Hall k Hk. apply list_elem_of_In in Hk.
    specialize (Hall k Hk).
    destruct (childTags !! k) as [[|record others]|]; try discriminate.
    eauto.
  - intros Hall k Hk. apply list_elem_of_In in Hk.
    destruct (Hall k Hk) as (record & others & ->). reflexivity.
Qed.

Lemma below_minFields_spec (pattern : PatternDef)
    (childTags : gmap string (list TagRecord)) :
  below_minFields pattern childTags = false
  <-> forall n, minFields pattern = Some n ->
        (n <= length (required pattern)
              + optional_present pattern childTags)%nat.
Proof.
  unfold below_minFields, optional_present, optionalCount.
  destruct (minFields pattern) as [[|m]|].
  - split; [intros _ n [= <-]; lia | done].
  - rewrite Nat.ltb_ge. split; [intros ? n [= <-]; done | eauto].
  - split; [intros _ n [=] | done].
Qed.

Lemma pattern_matches_spec (pattern : PatternDef)
    (childTags : gmap string (list TagRecord)) :
  pattern_matches pattern childTags = true <-> satisfies pattern childTags.
Proof.
  unfold pattern_matches, satisfies.
  rewrite andb_true_iff, negb_true_iff, hasAllRequired_spec,
    below_minFields_spec. tauto.
Qed.

Lemma lookup_add_required (childTags : gmap string (list TagRecord))
    (reqs : list string) (fields : gmap string (option TagRecord))
    (k : string) :
  fold_left (add_required childTags) reqs fields !! k
  = if decide (k ∈ reqs)
    then Some (head (default [] (childTags !! k)))
    else fields !! k.
Proof.
  revert fields.
  induction reqs as [|r reqs IH]; intros fields; cbn [fold_left].
  - rewrite decide_False by apply not_elem_of_nil. done.
  - rewrite IH. unfold add_required.
    destruct (decide (k ∈ reqs)) as [Hin|Hnin].
    + rewrite decide_True by (by apply elem_of_cons; right). done.
    + destruct (decide (r = k)) as [->|Hne].
      * rewrite decide_True by (by apply elem_of_cons; left).
        by rewrite lookup_insert_eq.
      * rewrite lookup_insert_ne by done.
        rewrite decide_False; [done|].
        rewrite elem_of_cons. intros [->|?]; done.
Qed.

Lemma lookup_add_optional (childTags : gmap string (list TagRecord))
    (opts : list string) (fields : gmap string (option TagRecord))
    (k : string) :
  fold_left (add_optional childTags) opts fields !! k
  = if decide (k ∈ opts /\ is_Some (childTags !! k))
    then Some (head (default [] (childTags !! k)))
    else fields !! k.
Proof.
  revert fields.
  induction opts as [|o opts IH]; intros fields; cbn [fold_left].
  - rewrite decide_False; [done|]. intros [[]%elem_of_nil _].
  - rewrite IH. unfold add_optional.
    destruct (decide (k ∈ opts /\ is_Some (childTags !! k))) as [[Hin Hs]|Hn].
    + rewrite decide_True; [done|]. split; [by apply elem_of_cons; right|done].
    + destruct (decide (o = k)) as [->|Hne].
      * destruct (childTags !! k) as [l|] eqn:Hk.
        -- rewrite decide_True
             by (split; [by apply elem_of_cons; left | by eauto]).
           by rewrite lookup_insert_eq.
        -- rewrite decide_False; [done|]. intros [_ [? [=]]].
      * rewrite decide_False.
        -- destruct (childTags !! o); [by apply lookup_insert_ne|done].
        -- rewrite elem_of_cons. intros [[->|?] ?]; [done|]. by apply Hn.
Qed.

Lemma build_fields_lookup (pattern : PatternDef)
    (childTags : gmap string (list TagRecord)) (k : string) :
  build_fields pattern childTags !! k
  = if decide (k ∈ required pattern
               \/ (k ∈ optional pattern /\ is_Some (childTags !! k)))
    then Some (head (default [] (childTags !! k)))
    else None.
Proof.
  unfold build_fields. rewrite lookup_add_optional, lookup_add_required.
  rewrite lookup_empty.
  repeat case_decide; try done; tauto.
Qed.

Lemma matchPattern_loop_spec (catalog : list PatternDef) (group : Element)
    (childTags : gmap string (list TagRecord)) :
  match matchPattern_loop catalog group childTags with
  | Some m =>
      exists k pattern,
        catalog !! k = Some pattern
        /\ satisfies pattern childTags
        /\ (forall j earlier, (j < k)%nat -> catalog !! j = Some earlier ->
              ~ satisfies earlier childTags)
        /\ m = build_match pattern group childTags
  | None => forall pattern, pattern ∈ catalog -> ~ satisfies pattern childTags
  end.
Proof.
  induction catalog as [|p rest IH]; simpl.
  - intros pattern []%elem_of_nil.
  - pose proof (pattern_matches_spec p childTags) as Hp.
    unfold pattern_matches in Hp.
    destruct (hasAllRequired p childTags) eqn:Hreq; simpl in *.
    + destruct (below_minFields p childTags) eqn:Hmin; simpl in *.
      * assert (Hno : ~ satisfies p childTags)
          by (rewrite <- Hp; discriminate).
        destruct (matchPattern_loop rest group childTags) as [m|].
        -- destruct IH as (k & pattern & Hk & Hsat & Hearlier & ->).
           exists (S k), pattern.
           split; [done|]. split; [done|]. split; [|done].
           intros [|j] earlier Hj; simpl; [by intros [= <-]|].
           apply Hearlier. lia.
        -- intros pattern [->|Hin]%elem_of_cons; eauto.
      * exists 0%nat, p.
        split; [done|]. split; [by apply Hp|]. split; [|done].
        intros j earlier Hj. lia.
    + assert (Hno : ~ satisfies p childTags)
        by (rewrite <- Hp; discriminate).
      destruct (matchPattern_loop rest group childTags) as [m|].
      * destruct IH as (k & pattern & Hk & Hsat & Hearlier & ->).
        exists (S k), pattern.
        split; [done|]. split; [done|]. split; [|done].
        intros [|j] earlier Hj; simpl; [by intros [= <-]|].
        apply Hearlier. lia.
      * intros pattern [->|Hin]%elem_of_cons; eauto.
Qed.

(** C3.  For a container and the tag map of its direct children the
    matcher returns at most one match.  When it returns one, it is for
    the first definition of the catalog that the tag map satisfies
    (every required key has at least one record and, when [minFields]
    is set, the required keys plus the optional keys present reach
    it); every required key of that definition is then a key of
    [fields], bound to the first record of its list, and [fields] has
    no key outside the definition's required and optional keys.  When
    it returns none, no definition of the catalog is satisfied. *)
Theorem matchPattern_first_definition (group : Element)
    (childTags : gmap string (list TagRecord)) (children : list Element) :
  match matchPattern group childTags children with
  | Some m =>
      exists k pattern,
        COMPOSITE_PATTERNS !! k = Some pattern
        /\ satisfies pattern childTags
        /\ (forall j earlier, (j < k)%nat ->
              COMPOSITE_PATTERNS !! j = Some earlier ->
              ~ satisfies earlier childTags)
        /\ patternId m = id pattern
        /\ groupId m = elem_id group
        /\ repeatIndex m = 0%nat
        /\ (forall key, key ∈ required pattern ->
              exists record others,
                childTags !! key = Some (record :: others)
                /\ fields m !! key = Some (Some record))
        /\ (forall key, is_Some (fields m !! key) ->
              key ∈ required pattern \/ key ∈ optional pattern)
  | None =>
      forall pattern, pattern ∈ COMPOSITE_PATTERNS ->
        ~ satisfies pattern childTags
  end.
Proof.
  unfold matchPattern.
  pose proof (matchPattern_loop_spec COMPOSITE_PATTERNS group childTags)
    as Hspec.
  destruct (matchPattern_loop COMPOSITE_PATTERNS group childTags) as [m|];
    [|exact Hspec].
  destruct Hspec as (k & pattern & Hk & Hsat & Hearlier & ->).
  exists k, pattern. do 6 (split; [done|]). split.
  - intros key Hkey. destruct Hsat as [Hreq _].
    destruct (Hreq key Hkey) as (record & others & Htag).
    exists record, others. split; [done|].
    cbn [fields build_match]. rewrite build_fields_lookup.
    rewrite decide_True by (by left). by rewrite Htag.
  - intros key. cbn [fields build_match]. rewrite build_fields_lookup.
    case_decide as Hdec; [tauto|]. by intros [? [=]].
Qed.

(** Scenario C: the group with an avatar, a name and a title matches
    the guest card, and the optional title is bound as well. *)
Lemma scenario_C_guest_card :
  exists m, match_groups scenario_C = [m]
    /\ patternId m = "guest"%string
    /\ field_element m "avatar" = Some "image_1"%string
    /\ field_element m "name" = Some "text_1"%string
    /\ field_element m "title" = Some "text_2"%string.
Proof. eexists. vm_compute. repeat split. Qed.

End matchPattern_facts.

(** ** VariableNamer *)

Section VariableNamer_facts.
Import JS VariableNamer NamerSpec.

Lemma append_empty (s : string) : ("" +:+ s)%string = s.
Proof. reflexivity. Qed.

Lemma append_String (c : ascii) (s1 s2 : string) :
  (String c s1 +:+ s2)%string = String c (s1 +:+ s2).
Proof. reflexivity. Qed.

Lemma free_of_app (a : ascii) (s1 s2 : string) :
  free_of a (s1 +:+ String a s2) -> False.
Proof.
  induction s1 as [|c s1 IH]; rewrite ?append_empty, ?append_String; simpl.
  - intros [Hne _]. by apply Hne.
  - intros [_ H]. by apply IH.
Qed.

Lemma digits_free_of_underscore (d : Decimal.uint) :
  free_of "_" (DecimalString.NilEmpty.string_of_uint d).
Proof. induction d; simpl; auto; split; auto; discriminate. Qed.

Lemma string_of_nat_free (n : nat) : free_of "_" (string_of_nat n).
Proof.
  unfold string_of_nat, DecimalString.NilZero.string_of_uint.
  destruct (Nat.to_uint n) eqn:Hd;
    rewrite <- ?Hd; try apply digits_free_of_underscore.
  simpl. split; [discriminate | exact I].
Qed.

Lemma to_uint_not_Nil (n : nat) : Nat.to_uint n <> Decimal.Nil.
Proof.
  intros Hd. pose proof (DecimalNat.Unsigned.of_to n) as Hn.
  rewrite Hd in Hn. simpl in Hn. subst n. discriminate.
Qed.

Lemma string_of_nat_inj (n m : nat) :
  string_of_nat n = string_of_nat m -> n = m.
Proof.
  unfold string_of_nat. intros Heq.
  apply DecimalNat.Unsigned.to_uint_inj.
  pose proof (DecimalString.NilZero.usu _ (to_uint_not_Nil n)) as Hn.
  pose proof (DecimalString.NilZero.usu _ (to_uint_not_Nil m)) as Hm.
  rewrite Heq in Hn. congruence.
Qed.

(** A key, an underscore and a number can be read back from their
    concatenation. *)
Lemma key_number_inj (k1 k2 d1 d2 : string) :
  free_of "_" d1 -> free_of "_" d2 ->
  (k1 +:+ "_" +:+ d1 = k2 +:+ "_" +:+ d2)%string ->
  k1 = k2 /\ d1 = d2.
Proof.
  intros H1 H2. revert k2.
  induction k1 as [|c k1 IH]; intros [|c' k2];
    rewrite ?append_String, ?append_empty; intros Heq.
  - by injection Heq as ->.
  - injection Heq as <- ->. by apply free_of_app in H1.
  - injection Heq as -> <-. by apply free_of_app in H2.
  - injection Heq as -> Heq. destruct (IH _ Heq) as [-> ->]. done.
Qed.

Lemma allocate_length (fieldTypes : list (option string))
    (counters : gmap string nat) :
  length (allocate fieldTypes counters) = length fieldTypes.
Proof.
  revert counters. induction fieldTypes as [|t rest IH]; intros counters.
  - done.
  - simpl. unfold generateId. simpl. by rewrite IH.
Qed.

(** The [i]-th allocation, from any state of the counters. *)
Lemma allocate_lookup (fieldTypes : list (option string))
    (counters : gmap string nat) (i : nat) (t : option string) :
  fieldTypes !! i = Some t ->
  allocate fieldTypes counters !! i
  = Some (key_of t +:+ "_"
          +:+ string_of_nat (default 0%nat (counters !! key_of t)
                             + earlier fieldTypes i (key_of t)))%string.
Proof.
  revert counters i.
  induction fieldTypes as [|t0 rest IH]; intros counters i Hi.
  - by rewrite lookup_nil in Hi.
  - cbn [allocate]. unfold generateId. cbn [truthy andb].
    destruct i as [|i]; cbn [lookup list_lookup] in *.
    + injection Hi as ->. unfold earlier. simpl. by rewrite Nat.add_0_r.
    + rewrite (IH _ _ Hi). unfold earlier. cbn [take].
      rewrite filter_cons.
      destruct (decide (key_of t0 = key_of t)) as [->|Hne].
      * rewrite lookup_insert_eq. simpl. by rewrite Nat.add_succ_r.
      * rewrite lookup_insert_ne by done. done.
Qed.

(** The key under which the code counts is the type key. *)
Lemma key_of_type_key (fieldType : option string) :
  key_of fieldType = type_key fieldType.
Proof. by destruct fieldType as [[|c s]|]. Qed.

Lemma earlier_counter_at (fieldTypes : list (option string)) (i : nat)
    (k : string) :
  earlier fieldTypes i k = counter_at fieldTypes i k.
Proof.
  unfold earlier, counter_at. f_equal. apply list_filter_iff.
  intros t. by rewrite key_of_type_key.
Qed.

(** C8.  After [reset], the standalone allocations of a pass yield, for
    each element, its type key (the detected type, "item" without
    one), an underscore and the value of the counter of that type key,
    which starts at 0 and goes up by one with every allocation for the
    type key; no two of the keys emitted in the pass are the same. *)
Theorem standalone_keys_distinct (fieldTypes : list (option string)) :
  length (pass fieldTypes) = length fieldTypes
  /\ (forall i t, fieldTypes !! i = Some t ->
        pass fieldTypes !! i
        = Some (type_key t +:+ "_"
                +:+ string_of_nat (counter_at fieldTypes i (type_key t)))%string)
  /\ NoDup (pass fieldTypes).
Proof.
  assert (Hlookup : forall i t, fieldTypes !! i = Some t ->
            pass fieldTypes !! i
            = Some (type_key t +:+ "_"
                +:+ string_of_nat (counter_at fieldTypes i (type_key t)))%string).
  { intros i t Hi. unfold pass, reset.
    rewrite (allocate_lookup _ _ _ _ Hi), lookup_empty.
    by rewrite key_of_type_key, earlier_counter_at. }
  split; [apply allocate_length|]. split; [exact Hlookup|].
  assert (Hlt : forall i j ti tj, (i < j)%nat ->
            fieldTypes !! i = Some ti -> fieldTypes !! j = Some tj ->
            pass fieldTypes !! i <> pass fieldTypes !! j).
  { intros i j ti tj Hij Hi Hj.
    rewrite (Hlookup _ _ Hi), (Hlookup _ _ Hj). intros [= Heq].
    apply key_number_inj in Heq as [Hk Hn];
      try apply string_of_nat_free.
    apply string_of_nat_inj in Hn.
    unfold counter_at in Hn. rewrite <- Hk in Hn.
    rewrite <- (take_drop i (take j fieldTypes)) in Hn.
    rewrite take_take, Nat.min_l in Hn by lia.
    rewrite filter_app, length_app in Hn.
    assert (Hd : drop i (take j fieldTypes) !! 0%nat = Some ti).
    { rewrite lookup_drop, Nat.add_0_r, lookup_take_lt by lia. done. }
    destruct (drop i (take j fieldTypes)) as [|t' rest]; [done|].
    injection Hd as ->.
    rewrite filter_cons_True in Hn by done. simpl in Hn. lia. }
  apply NoDup_alt. intros i j s Hi Hj.
  assert (Hi' : is_Some (fieldTypes !! i)).
  { apply lookup_lt_is_Some. rewrite <- (allocate_length _ reset).
    by eapply lookup_lt_Some. }
  assert (Hj' : is_Some (fieldTypes !! j)).
  { apply lookup_lt_is_Some. rewrite <- (allocate_length _ reset).
    by eapply lookup_lt_Some. }
  destruct Hi' as [ti Hti], Hj' as [tj Htj].
  destruct (Nat.lt_trichotomy i j) as [Hlt'|[->|Hgt]]; [|done|].
  - exfalso. apply (Hlt _ _ _ _ Hlt' Hti Htj). congruence.
  - exfalso. apply (Hlt _ _ _ _ Hgt Htj Hti). congruence.
Qed.

(** Three text elements and an image between them. *)
Lemma standalone_keys_example :
  pass [Some "text"; Some "text"; Some "image"; Some "text"; None]%string
  = ["text_0"; "text_1"; "image_0"; "text_2"; "item_0"]%string.
Proof. vm_compute. reflexivity. Qed.

End VariableNamer_facts.

(** ** IdGenerator *)

Section IdGenerator_facts.
Import JS IdGenerator IdSpec.

Lemma ToInt32_eq (z : Z) : exists k, ToInt32 z = z + k * 2 ^ 32.
Proof.
  unfold ToInt32. pose proof (Z.div_mod z (2 ^ 32)) as Hdiv.
  destruct (z mod 2 ^ 32 <? 2 ^ 31).
  - exists (- (z / 2 ^ 32)). lia.
  - exists (- (z / 2 ^ 32) - 1). lia.
Qed.

Lemma ToInt32_small (z : Z) : 0 <= z < 2 ^ 31 -> ToInt32 z = z.
Proof.
  intros Hz. unfold ToInt32. rewrite Z.mod_small by lia.
  destruct (z <? 2 ^ 31) eqn:Hlt; [done|]. apply Z.ltb_ge in Hlt. lia.
Qed.

(** The bit operations of one turn of the loop compute
    [(hash * 33 + c) mod 2^31]. *)
Lemma hash_step_spec (hash c : Z) :
  hash_step hash c = Z.land (hash * 33 + c) (2 ^ 31 - 1).
Proof.
  unfold hash_step, band, shl.
  rewrite (ToInt32_small 2147483647) by lia.
  change 2147483647 with (Z.ones 31). change (2 ^ 31 - 1) with (Z.ones 31).
  rewrite !Z.land_ones by lia.
  rewrite ToInt32_small by (apply Z.mod_pos_bound; lia).
  rewrite Z.shiftl_mul_pow2 by lia.
  destruct (ToInt32_eq hash) as [k1 ->].
  destruct (ToInt32_eq ((hash + k1 * 2 ^ 32) * 2 ^ 5)) as [k2 ->].
  destruct (ToInt32_eq ((hash + k1 * 2 ^ 32) * 2 ^ 5 + k2 * 2 ^ 32
                        + hash + c)) as [k3 ->].
  replace ((hash + k1 * 2 ^ 32) * 2 ^ 5 + k2 * 2 ^ 32 + hash + c
           + k3 * 2 ^ 32)
    with (hash * 33 + c + (64 * k1 + 2 * k2 + 2 * k3) * 2 ^ 31) by lia.
  apply Z_mod_plus_full.
Qed.

Lemma fold_hash_step (key : jsstring) (seed : Z) :
  fold_left hash_step key seed
  = fold_left (fun hash c => Z.land (hash * 33 + c) (2 ^ 31 - 1)) key seed.
Proof.
  revert seed. induction key as [|c key IH]; intros seed; simpl; [done|].
  by rewrite IH, hash_step_spec.
Qed.

Lemma djb2_range (key : jsstring) (seed : Z) :
  0 <= seed < 2 ^ 31 ->
  0 <= fold_left (fun hash c => Z.land (hash * 33 + c) (2 ^ 31 - 1)) key seed
    < 2 ^ 31.
Proof.
  revert seed. induction key as [|c key IH]; intros seed Hseed; simpl.
  - exact Hseed.
  - apply IH. change (2 ^ 31 - 1) with (Z.ones 31).
    rewrite Z.land_ones by lia. apply Z.mod_pos_bound. lia.
Qed.

Lemma hash_key_same (item1 item2 : Item) (ctx1 ctx2 : Context) :
  same_identity item1 ctx1 item2 ctx2 ->
  hash_key item1 ctx1 = hash_key item2 ctx2.
Proof.
  intros (Ht & Hx & Hy & Hw & Hh & Hl & Hp & Hc).
  unfold hash_key. rewrite Ht, Hx, Hy, Hw, Hh, Hl, Hp.
  do 11 f_equal.
  destruct (String.eqb (typename item2) "TextFrame") eqn:Htext; [|done].
  apply String.eqb_eq in Htext. rewrite <- Ht in Htext.
  specialize (Hc Htext).
  destruct (contents item1) as [|c1 s1], (contents item2) as [|c2 s2];
    simpl in *; try done.
  by rewrite Hc.
Qed.

(** The string that the code builds is the key of the design
    document. *)
Lemma hash_key_identity_key (item : Item) (ctx : Context) :
  hash_key item ctx = identity_key item ctx.
Proof.
  unfold hash_key, identity_key, key_parts.
  destruct (decide (typename item = "TextFrame"%string
                    /\ contents item <> [])) as [[Ht Hc]|Hno].
  - rewrite Ht. destruct (contents item) as [|c0 cs] eqn:Hcs; [done|].
    cbn [String.eqb Ascii.eqb Bool.eqb length Nat.eqb negb andb].
    cbn [join app]. by rewrite <- !app_assoc.
  - replace (String.eqb (typename item) "TextFrame"
             && negb (Nat.eqb (length (contents item)) 0)) with false.
    + cbn [join app]. by rewrite <- !app_assoc, !app_nil_r.
    + symmetry. apply not_true_iff_false. intros H.
      apply andb_true_iff in H as [Ht Hc]. apply Hno. split.
      * by apply String.eqb_eq.
      * intros Hnil. by rewrite Hnil in Hc.
Qed.

(** C6.  The id of the content-hash mode is the lower-cased kind, an
    underscore and the hexadecimal rendering of the DJB2 hash (seed
    5381, times 33 plus the character, masked to 31 bits) of the key,
    and the key is made of the kind, the rounded position, the rounded
    size, the layer index, the structural path and, for text, the
    first 20 characters of the content.  Items that agree on these get
    the same id, so a second run on an unchanged element repeats the
    first. *)
Theorem generateStableId_djb2 (item1 item2 : Item) (ctx1 ctx2 : Context) :
  generateStableId item1 ctx1
  = (toLowerCase (kind item1) +:+ "_"
     +:+ toString16 (djb2 (identity_key item1 ctx1)))%string
  /\ 0 <= djb2 (identity_key item1 ctx1) < 2 ^ 31
  /\ (same_identity item1 ctx1 item2 ctx2 ->
      identity_key item1 ctx1 = identity_key item2 ctx2
      /\ generateStableId item1 ctx1 = generateStableId item2 ctx2).
Proof.
  split; [|split].
  - unfold generateStableId, hashContent, djb2, kind.
    by rewrite fold_hash_step, hash_key_identity_key.
  - apply djb2_range. lia.
  - intros Hsame. split.
    + rewrite <- !hash_key_identity_key. by apply hash_key_same.
    + unfold generateStableId, hashContent.
      rewrite (hash_key_same _ _ _ _ Hsame).
      destruct Hsame as (-> & _). done.
Qed.

(** C6 at a concrete input: the nudged caption keeps its id. *)
Lemma generateStableId_djb2_witness :
  generateStableId caption caption_ctx
  = generateStableId caption_nudged caption_ctx.
Proof.
  apply (generateStableId_djb2 caption caption_nudged caption_ctx caption_ctx).
  unfold same_identity.
  do 7 (split; [vm_compute; reflexivity|]).
  intros _. vm_compute. reflexivity.
Defined.

(** The key of the caption, written out. *)
Lemma identity_key_example :
  identity_key caption caption_ctx
  = lit "TextFrame|10,-20|100x3|0|0/1|2024 annual partner ".
Proof. vm_compute. reflexivity. Qed.

Lemma generateStableId_example :
  generateStableId caption caption_ctx = "textframe_6727a03c"%string.
Proof. vm_compute. reflexivity. Qed.

End IdGenerator_facts.

(** ** Array.prototype.sort *)

Section Array_sort_facts.
Import JS.
Context {A : Type} (cmp : A -> A -> Q).

Lemma sort_insert_perm (a : A) (l : list A) :
  Permutation (sort_insert cmp a l) (a :: l).
Proof.
  induction l as [|b l IH]; simpl; [done|].
  destruct (gt (cmp a b) 0); [|done].
  rewrite IH. apply perm_swap.
Qed.

Lemma Array_sort_perm (l : list A) : Permutation (Array_sort cmp l) l.
Proof.
  induction l as [|a l IH]; simpl; [done|].
  unfold Array_sort in *. simpl. rewrite sort_insert_perm. by constructor.
Qed.

Lemma Array_sort_length (l : list A) :
  length (Array_sort cmp l) = length l.
Proof. apply Permutation_length, Array_sort_perm. Qed.

Lemma Array_sort_elem_of (a : A) (l : list A) :
  a ∈ Array_sort cmp l <-> a ∈ l.
Proof. by rewrite Array_sort_perm. Qed.

(** On elements that the comparison orders consistently the result is
    in order: no element is followed by one that compares below it. *)
Section Ordered.
Context (P : A -> Prop).
Hypothesis cmp_total : forall a b, P a -> P b ->
  (0 < cmp a b)%Q -> (cmp b a <= 0)%Q.
Hypothesis cmp_trans : forall a b c, P a -> P b -> P c ->
  (cmp a b <= 0)%Q -> (cmp b c <= 0)%Q -> (cmp a c <= 0)%Q.

Lemma sort_insert_sorted (a : A) (l : list A) :
  P a -> Forall P l ->
  StronglySorted (fun a b => (cmp a b <= 0)%Q) l ->
  StronglySorted (fun a b => (cmp a b <= 0)%Q) (sort_insert cmp a l).
Proof.
  intros Ha HP Hs. induction Hs as [|b l Hs IH Hb]; simpl.
  - repeat constructor.
  - apply Forall_cons in HP as [HPb HPl].
    destruct (gt (cmp a b) 0) eqn:Hgt.
    + apply gt_spec in Hgt. constructor; [by apply IH|].
      rewrite sort_insert_perm. constructor; [by apply cmp_total|done].
    + apply gt_false in Hgt. constructor; [by constructor|].
      constructor; [done|].
      rewrite Forall_forall in Hb, HPl. apply Forall_forall.
      intros c Hc. apply (cmp_trans a b c); auto.
Qed.

Lemma Array_sort_sorted (l : list A) :
  Forall P l ->
  StronglySorted (fun a b => (cmp a b <= 0)%Q) (Array_sort cmp l).
Proof.
  induction l as [|a l IH]; intros HP; unfold Array_sort in *; simpl.
  - constructor.
  - apply Forall_cons in HP as [Ha HP].
    apply sort_insert_sorted; [done| |by apply IH].
    change (foldr (sort_insert cmp) [] l) with (Array_sort cmp l).
    by rewrite Array_sort_perm.
Qed.

End Ordered.
End Array_sort_facts.

(** ** Regular expressions: the matcher computes the matches *)

Section Regex_facts.
Import JS Regex.

Lemma Matches_Void (s : jsstring) : ~ Matches Void s.
Proof. intros H. inversion H; subst. discriminate. Qed.

Lemma Matches_Seq_inv (r1 r2 : regex) (s : jsstring) :
  Matches (Seq r1 r2) s ->
  exists s1 s2, s = s1 ++ s2 /\ Matches r1 s1 /\ Matches r2 s2.
Proof. intros H. inversion H; subst. eauto. Qed.

Lemma Matches_Alt_inv (r1 r2 : regex) (s : jsstring) :
  Matches (Alt r1 r2) s -> Matches r1 s \/ Matches r2 s.
Proof. intros H. inversion H; subst; auto. Qed.

Lemma nullable_spec (r : regex) : nullable r = true <-> Matches r [].
Proof.
  induction r as [|ranges|r1 IH1 r2 IH2|r1 IH1 r2 IH2|r IH]; simpl.
  - split; [constructor|done].
  - split; [done|]. intros H. inversion H.
  - rewrite andb_true_iff, IH1, IH2. split.
    + intros [H1 H2]. change (@nil Z) with (@nil Z ++ []). by constructor.
    + intros (s1 & s2 & Hs & H1 & H2)%Matches_Seq_inv.
      symmetry in Hs. apply app_eq_nil in Hs as [-> ->]. done.
  - rewrite orb_true_iff, IH1, IH2. split.
    + intros [H|H]; [by apply MAltL | by apply MAltR].
    + apply Matches_Alt_inv.
  - split; [constructor|done].
Qed.

Lemma Matches_Star_cons (r : regex) (c : Z) (s : jsstring) :
  Matches (Star r) (c :: s) ->
  exists s1 s2, s = s1 ++ s2 /\ Matches r (c :: s1) /\ Matches (Star r) s2.
Proof.
  intros H. remember (Star r) as r' eqn:Hr. remember (c :: s) as s' eqn:Hs.
  revert s Hs.
  induction H as [| | | | | |r0 s1 s2 H1 _ H2 IH2]; intros tl Htl;
    try discriminate.
  injection Hr as ->.
  destruct s1 as [|c' s1]; simpl in Htl.
  - by apply IH2.
  - injection Htl as -> <-. eauto.
Qed.

Lemma deriv_spec (c : Z) (r : regex) (s : jsstring) :
  Matches (deriv c r) s <-> Matches r (c :: s).
Proof.
  revert s.
  induction r as [|ranges|r1 IH1 r2 IH2|r1 IH1 r2 IH2|r IH]; intros s; simpl.
  - split; [by intros ?%Matches_Void|]. intros H. inversion H.
  - destruct (in_ranges c ranges) eqn:Hc; split.
    + intros H. inversion H; subst. by constructor.
    + intros H. inversion H; subst. constructor.
    + by intros ?%Matches_Void.
    + intros H. inversion H; subst. congruence.
  - assert (Hseq : Matches (Seq (deriv c r1) r2) s
                   <-> exists s1 s2, s = s1 ++ s2 /\ Matches r1 (c :: s1)
                                     /\ Matches r2 s2).
    { split.
      - intros (s1 & s2 & -> & H1 & H2)%Matches_Seq_inv.
        exists s1, s2. by rewrite <- IH1.
      - intros (s1 & s2 & -> & H1 & H2). constructor; [by apply IH1|done]. }
    assert (Hcons : Matches (Seq r1 r2) (c :: s)
                    <-> (Matches r1 [] /\ Matches r2 (c :: s))
                        \/ exists s1 s2, s = s1 ++ s2 /\ Matches r1 (c :: s1)
                                         /\ Matches r2 s2).
    { split.
      - intros (s1 & s2 & Hs & H1 & H2)%Matches_Seq_inv.
        destruct s1 as [|c' s1]; simpl in Hs.
        + subst s2. by left.
        + injection Hs as <- ->. right. eauto.
      - intros [[H1 H2]|(s1 & s2 & -> & H1 & H2)].
        + change (c :: s) with ([] ++ c :: s). by constructor.
        + change (c :: s1 ++ s2) with ((c :: s1) ++ s2). by constructor. }
    rewrite Hcons, <- Hseq, <- nullable_spec.
    destruct (nullable r1).
    + split.
      * intros [H|H]%Matches_Alt_inv; [by right|]. left. by rewrite <- IH2.
      * intros [[_ H]|H]; [apply MAltR; by apply IH2 | by apply MAltL].
    + split; [by right|]. by intros [[? _]|?].
  - split.
    + intros [H|H]%Matches_Alt_inv;
        [apply MAltL; by apply IH1 | apply MAltR; by apply IH2].
    + intros [H|H]%Matches_Alt_inv;
        [apply MAltL; by apply IH1 | apply MAltR; by apply IH2].
  - split.
    + intros (s1 & s2 & -> & H1 & H2)%Matches_Seq_inv.
      change (c :: s1 ++ s2) with ((c :: s1) ++ s2).
      constructor; [by apply IH|done].
    + intros (s1 & s2 & -> & H1 & H2)%Matches_Star_cons.
      constructor; [by apply IH|done].
Qed.

(** [match_here]: some prefix of the string is matched. *)
Lemma match_here_spec (r : regex) (s : jsstring) :
  match_here r s = true
  <-> exists m rest, s = m ++ rest /\ Matches r m.
Proof.
  revert r. induction s as [|c s IH]; intros r; simpl.
  - rewrite orb_false_r, nullable_spec. split.
    + intros H. by exists [], [].
    + intros (m & rest & Hs & H). symmetry in Hs.
      apply app_eq_nil in Hs as [-> _]. done.
  - rewrite orb_true_iff, nullable_spec, IH. split.
    + intros [H|(m & rest & -> & H)].
      * by exists [], (c :: s).
      * exists (c :: m), rest. split; [done|]. by apply deriv_spec.
    + intros (m & rest & Hs & H). destruct m as [|c' m]; simpl in Hs.
      * by left.
      * injection Hs as <- ->. right. exists m, rest.
        split; [done|]. by apply deriv_spec.
Qed.

(** [test]: some substring of the string is matched. *)
Theorem test_spec (r : regex) (s : jsstring) :
  test r s = true
  <-> exists before m after, s = before ++ m ++ after /\ Matches r m.
Proof.
  induction s as [|c s IH]; cbn [test].
  - rewrite orb_false_r, match_here_spec. split.
    + intros (m & rest & Hs & H). by exists [], m, rest.
    + intros (before & m & after & Hs & H). symmetry in Hs.
      apply app_eq_nil in Hs as [-> Hs]. eauto.
  - rewrite orb_true_iff, match_here_spec, IH. split.
    + intros [(m & rest & Hs & H)|(before & m & after & -> & H)].
      * by exists [], m, rest.
      * by exists (c :: before), m, after.
    + intros (before & m & after & Hs & H).
      destruct before as [|c' before]; simpl in Hs.
      * left. eauto.
      * injection Hs as <- ->. right. eauto.
Qed.

Lemma Matches_min_len (r : regex) (m : jsstring) :
  Matches r m -> (min_len r <= length m)%nat.
Proof.
  induction 1; simpl; rewrite ?length_app; lia.
Qed.

(** A pattern finds nothing in a string shorter than its shortest
    match. *)
Lemma test_too_short (r : regex) (s : jsstring) :
  (length s < min_len r)%nat -> test r s = false.
Proof.
  intros Hlen. apply not_true_iff_false.
  intros (before & m & after & -> & H%Matches_min_len)%test_spec.
  rewrite !length_app in Hlen. lia.
Qed.

Lemma Matches_Str (s m : jsstring) : Matches (Str s) m <-> m = s.
Proof.
  revert m. induction s as [|c s IH]; intros m; simpl.
  - split; [intros H; by inversion H | intros ->; constructor].
  - split.
    + intros (s1 & s2 & -> & H1 & H2)%Matches_Seq_inv.
      apply IH in H2 as ->. inversion H1; subst.
      unfold in_ranges in *. simpl in *.
      rewrite orb_false_r, andb_true_iff, Z.leb_le, Z.leb_le in *.
      f_equal. lia.
    + intros ->. change (c :: s) with ([c] ++ s).
      constructor; [|by apply IH]. constructor.
      unfold in_ranges. simpl. rewrite !Z.leb_refl. done.
Qed.

Lemma Matches_Words (ws : list string) (m : jsstring) :
  Matches (Words ws) m <-> exists w, w ∈ ws /\ m = lit w.
Proof.
  induction ws as [|w ws IH]; simpl.
  - split; [by intros ?%Matches_Void|]. by intros (w & []%elem_of_nil & _).
  - destruct ws as [|w' ws].
    + rewrite Matches_Str. split.
      * intros ->. exists w. split; [by left|done].
      * intros (w0 & Hw & ->). apply elem_of_cons in Hw as [->|[]%elem_of_nil].
        done.
    + split.
      * intros [H|H]%Matches_Alt_inv.
        -- apply Matches_Str in H as ->. exists w. split; [by left|done].
        -- apply IH in H as (w0 & Hw & ->). exists w0. split; [by right|done].
      * intros (w0 & Hw & ->). apply elem_of_cons in Hw as [->|Hw].
        -- apply MAltL. by apply Matches_Str.
        -- apply MAltR. apply IH. eauto.
Qed.

End Regex_facts.

(** ** MultiTagDetector *)

Section detectText_facts.
Import JS Regex MultiTagDetector DetectSpec.

Lemma elem_of_push_if (cond : bool) (tag t : Tag) (tags : list Tag) :
  t ∈ push_if cond tag tags <-> t ∈ tags \/ (cond = true /\ t = tag).
Proof.
  unfold push_if. destruct cond.
  - rewrite elem_of_app, list_elem_of_singleton. tauto.
  - split; [by left|]. by intros [?|[? _]].
Qed.

Lemma isChineseName_spec (str : jsstring) :
  isChineseName str = true <-> name_shaped str.
Proof.
  unfold isChineseName, name_shaped.
  destruct str as [|c str].
  - simpl. split; [done|]. intros [? _]. lia.
  - set (cleaned := remove_spaces (c :: str)).
    destruct (length cleaned <? 2)%nat eqn:H2; simpl.
    { apply Nat.ltb_lt in H2. split; [done|]. intros [? _]. lia. }
    destruct (4 <? length cleaned)%nat eqn:H4; simpl.
    { apply Nat.ltb_lt in H4. split; [done|]. intros [? _]. lia. }
    apply Nat.ltb_ge in H2, H4.
    rewrite forallb_forall, Forall_forall. split.
    + intros Hall. split; [lia|]. intros code Hcode.
      apply list_elem_of_In, Hall in Hcode.
      apply negb_true_iff, orb_false_iff in Hcode as [Hlo Hhi].
      apply Z.ltb_ge in Hlo, Hhi. unfold cjk. lia.
    + intros [_ Hall] code Hcode. apply list_elem_of_In, Hall in Hcode.
      unfold cjk in Hcode. apply negb_true_iff, orb_false_iff.
      rewrite !Z.ltb_ge. lia.
Qed.

(** The name tag is among the tags of the rules exactly when the name
    rule fires, and no other rule hands out a tag of type "name". *)
Lemma name_tag_in_rule_tags (trimmed : jsstring) (t : Tag) :
  t ∈ rule_tags trimmed ->
  type t = "name"%string -> t = name_tag /\ isChineseName trimmed = true.
Proof.
  unfold rule_tags. rewrite !elem_of_push_if, elem_of_nil.
  intros H Ht.
  repeat (destruct H as [H|[Hc ->]]; [|try discriminate Ht]); [done|].
  done.
Qed.

Lemma rule_tags_name (trimmed : jsstring) :
  isChineseName trimmed = true -> name_tag ∈ rule_tags trimmed.
Proof.
  intros H. unfold rule_tags. rewrite !elem_of_push_if. tauto.
Qed.

Lemma rule_tags_not_text (trimmed : jsstring) (t : Tag) :
  t ∈ rule_tags trimmed -> type t <> "text"%string.
Proof.
  unfold rule_tags. rewrite !elem_of_push_if, elem_of_nil.
  intros H.
  repeat (destruct H as [H|[Hc ->]]; [|discriminate]). done.
Qed.

Lemma detectText_tags (c : Z) (content : jsstring) :
  tags (detectText (Some (c :: content)))
  = Array_sort (fun a b => (confidence b - confidence a)%Q)
      (collect_tags (trim (c :: content))).
Proof. reflexivity. Qed.

Lemma detectText_primaryType (content : option jsstring) :
  primaryType (detectText content)
  = varType <$> head (tags (detectText content)).
Proof. by destruct content as [[|c content]|]. Qed.

Lemma elem_of_detectText_tags (c : Z) (content : jsstring) (t : Tag) :
  t ∈ tags (detectText (Some (c :: content)))
  <-> t ∈ collect_tags (trim (c :: content)).
Proof. rewrite detectText_tags. apply Array_sort_elem_of. Qed.

(** C4, as the detector has it.  A non-empty text gets the name tag,
    with confidence 0.85, exactly when its trimmed content, with all
    white space taken out, has two to four characters, each in the
    range U+4E00 to U+9FA5; no keyword is looked up. *)
Theorem name_tag_iff_name_shaped (content : jsstring) :
  content <> [] ->
  (name_tag ∈ tags (detectText (Some content))
   <-> name_shaped (trim content))
  /\ (forall t, t ∈ tags (detectText (Some content)) ->
        type t = "name"%string ->
        t = name_tag /\ confidence t = 0.85%Q).
Proof.
  destruct content as [|c content]; [done|]. intros _.
  split.
  - rewrite elem_of_detectText_tags, <- isChineseName_spec.
    unfold collect_tags. rewrite elem_of_push_if. split.
    + intros [H|[_ [=]]]. by apply (name_tag_in_rule_tags _ _ H).
    + intros H. left. by apply rule_tags_name.
  - intros t Ht Htype. apply elem_of_detectText_tags in Ht.
    unfold collect_tags in Ht. apply elem_of_push_if in Ht as [Ht|[_ ->]].
    + destruct (name_tag_in_rule_tags _ _ Ht Htype) as [-> _]. done.
    + discriminate Htype.
Qed.

(** Scenario B: "张三" gets the name tag, and only that. *)
Lemma name_tag_iff_name_shaped_witness :
  name_tag ∈ tags (detectText (Some (lit "张三"))).
Proof.
  apply (name_tag_iff_name_shaped (lit "张三")).
  - vm_compute. discriminate.
  - unfold name_shaped. split.
    + vm_compute. lia.
    + vm_compute. repeat constructor; discriminate.
Defined.

Lemma scenario_B :
  tags (detectText (Some (lit "张三"))) = [name_tag]
  /\ primaryType (detectText (Some (lit "张三"))) = Some PERSON_NAME.
Proof. vm_compute. auto. Qed.

(** C4 as stated fails: "团队" is one of the exclusion keywords of the
    design document, and the detector tags it as a name with
    confidence 0.85. *)
Lemma excluded_word_gets_name_tag :
  excluded (lit "团队") = true
  /\ tags (detectText (Some (lit "团队"))) = [name_tag]
  /\ confidence name_tag = 0.85%Q.
Proof. vm_compute. auto. Qed.

Lemma remove_spaces_length (s : jsstring) :
  (length (remove_spaces s) <= length s)%nat.
Proof.
  unfold remove_spaces. induction s as [|c s IH]; simpl; [done|].
  destruct (negb (is_space c)); simpl; lia.
Qed.

(** The address pattern finds something in a string of one character
    only when that character is one of its one-character keywords. *)
Lemma address_single_character (ch : Z) :
  test re_address [ch] = true -> ch ∈ address_characters.
Proof.
  intros (before & m & after & Hs & Hm)%test_spec.
  apply Matches_Words in Hm as (w & Hw & ->).
  repeat (apply elem_of_cons in Hw as [->|Hw]);
    try (by apply elem_of_nil in Hw);
    vm_compute in Hs;
    destruct before as [|? [|? ?]]; try discriminate Hs;
    injection Hs as ->; vm_compute;
    repeat (first [by apply list_elem_of_here | apply list_elem_of_further]).
Qed.

(** On a string of at most one character no rule but the address rule
    can fire. *)
Lemma rule_tags_short (trimmed : jsstring) :
  (length trimmed <= 1)%nat ->
  rule_tags trimmed = push_if (test re_address trimmed) address_tag [].
Proof.
  intros Hlen. unfold rule_tags.
  rewrite (test_too_short re_date)
    by (replace (min_len re_date) with 8%nat by reflexivity; lia).
  rewrite (test_too_short re_time)
    by (replace (min_len re_time) with 4%nat by reflexivity; lia).
  rewrite (test_too_short re_phone)
    by (replace (min_len re_phone) with 11%nat by reflexivity; lia).
  rewrite (test_too_short re_email)
    by (replace (min_len re_email) with 5%nat by reflexivity; lia).
  rewrite (test_too_short re_price)
    by (replace (min_len re_price) with 2%nat by reflexivity; lia).
  rewrite (test_too_short re_percent)
    by (replace (min_len re_percent) with 2%nat by reflexivity; lia).
  rewrite (test_too_short re_title)
    by (replace (min_len re_title) with 2%nat by reflexivity; lia).
  rewrite (test_too_short re_wechat)
    by (replace (min_len re_wechat) with 3%nat by reflexivity; lia).
  assert (Hname : isChineseName trimmed = false).
  { unfold isChineseName. destruct trimmed as [|c s]; [done|].
    pose proof (remove_spaces_length (c :: s)) as Hr.
    destruct (length (remove_spaces (c :: s)) <? 2)%nat eqn:H2; [done|].
    apply Nat.ltb_ge in H2. lia. }
  assert (Hevent : isEventTitle trimmed = false).
  { unfold isEventTitle.
    destruct (length trimmed <? 4)%nat eqn:H4; [done|].
    apply Nat.ltb_ge in H4. lia. }
  assert (Hslogan : isSlogan trimmed = false).
  { unfold isSlogan.
    destruct (length trimmed <? 4)%nat eqn:H4; [done|].
    apply Nat.ltb_ge in H4. lia. }
  rewrite Hname, Hevent, Hslogan. reflexivity.
Qed.

(** Text that is absent, blank or short gets no tag. *)
Lemma detectText_short (content : option jsstring) :
  (forall c, content = Some c -> short_text c) ->
  tags (detectText content) = []
  /\ primaryType (detectText content) = None.
Proof.
  destruct content as [[|c0 content]|]; [done| |done].
  intros Hshort. destruct (Hshort _ eq_refl) as [Hlen Hch].
  rewrite detectText_primaryType, detectText_tags.
  unfold collect_tags. rewrite (rule_tags_short _ Hlen).
  assert (Haddr : test re_address (trim (c0 :: content)) = false).
  { destruct (trim (c0 :: content)) as [|ch [|? ?]] eqn:Ht;
      [done| |simpl in Hlen; lia].
    apply not_true_iff_false. intros Htest.
    by apply (Hch ch eq_refl), address_single_character. }
  rewrite Haddr. simpl.
  destruct (length (trim (c0 :: content))) as [|[|n]] eqn:Hn;
    [done|done|lia].
Qed.

(** A single address keyword gets the address tag and no other. *)
Lemma detectText_address_character (c : jsstring) (ch : Z) :
  trim c = [ch] -> ch ∈ address_characters ->
  tags (detectText (Some c)) = [address_tag]
  /\ primaryType (detectText (Some c)) = Some ADDRESS.
Proof.
  intros Htrim Hch. destruct c as [|c0 c]; [discriminate Htrim|].
  rewrite detectText_primaryType, detectText_tags, Htrim.
  vm_compute in Hch.
  repeat (apply elem_of_cons in Hch as [->|Hch]; [by vm_compute|]).
  by apply elem_of_nil in Hch.
Qed.

(** The generic tag is the only tag when it is given, and it is given
    only to text of two characters or more on which no rule fired. *)
Lemma detectText_generic (content : option jsstring) (t : Tag) :
  t ∈ tags (detectText content) -> type t = "text"%string ->
  exists c, content = Some c
    /\ rule_tags (trim c) = []
    /\ (2 <= length (trim c))%nat
    /\ tags (detectText content) = [t]
    /\ confidence t = if (50 <? length (trim c))%nat then 0.4%Q else 0.5%Q.
Proof.
  destruct content as [[|c0 content]|];
    [intros Ht; by apply elem_of_nil in Ht| |
     intros Ht; by apply elem_of_nil in Ht].
  intros Ht Htype. exists (c0 :: content). split; [done|].
  pose proof Ht as Hin. apply elem_of_detectText_tags in Hin.
  rewrite detectText_tags. unfold collect_tags in *.
  apply elem_of_push_if in Hin as [Hin|[Hcond ->]].
  { by apply rule_tags_not_text in Hin. }
  apply andb_true_iff in Hcond as [Hnone Hlen].
  apply Nat.eqb_eq, nil_length_inv in Hnone.
  rewrite Hnone. split; [done|]. split; [by apply Nat.leb_le|].
  cbn [length Nat.eqb andb]. rewrite Hlen. done.
Qed.

End detectText_facts.

(** ** Text classification within variable detection *)

Section detectText_in_processElements.
Import JS Regex MultiTagDetector DetectSpec VariableDetectorV2 VariablesSpec.

Lemma step_same_findings (st st' : Progress) (elem : Element) :
  same_findings st st' -> same_findings (step st elem) (step st' elem).
Proof.
  destruct st as [s v m c], st' as [s' v' m' c'].
  intros (Hv & Hm & Hc). cbn [variables variableMap counters] in Hv, Hm, Hc.
  subst v' m' c'. unfold step, same_findings.
  cbn [seen variables variableMap counters].
  destruct (preset elem) as [pv|].
  - destruct (String.eqb (variableKey pv) "");
      [destruct (VariableNamer.generateId _ _ _ c)|]; done.
  - destruct (detect elem) as [[[primary types] conf]|]; [|done].
    destruct (VariableNamer.generateId _ _ _ c); done.
Qed.

Lemma fold_step_same_findings (elements : list Element) (st st' : Progress) :
  same_findings st st' ->
  same_findings (fold_left step elements st) (fold_left step elements st').
Proof.
  revert st st'. induction elements as [|e rest IH]; intros st st' H; [done|].
  cbn [fold_left]. by apply IH, step_same_findings.
Qed.

(** An element that brings no variable and for which nothing is
    detected leaves the findings as they are. *)
Lemma step_skips (st : Progress) (elem : Element) :
  preset elem = None -> detect elem = None ->
  same_findings (step st elem) st.
Proof. intros Hp Hd. unfold step. by rewrite Hp, Hd. Qed.

Lemma processElements_skips (elem : Element) (before after : list Element) :
  preset elem = None -> detect elem = None ->
  same_report (processElements (before ++ elem :: after))
    (processElements (before ++ after)).
Proof.
  intros Hp Hd. unfold processElements, same_report.
  cbn [result_variables result_variableMap totalVariables byType].
  rewrite !fold_left_app. cbn [fold_left].
  destruct (fold_step_same_findings after _ _
              (step_skips (fold_left step before
                             {| seen := []; variables := [];
                                variableMap := ∅;
                                counters := VariableNamer.reset |})
                 elem Hp Hd))
    as (Hv & Hm & _).
  by rewrite Hv, Hm.
Qed.

(** Nothing is detected for a text element whose text gets no primary
    type. *)
Lemma detect_text_None (elem : Element) :
  VariableDetectorV2.type elem = "text"%string ->
  primaryType (detectText (Some (content elem))) = None ->
  detect elem = None.
Proof.
  intros Htype Hnone. unfold detect. rewrite Htype.
  destruct (content elem) as [|c0 cs] eqn:Hc; [done|].
  cbn [String.eqb Ascii.eqb Bool.eqb andb]. by rewrite Hnone.
Qed.

(** C9, as the detector has it.  Text that is absent, empty or blank,
    or whose trimmed content is one character other than the address
    keywords of one character (省 市 区 县 路 号 楼 室), gets no tag
    and no primary type, and a text element with such content that
    brings no variable of its own is left out of variable detection:
    [processElements] reports the variables, the variable map and the
    counts that it reports without the element.  A text whose trimmed
    content is one of these keywords gets the address tag, with
    confidence 0.75, and no other.  The generic tag is given only when
    no rule fired and the trimmed content has at least two characters;
    it is then the only tag, with confidence 0.5, or 0.4 beyond 50
    characters. *)
Theorem detectText_short_or_generic (text : option jsstring) :
  ((forall c, text = Some c -> short_text c) ->
   tags (detectText text) = []
   /\ primaryType (detectText text) = None
   /\ forall (elem : Element) (before after : list Element),
        VariableDetectorV2.type elem = "text"%string ->
        content elem = default [] text ->
        preset elem = None ->
        same_report (processElements (before ++ elem :: after))
          (processElements (before ++ after)))
  /\ (forall c ch, text = Some c -> trim c = [ch] ->
        ch ∈ address_characters ->
        tags (detectText text) = [address_tag]
        /\ primaryType (detectText text) = Some ADDRESS)
  /\ (forall t, t ∈ tags (detectText text) ->
        MultiTagDetector.type t = "text"%string ->
        exists c, text = Some c
          /\ rule_tags (trim c) = []
          /\ (2 <= length (trim c))%nat
          /\ tags (detectText text) = [t]
          /\ confidence t
             = if (50 <? length (trim c))%nat then 0.4%Q else 0.5%Q).
Proof.
  split; [|split].
  - intros Hshort. destruct (detectText_short text Hshort) as [Htags Hprim].
    split; [done|]. split; [done|].
    intros elem before after Htype Hcontent Hpreset.
    apply processElements_skips; [done|].
    apply detect_text_None; [done|]. rewrite Hcontent.
    destruct text as [c|]; [done|done].
  - intros c ch -> Htrim Hch. by apply (detectText_address_character c ch).
  - apply detectText_generic.
Qed.

(** C9 at a concrete input: a single letter gets no tag, and the text
    element that holds it is no variable. *)
Lemma detectText_short_or_generic_witness :
  tags (detectText (Some (lit " x "))) = []
  /\ primaryType (detectText (Some (lit " x "))) = None
  /\ result_variables
       (processElements [plain_element "text_1" "text" (lit " x ")]) = [].
Proof.
  assert (Hshort : forall c, Some (lit " x ") = Some c -> short_text c).
  { intros c [= <-]. split.
    - vm_compute. lia.
    - intros ch Hch. vm_compute in Hch. injection Hch as <-.
      vm_compute. intros H.
      repeat (apply elem_of_cons in H as [H|H]; [discriminate H|]).
      by apply elem_of_nil in H. }
  destruct (proj1 (detectText_short_or_generic (Some (lit " x "))) Hshort)
    as (Htags & Hprim & Hout).
  split; [exact Htags|]. split; [exact Hprim|].
  exact (proj1 (Hout (plain_element "text_1" "text" (lit " x ")) [] []
                  eq_refl eq_refl eq_refl)).
Defined.

(** C9 as stated fails: the trimmed content "市" has length one, and
    the detector tags it as an address; the text element that holds
    it becomes a variable of type address. *)
Lemma single_character_gets_address_tag :
  length (trim (lit "市")) = 1%nat
  /\ tags (detectText (Some (lit "市"))) = [address_tag]
  /\ primaryType (detectText (Some (lit "市"))) = Some ADDRESS
  /\ map (fun v => (elementId v, variableType v))
       (result_variables
          (processElements [plain_element "text_1" "text" (lit "市")]))
     = [("text_1", "address")]%string.
Proof.
  split; [vm_compute; reflexivity|]. split; [vm_compute; reflexivity|].
  split; [vm_compute; reflexivity|]. vm_compute. reflexivity.
Qed.

End detectText_in_processElements.

(** ** PatternMatcher: repeat groups *)

Section detectRepeatablePatterns_facts.
Import JS PatternMatcher RepeatSpec.

(** *** Grouping by pattern id *)

Lemma stored_push (byType : list (string * list nat)) (t t' : string)
    (r : nat) :
  stored (byType_push byType t' r) t
  = if String.eqb t' t then stored byType t ++ [r] else stored byType t.
Proof.
  induction byType as [|[t0 refs] rest IH]; simpl.
  - by destruct (String.eqb t' t).
  - destruct (String.eqb t0 t') eqn:H0; simpl.
    + apply String.eqb_eq in H0 as ->.
      by destruct (String.eqb t' t).
    + destruct (String.eqb t0 t) eqn:H1; [|done].
      apply String.eqb_eq in H1 as ->.
      rewrite String.eqb_sym in H0. by rewrite H0.
Qed.

Lemma stored_group_by_type (patterns : list PatternMatch) (i : nat)
    (byType : list (string * list nat)) (t : string) :
  stored (group_by_type patterns i byType) t
  = stored byType t ++ refs_from patterns i t.
Proof.
  revert i byType.
  induction patterns as [|p rest IH]; intros i byType; simpl.
  - by rewrite app_nil_r.
  - rewrite IH, stored_push.
    destruct (String.eqb (patternId p) t); [|done].
    by rewrite <- app_assoc.
Qed.

Lemma keys_push (byType : list (string * list nat)) (t : string) (r : nat) :
  map fst (byType_push byType t r)
  = if decide (t ∈ map fst byType) then map fst byType
    else map fst byType ++ [t].
Proof.
  induction byType as [|[t0 refs] rest IH]; cbn [byType_push map fst].
  - rewrite decide_False by apply not_elem_of_nil. done.
  - destruct (String.eqb t0 t) eqn:H0; cbn [map fst].
    + apply String.eqb_eq in H0 as ->.
      rewrite decide_True by (by left). done.
    + apply String.eqb_neq in H0. rewrite IH.
      destruct (decide (t ∈ map fst rest)) as [Hin|Hnin].
      * rewrite decide_True by (by right). done.
      * rewrite decide_False; [done|].
        intros [->|?]%elem_of_cons; done.
Qed.

Lemma keys_NoDup_push (byType : list (string * list nat)) (t : string)
    (r : nat) :
  NoDup (map fst byType) -> NoDup (map fst (byType_push byType t r)).
Proof.
  intros Hnd. rewrite keys_push. case_decide; [done|].
  apply NoDup_app. split; [done|]. split.
  - intros k Hk ->%list_elem_of_singleton. done.
  - apply NoDup_singleton.
Qed.

Lemma keys_NoDup_group (patterns : list PatternMatch) (i : nat)
    (byType : list (string * list nat)) :
  NoDup (map fst byType) ->
  NoDup (map fst (group_by_type patterns i byType)).
Proof.
  revert i byType.
  induction patterns as [|p rest IH]; intros i byType Hnd; simpl; [done|].
  by apply IH, keys_NoDup_push.
Qed.

Lemma stored_entry (byType : list (string * list nat)) (t : string)
    (refs : list nat) :
  NoDup (map fst byType) -> (t, refs) ∈ byType -> stored byType t = refs.
Proof.
  induction byType as [|[t0 refs0] rest IH]; simpl; intros Hnd Hin.
  - by apply elem_of_nil in Hin.
  - apply NoDup_cons in Hnd as [Hnin Hnd].
    apply elem_of_cons in Hin as [[= <- <-]|Hin].
    + by rewrite String.eqb_refl.
    + destruct (String.eqb t0 t) eqn:H0; [|by apply IH].
      apply String.eqb_eq in H0 as ->. exfalso. apply Hnin.
      apply list_elem_of_fmap. by exists (t, refs).
Qed.

Lemma refs_from_spec (patterns : list PatternMatch) (i : nat) (t : string)
    (r : nat) :
  r ∈ refs_from patterns i t
  <-> exists p, (i <= r)%nat /\ patterns !! (r - i)%nat = Some p
                /\ patternId p = t.
Proof.
  revert i. induction patterns as [|p rest IH]; intros i; simpl.
  - rewrite elem_of_nil. split; [done|]. by intros (p & _ & ? & _).
  - assert (Hrest : r ∈ refs_from rest (S i) t
              <-> exists q, (S i <= r)%nat
                    /\ (p :: rest) !! (r - i)%nat = Some q
                    /\ patternId q = t).
    { rewrite IH. split.
      - intros (q & Hle & Hq & Ht). exists q. split; [done|].
        replace (r - i)%nat with (S (r - S i)) by lia. done.
      - intros (q & Hle & Hq & Ht). exists q. split; [done|].
        replace (r - i)%nat with (S (r - S i)) in Hq by lia. done. }
    destruct (String.eqb (patternId p) t) eqn:Hp.
    + apply String.eqb_eq in Hp. rewrite elem_of_cons, Hrest. split.
      * intros [->|(q & Hle & Hq & Ht)].
        -- exists p. rewrite Nat.sub_diag. done.
        -- exists q. split; [lia|done].
      * intros (q & Hle & Hq & Ht).
        destruct (decide (r = i)) as [->|Hne]; [by left|].
        right. exists q. split; [lia|done].
    + apply String.eqb_neq in Hp. rewrite Hrest. split.
      * intros (q & Hle & Hq & Ht). exists q. split; [lia|done].
      * intros (q & Hle & Hq & Ht).
        destruct (decide (r = i)) as [->|Hne].
        -- rewrite Nat.sub_diag in Hq. simpl in Hq. congruence.
        -- exists q. split; [lia|done].
Qed.

Lemma refs_of_spec (patterns : list PatternMatch) (t : string) (r : nat) :
  r ∈ refs_of patterns t
  <-> exists p, patterns !! r = Some p /\ patternId p = t.
Proof.
  unfold refs_of. rewrite refs_from_spec. split.
  - intros (p & _ & Hp & Ht). rewrite Nat.sub_0_r in Hp. eauto.
  - intros (p & Hp & Ht). exists p. rewrite Nat.sub_0_r.
    split; [lia|done].
Qed.

Lemma refs_from_NoDup (patterns : list PatternMatch) (i : nat) (t : string) :
  NoDup (refs_from patterns i t).
Proof.
  revert i. induction patterns as [|p rest IH]; intros i; simpl.
  - constructor.
  - destruct (String.eqb (patternId p) t); [|apply IH].
    constructor; [|apply IH].
    intros (q & Hle & _)%refs_from_spec. lia.
Qed.

Lemma stored_nonempty (byType : list (string * list nat)) (t : string) :
  stored byType t <> [] -> (t, stored byType t) ∈ byType.
Proof.
  induction byType as [|[t0 refs] rest IH]; simpl; [done|].
  destruct (String.eqb t0 t) eqn:H0.
  - apply String.eqb_eq in H0 as ->. intros _. by left.
  - intros H. right. by apply IH.
Qed.

(** *** The comparison *)








(** *** Numbering one group in the store *)

Lemma set_repeat_same (i n : nat) (p : PatternMatch) :
  same_match p (set_repeat i n p).
Proof. by repeat split. Qed.

Lemma same_match_refl (p : PatternMatch) : same_match p p.
Proof. by repeat split. Qed.

Lemma same_match_trans (p q r : PatternMatch) :
  same_match p q -> same_match q r -> same_match p r.
Proof.
  unfold same_match. intros (?&?&?&?&?&?&?&?) (?&?&?&?&?&?&?&?).
  repeat split; congruence.
Qed.

Lemma alter_same (i n r : nat) (store : list PatternMatch) :
  Forall2 same_match store (alter (set_repeat i n) r store).
Proof.
  apply Forall2_same_length_lookup_2; [by rewrite length_alter|].
  intros j q q' Hq Hq'.
  destruct (decide (r = j)) as [->|Hne].
  - rewrite list_lookup_alter_eq, Hq in Hq'. injection Hq' as <-.
    apply set_repeat_same.
  - rewrite list_lookup_alter_ne, Hq in Hq' by done. injection Hq' as <-.
    apply same_match_refl.
Qed.

Lemma Forall2_same_trans (s1 s2 s3 : list PatternMatch) :
  Forall2 same_match s1 s2 -> Forall2 same_match s2 s3 ->
  Forall2 same_match s1 s3.
Proof.
  intros H12. revert s3.
  induction H12 as [|p q s1 s2 Hpq _ IH]; intros s3 H23.
  - by inversion H23.
  - inversion H23; subst. constructor; [by eapply same_match_trans|].
    by apply IH.
Qed.

Lemma assign_indices_same (group : list nat) (i n : nat)
    (store : list PatternMatch) :
  Forall2 same_match store (assign_indices group i n store).
Proof.
  revert i store. induction group as [|r group IH]; intros i store; simpl.
  - apply Forall2_same_length_lookup_2; [done|].
    intros j q q' Hq Hq'. rewrite Hq in Hq'. injection Hq' as <-.
    apply same_match_refl.
  - eapply Forall2_same_trans; [apply alter_same|apply IH].
Qed.

Lemma assign_indices_outside (group : list nat) (i n : nat)
    (store : list PatternMatch) (r : nat) :
  r ∉ group -> assign_indices group i n store !! r = store !! r.
Proof.
  revert i store. induction group as [|r0 group IH]; intros i store Hr;
    simpl; [done|].
  apply not_elem_of_cons in Hr as [Hne Hr].
  rewrite IH by done. by apply list_lookup_alter_ne.
Qed.

Lemma assign_indices_inside (group : list nat) (i n : nat)
    (store : list PatternMatch) (k r : nat) :
  NoDup group -> group !! k = Some r ->
  assign_indices group i n store !! r
  = set_repeat (i + k) n <$> store !! r.
Proof.
  revert i store k.
  induction group as [|r0 group IH]; intros i store k Hnd Hk; [done|].
  apply NoDup_cons in Hnd as [Hnin Hnd]. simpl.
  destruct k as [|k]; simpl in Hk.
  - injection Hk as ->. rewrite assign_indices_outside by done.
    rewrite list_lookup_alter_eq, Nat.add_0_r. done.
  - rewrite (IH _ _ k) by done.
    assert (r0 <> r).
    { intros ->. apply Hnin. by eapply list_elem_of_lookup_2. }
    rewrite list_lookup_alter_ne by done.
    by rewrite Nat.add_succ_r.
Qed.

Lemma by_position_ref_same (s1 s2 : list PatternMatch) (r1 r2 : nat) :
  Forall2 same_match s1 s2 ->
  by_position_ref s2 r1 r2 = by_position_ref s1 r1 r2.
Proof.
  intros H. unfold by_position_ref.
  assert (Hpos : forall r,
            position <$> s2 !! r = position <$> s1 !! r).
  { intros r. destruct (s1 !! r) as [p|] eqn:Hp.
    - destruct (Forall2_lookup_l _ _ _ _ _ H Hp) as (q & -> & Hq).
      simpl. f_equal. apply Hq.
    - apply lookup_ge_None in Hp.
      rewrite (Forall2_length _ _ _ H) in Hp.
      apply lookup_ge_None in Hp. by rewrite Hp. }
  pose proof (Hpos r1) as H1. pose proof (Hpos r2) as H2.
  destruct (s1 !! r1), (s2 !! r1), (s1 !! r2), (s2 !! r2);
    simpl in *; try done.
  injection H1 as H1. injection H2 as H2.
  unfold by_position. by rewrite H1, H2.
Qed.

Lemma Array_sort_ext {A : Type} (cmp1 cmp2 : A -> A -> Q) (l : list A) :
  (forall a b, cmp1 a b = cmp2 a b) ->
  Array_sort cmp1 l = Array_sort cmp2 l.
Proof.
  intros Hext. unfold Array_sort.
  induction l as [|a l IH]; simpl; [done|]. rewrite IH.
  generalize (foldr (sort_insert cmp2) [] l). intros l'.
  induction l' as [|b l' IH']; simpl; [done|].
  by rewrite Hext, IH'.
Qed.

Lemma number_group_same (store : list PatternMatch) (group : list nat) :
  Forall2 same_match store (number_group store group).
Proof.
  unfold number_group. destruct (1 <? length group)%nat.
  - apply assign_indices_same.
  - apply Forall2_same_length_lookup_2; [done|].
    intros j q q' Hq Hq'. rewrite Hq in Hq'. injection Hq' as <-.
    apply same_match_refl.
Qed.

Lemma number_group_outside (store : list PatternMatch) (group : list nat)
    (r : nat) :
  r ∉ group -> number_group store group !! r = store !! r.
Proof.
  intros Hr. unfold number_group.
  destruct (1 <? length group)%nat; [|done].
  apply assign_indices_outside. by rewrite Array_sort_elem_of.
Qed.

Lemma number_group_inside (store : list PatternMatch) (group : list nat)
    (k r : nat) :
  NoDup group -> (1 < length group)%nat ->
  Array_sort (by_position_ref store) group !! k = Some r ->
  number_group store group !! r
  = set_repeat k (length group) <$> store !! r.
Proof.
  intros Hnd Hlen Hk. unfold number_group.
  rewrite (proj2 (Nat.ltb_lt _ _) Hlen).
  rewrite (assign_indices_inside _ _ _ _ k r); [done| |done].
  by rewrite Array_sort_perm.
Qed.

(** *** Numbering all groups *)

Lemma fold_groups (patterns : list PatternMatch)
    (entries : list (string * list nat)) (store : list PatternMatch) :
  NoDup (map fst entries) ->
  (forall e, e ∈ entries -> snd e = refs_of patterns (fst e)) ->
  Forall2 same_match patterns store ->
  let out := fold_left (fun store entry => number_group store (snd entry))
               entries store in
  Forall2 same_match patterns out
  /\ (forall r, (forall e, e ∈ entries -> r ∉ snd e) ->
        out !! r = store !! r)
  /\ (forall e k r, e ∈ entries -> (1 < length (snd e))%nat ->
        Array_sort (by_position_ref patterns) (snd e) !! k = Some r ->
        out !! r = set_repeat k (length (snd e)) <$> store !! r).
Proof.
  revert store.
  induction entries as [|e rest IH]; intros store Hkeys Hrefs Hsame; simpl.
  - split; [done|]. split; [done|].
    intros e k r []%elem_of_nil.
  - simpl in Hkeys. apply NoDup_cons in Hkeys as [Hfresh Hkeys].
    assert (Hrest : forall e', e' ∈ rest ->
              snd e' = refs_of patterns (fst e'))
      by (intros e' He'; apply Hrefs; by right).
    assert (Hsame1 : Forall2 same_match patterns
                       (number_group store (snd e)))
      by (eapply Forall2_same_trans; [done|apply number_group_same]).
    destruct (IH (number_group store (snd e)) Hkeys Hrest Hsame1)
      as (Hout & Houtside & Hinside).
    assert (Hdisjoint : forall e' r, e' ∈ rest -> r ∈ snd e ->
              r ∉ snd e').
    { intros e' r He' Hr Hr'.
      rewrite (Hrefs e) in Hr by (by left).
      rewrite (Hrest e' He') in Hr'.
      apply refs_of_spec in Hr as (p & Hp & Ht).
      apply refs_of_spec in Hr' as (p' & Hp' & Ht').
      apply Hfresh. apply list_elem_of_fmap. exists e'.
      split; [congruence|done]. }
    split; [done|]. split.
    + intros r Hr. rewrite Houtside by (intros e' He'; apply Hr; by right).
      apply number_group_outside. apply Hr. by left.
    + intros e' k r [->|He']%elem_of_cons Hlen Hk.
      * assert (Hr : r ∈ snd e).
        { rewrite <- (Array_sort_elem_of (by_position_ref patterns)).
          by eapply list_elem_of_lookup_2. }
        rewrite Houtside by (intros e' He'; by apply Hdisjoint).
        apply number_group_inside; [|done|].
        -- rewrite (Hrefs e) by (by left). apply refs_from_NoDup.
        -- rewrite (Array_sort_ext _ (by_position_ref patterns)); [done|].
           intros a b. by apply by_position_ref_same.
      * rewrite (Hinside e' k r He' Hlen Hk).
        rewrite number_group_outside; [done|].
        intros Hr. apply (Hdisjoint e' r He' Hr).
        rewrite <- (Array_sort_elem_of (by_position_ref patterns)).
        by eapply list_elem_of_lookup_2.
Qed.

(** The numbering of the group of pattern [t]: its sorted references
    receive the indices 0, 1, ... in turn. *)
Lemma detectRepeatablePatterns_group (patterns : list PatternMatch)
    (t : string) :
  let out := detectRepeatablePatterns patterns in
  let group := refs_of patterns t in
  let sorted := Array_sort (by_position_ref patterns) group in
  Forall2 same_match patterns out
  /\ ((1 < length group)%nat ->
      forall k r, sorted !! k = Some r ->
        out !! r = set_repeat k (length group) <$> patterns !! r).
Proof.
  intros out group sorted. subst out. unfold detectRepeatablePatterns.
  set (entries := group_by_type patterns 0 []).
  assert (Hkeys : NoDup (map fst entries))
    by (apply keys_NoDup_group; constructor).
  assert (Hstored : forall t', stored entries t' = refs_of patterns t')
    by (intros t'; unfold entries; by rewrite stored_group_by_type).
  assert (Hrefs : forall e, e ∈ entries ->
            snd e = refs_of patterns (fst e)).
  { intros [t' refs] He. simpl. rewrite <- Hstored. symmetry.
    by apply stored_entry. }
  assert (Hself : Forall2 same_match patterns patterns).
  { apply Forall2_same_length_lookup_2; [done|].
    intros j q q' Hq Hq'. rewrite Hq in Hq'. injection Hq' as <-.
    apply same_match_refl. }
  destruct (fold_groups patterns entries patterns Hkeys Hrefs Hself)
    as (Hout & _ & Hinside).
  split; [done|]. intros Hlen k r Hk.
  assert (He : (t, group) ∈ entries).
  { unfold group. rewrite <- Hstored. apply stored_nonempty.
    rewrite Hstored. fold group. intros Hnil. rewrite Hnil in Hlen.
    simpl in Hlen. lia. }
  apply (Hinside (t, group) k r He Hlen Hk).
Qed.





(** Scenario D: the groups at y = 100 and 105 share a bucket and go by
    x, the group at y = 400 comes last. *)
Lemma scenario_D_indices :
  map repeatIndex (detectRepeatablePatterns scenario_D) = [0; 1; 2]%nat
  /\ map repeatTotal (detectRepeatablePatterns scenario_D)
     = [Some 3; Some 3; Some 3]%nat.
Proof. vm_compute. auto. Qed.





End detectRepeatablePatterns_facts.

(** ** BatchReplacer *)

Section BatchReplacer_facts.
Import JS BatchReplacer ReplaceSpec.

Lemma PageItem_induction (P : PageItem -> Prop) :
  (forall t n c items, Forall P items -> P (mkPageItem t n c items)) ->
  forall item, P item.
Proof.
  intros H. fix IH 1. intros [t n c items]. apply H.
  induction items as [|x l IHl]; constructor; [apply IH | apply IHl].
Qed.

Lemma find_app {A : Type} (f : A -> bool) (l1 l2 : list A) :
  List.find f (l1 ++ l2)
  = match List.find f l1 with
    | Some a => Some a
    | None => List.find f l2
    end.
Proof.
  induction l1 as [|a l1 IH]; simpl; [done|]. by destruct (f a).
Qed.

Lemma first_match_app (target : jsstring) (o1 o2 : list (Ref * PageItem)) :
  first_match target (o1 ++ o2)
  = match first_match target o1 with
    | Some r => Some r
    | None => first_match target o2
    end.
Proof.
  unfold first_match. rewrite find_app.
  by destruct (List.find _ o1).
Qed.

Lemma first_match_prefix (target : jsstring) (k : nat)
    (o : list (Ref * PageItem)) :
  first_match target (map (fun pr => (k :: fst pr, snd pr)) o)
  = (fun p => k :: p) <$> first_match target o.
Proof.
  unfold first_match. induction o as [|[p item] o IH]; simpl; [done|].
  destruct (content_matches target item); [done|apply IH].
Qed.

Lemma scan_first (target : jsstring) (items : list PageItem) (k : nat) :
  Forall (fun item => visit target item
                      = first_match target (document_order item)) items ->
  scan (visit target) items k
  = first_match target (number_items document_order items k).
Proof.
  intros Hall. revert k.
  induction Hall as [|item rest Hitem _ IH]; intros k; simpl; [done|].
  rewrite first_match_app, first_match_prefix, Hitem.
  destruct (first_match target (document_order item)); simpl; [done|].
  apply IH.
Qed.

Lemma visit_first (target : jsstring) (item : PageItem) :
  visit target item = first_match target (document_order item).
Proof.
  induction item as [t n c items IH] using PageItem_induction.
  cbn [visit document_order pageItems].
  unfold first_match at 1. cbn [List.find snd].
  destruct (content_matches target (mkPageItem t n c items)); [done|].
  by apply scan_first.
Qed.

(** The search below a container returns the first matching text frame
    in document order. *)
Lemma findTextByContent_first (items : list PageItem) (target : jsstring) :
  findTextByContent items target = first_match target (items_order items).
Proof.
  unfold findTextByContent, items_order. apply scan_first.
  apply Forall_forall. intros item _. apply visit_first.
Qed.

Lemma find_in_layers_first (layers : list (list PageItem)) (l : nat)
    (target : jsstring) :
  find_in_layers layers l target
  = first_match target (layers_order layers l).
Proof.
  revert l. induction layers as [|items rest IH]; intros l; simpl; [done|].
  rewrite first_match_app, first_match_prefix, findTextByContent_first.
  destruct (first_match target (items_order items)); simpl; [done|].
  apply IH.
Qed.



Lemma by_content_first (doc : Document) (rep : Replacement) :
  by_content doc rep
  = match currentValue rep with
    | [] => None
    | _ => first_match (currentValue rep) (layers_order doc 0)
    end.
Proof.
  unfold by_content. destruct (currentValue rep); [done|].
  apply find_in_layers_first.
Qed.





(** Nor is a resolved field recorded: with the recorded value present,
    the text is replaced and the returned object is the same. *)
Lemma resolved_field_not_recorded :
  let run := runFromConfig no_files (config_of [scenario_E_found]) poster in
  deref (doc (fst run)) [0; 0; 0]%nat = Some (text_frame "name" "Alice")
  /\ ~ recorded (snd run) "success"
         (success_record "guest_0.name" (VString (lit "Alice")))
  /\ snd run = snd (runFromConfig no_files (config_of []) poster).
Proof.
  intros run. split; [vm_compute; reflexivity|]. split.
  { intros (entries & Hget & _). discriminate Hget. }
  reflexivity.
Qed.

End BatchReplacer_facts.

(* ================================================================== *)
(** * Part III: properties of the further functions *)

(** ** IdGenerator: the form of the ids *)

Section generated_id_facts.
Import JS HierarchySpec.

Lemma generated_id_intro (kind number : string) :
  number <> ""%string -> hex_digits number ->
  generated_id (kind +:+ "_" +:+ number).
Proof. intros Hne Hhex. by exists kind, number. Qed.

Lemma decimal_digits_hex (d : Decimal.uint) :
  hex_digits (DecimalString.NilEmpty.string_of_uint d).
Proof.
  induction d; cbn [DecimalString.NilEmpty.string_of_uint hex_digits];
    try done; (split; [vm_compute; lia|done]).
Qed.

Lemma hexadecimal_digits_hex (d : Hexadecimal.uint) :
  hex_digits (HexadecimalString.NilEmpty.string_of_uint d).
Proof.
  induction d; cbn [HexadecimalString.NilEmpty.string_of_uint hex_digits];
    try done; (split; [vm_compute; lia|done]).
Qed.

Lemma string_of_nat_number (n : nat) :
  string_of_nat n <> ""%string /\ hex_digits (string_of_nat n).
Proof.
  unfold string_of_nat, DecimalString.NilZero.string_of_uint.
  destruct (Nat.to_uint n) eqn:Hd;
    try (split; [discriminate|rewrite <- Hd; apply decimal_digits_hex]).
  split; [discriminate|vm_compute; lia].
Qed.

Lemma toString16_number (z : Z) :
  toString16 z <> ""%string /\ hex_digits (toString16 z).
Proof.
  unfold toString16, HexadecimalString.NilZero.string_of_uint.
  destruct (N.to_hex_uint (Z.to_N z)) eqn:Hd;
    try (split; [discriminate|rewrite <- Hd; apply hexadecimal_digits_hex]).
  split; [discriminate|vm_compute; lia].
Qed.

Lemma all_hex_spec (s : string) : hex_digits s -> all_hex s = true.
Proof.
  induction s as [|a rest IH]; [done|].
  cbn [hex_digits all_hex]. unfold hex_digit. intros [Ha Hrest].
  rewrite (IH Hrest), andb_true_r.
  apply orb_true_iff. rewrite !andb_true_iff, !Nat.leb_le. lia.
Qed.

Lemma generated_id_ends_in_number (s : string) :
  generated_id s -> ends_in_number s = true.
Proof.
  intros (kind & number & -> & Hne & Hhex).
  induction kind as [|a kind IH].
  - rewrite append_empty, append_String, append_empty.
    cbn [ends_in_number Ascii.eqb Bool.eqb andb].
    rewrite (all_hex_spec _ Hhex).
    by destruct number.
  - rewrite append_String. cbn [ends_in_number].
    by rewrite IH, orb_true_r.
Qed.

(** No inherited name has the form of a generated id. *)
Lemma inherited_names_not_generated (name : string) :
  name ∈ inherited_names -> ~ generated_id name.
Proof.
  intros Hin Hgen%generated_id_ends_in_number.
  assert (Hall : forallb (fun n => negb (ends_in_number n)) inherited_names
                 = true) by (vm_compute; reflexivity).
  rewrite forallb_forall in Hall.
  apply list_elem_of_In, Hall in Hin. by rewrite Hgen in Hin.
Qed.

(** The ids of both modes of [IdGenerator] have the form. *)
Lemma generateStableId_generated (item : IdGenerator.Item)
    (context : IdGenerator.Context) :
  generated_id (IdGenerator.generateStableId item context).
Proof.
  unfold IdGenerator.generateStableId, IdGenerator.hashContent.
  eexists _, _. split; [reflexivity|]. apply toString16_number.
Qed.

Lemma generateSequentialId_generated (type : string)
    (counters : gmap string nat) :
  generated_id (SequentialId.generateSequentialId type counters).1.
Proof.
  unfold SequentialId.generateSequentialId. cbn [fst].
  eexists _, _. split; [reflexivity|]. apply string_of_nat_number.
Qed.

End generated_id_facts.

(** ** IntegrityChecker: what the id check reports *)

Section checkIdUniqueness_more.
Import JS IntegrityChecker HierarchySpec.

Lemma checkIdUniqueness_loop_inv (all pre elements : list Element)
    (ids : gmap string nat) (dups : list Duplicate) :
  all = pre ++ elements ->
  (forall k j, ids !! k = Some j ->
     (j < length pre)%nat /\ exists e, all !! j = Some e /\ id e = k) ->
  dom ids = list_to_set (id <$> pre) ->
  Forall (fun d => exists e1 e2,
            all !! (indices d).1 = Some e1 /\ all !! (indices d).2 = Some e2
            /\ id e1 = dup_id d /\ id e2 = dup_id d
            /\ (0 < (indices d).1 < (indices d).2)%nat) dups ->
  let r := checkIdUniqueness_loop elements (length pre) ids dups in
  dom r.1 = list_to_set (id <$> all)
  /\ Forall (fun d => exists e1 e2,
            all !! (indices d).1 = Some e1 /\ all !! (indices d).2 = Some e2
            /\ id e1 = dup_id d /\ id e2 = dup_id d
            /\ (0 < (indices d).1 < (indices d).2)%nat) r.2.
Proof.
  revert pre ids dups.
  induction elements as [|e rest IH]; intros pre ids dups Hall Hids Hdom Hdups.
  - simpl. rewrite app_nil_r in Hall. subst all. done.
  - assert (Hall' : all = (pre ++ [e]) ++ rest) by by rewrite <- app_assoc.
    assert (He : all !! length pre = Some e).
    { rewrite Hall. by rewrite list_lookup_middle. }
    assert (Hlen : length (pre ++ [e]) = S (length pre)).
    { rewrite length_app. simpl. lia. }
    cbn [checkIdUniqueness_loop].
    destruct (ids !! id e) as [[|j]|] eqn:Hlook.
    + rewrite <- Hlen. apply IH; [done| | |done].
      * intros k j'. rewrite Hlen.
        destruct (decide (k = id e)) as [->|Hne].
        -- rewrite lookup_insert_eq. intros [= <-]. split; [lia|]. eauto.
        -- rewrite lookup_insert_ne by done. intros Hk.
           destruct (Hids _ _ Hk) as [? ?]. split; [lia|done].
      * rewrite dom_insert_L, fmap_app, list_to_set_app_L, Hdom. simpl.
        rewrite union_empty_r_L. apply union_comm_L.
    + rewrite <- Hlen. apply IH; [done| | |].
      * intros k j' Hk. rewrite Hlen.
        destruct (Hids _ _ Hk) as [? ?]. split; [lia|done].
      * rewrite fmap_app, list_to_set_app_L, <- Hdom. simpl.
        rewrite union_empty_r_L.
        assert (Hin : {[id e]} ⊆ dom ids).
        { apply singleton_subseteq_l, elem_of_dom. eauto. }
        symmetry. rewrite union_comm_L. by apply subseteq_union_1_L.
      * apply Forall_app. split; [done|]. constructor; [|constructor].
        simpl. destruct (Hids _ _ Hlook) as [Hlt (e1 & He1 & Hid1)].
        exists e1, e. repeat split; try done. lia.
    + rewrite <- Hlen. apply IH; [done| | |done].
      * intros k j'. rewrite Hlen.
        destruct (decide (k = id e)) as [->|Hne].
        -- rewrite lookup_insert_eq. intros [= <-]. split; [lia|]. eauto.
        -- rewrite lookup_insert_ne by done. intros Hk.
           destruct (Hids _ _ Hk) as [? ?]. split; [lia|done].
      * rewrite dom_insert_L, fmap_app, list_to_set_app_L, Hdom. simpl.
        rewrite union_empty_r_L. apply union_comm_L.
Qed.

Lemma checkIdUniqueness_genuine (elements : list Element) :
  let r := checkIdUniqueness elements in
  Forall (fun d => exists e1 e2,
            elements !! (indices d).1 = Some e1
            /\ elements !! (indices d).2 = Some e2
            /\ id e1 = dup_id d /\ id e2 = dup_id d
            /\ (0 < (indices d).1 < (indices d).2)%nat) (duplicates r)
  /\ totalIds r = size (list_to_set (id <$> elements) : gset string).
Proof.
  pose proof (checkIdUniqueness_loop_inv elements [] elements ∅ []) as H.
  simpl in H. unfold checkIdUniqueness.
  destruct (checkIdUniqueness_loop elements 0 ∅ []) as [ids dups].
  simpl in *.
  destruct H as [Hdom Hd]; [done| |apply dom_empty_L|constructor|].
  { intros k j. by rewrite lookup_empty. }
  split; [done|]. rewrite <- Hdom. by rewrite size_dom.
Qed.

(** X1.  On elements with ids as the generator builds them, every entry
    of [duplicates] is genuine: its two indices are positions of the
    list, the first one positive and before the second, and both
    elements there carry the reported id.  And [totalIds] is the
    number of distinct ids of the list. *)
Theorem checkIdUniqueness_sound (elements : list Element) :
  generated_ids elements ->
  let r := checkIdUniqueness elements in
  Forall (fun d => exists e1 e2,
            elements !! (indices d).1 = Some e1
            /\ elements !! (indices d).2 = Some e2
            /\ id e1 = dup_id d /\ id e2 = dup_id d
            /\ (0 < (indices d).1 < (indices d).2)%nat) (duplicates r)
  /\ totalIds r = size (list_to_set (id <$> elements) : gset string).
Proof. intros _. apply checkIdUniqueness_genuine. Qed.

(** Three text frames of which the last two share their id: one entry,
    for the second and the third. *)
Lemma checkIdUniqueness_sound_witness :
  generated_ids repeated_id
  /\ (let r := checkIdUniqueness repeated_id in
      Forall (fun d => exists e1 e2,
                repeated_id !! (indices d).1 = Some e1
                /\ repeated_id !! (indices d).2 = Some e2
                /\ id e1 = dup_id d /\ id e2 = dup_id d
                /\ (0 < (indices d).1 < (indices d).2)%nat) (duplicates r)
      /\ totalIds r = size (list_to_set (id <$> repeated_id) : gset string))
  /\ duplicates (checkIdUniqueness repeated_id)
     = [{| dup_id := "textframe_2a"; indices := (1, 2)%nat |}].
Proof.
  assert (Hids : generated_ids repeated_id).
  { intros e He. unfold repeated_id in He.
    repeat (apply elem_of_cons in He as [->|He]);
      [apply (generated_id_intro "textframe" "1f")
      |apply (generated_id_intro "textframe" "2a")
      |apply (generated_id_intro "textframe" "2a")
      |by apply elem_of_nil in He];
      first [discriminate | (vm_compute; lia)]. }
  split; [exact Hids|]. split.
  - exact (checkIdUniqueness_sound repeated_id Hids).
  - vm_compute. reflexivity.
Defined.

End checkIdUniqueness_more.

(** ** IntegrityChecker: parent references *)

Section checkHierarchy_facts.
Import JS IntegrityChecker HierarchyChecker HierarchySpec.

Lemma build_idSet_fold (elements : list Element) (s : gmap string bool)
    (k : string) :
  fold_left (fun idSet e => <[id e := true]> idSet) elements s !! k
  = if decide (k ∈ (id <$> elements)) then Some true else s !! k.
Proof.
  revert s. induction elements as [|e rest IH]; intros s.
  - destruct (decide _) as [Hin|]; [|done]. by apply elem_of_nil in Hin.
  - cbn [fold_left]. rewrite IH, fmap_cons.
    destruct (decide (k ∈ (id <$> rest))) as [Hin|Hnin].
    + rewrite decide_True; [done|]. apply elem_of_cons. by right.
    + destruct (decide (k = id e)) as [->|Hne].
      * rewrite decide_True by (apply elem_of_cons; by left).
        by rewrite lookup_insert_eq.
      * rewrite lookup_insert_ne by done.
        rewrite decide_False; [done|].
        rewrite elem_of_cons. tauto.
Qed.

Lemma dangling_spec (elements : list Element) (e : Element) :
  dangling (build_idSet elements) e = true <-> orphan elements e.
Proof.
  unfold dangling, orphan, build_idSet.
  destruct (parentId e) as [p|]; [|done].
  rewrite build_idSet_fold, lookup_empty, andb_true_iff, !negb_true_iff.
  rewrite String.eqb_neq.
  destruct (decide (p ∈ (id <$> elements))); simpl; split;
    intros [? ?]; done.
Qed.

Lemma checkHierarchy_loop_spec (all elements : list Element)
    (found : list Issue) :
  checkHierarchy_loop elements (build_idSet all) found
  = found ++ (issue_of <$> filter (orphan all) elements).
Proof.
  revert found. induction elements as [|e rest IH]; intros found; simpl.
  - by rewrite app_nil_r.
  - destruct (dangling (build_idSet all) e) eqn:Hd.
    + rewrite IH, filter_cons_True by by apply dangling_spec.
      by rewrite <- app_assoc.
    + rewrite IH, filter_cons_False; [done|].
      rewrite <- dangling_spec. congruence.
Qed.

Lemma checkHierarchy_orphans (elements : list Element) :
  let r := checkHierarchy elements in
  issues r = issue_of <$> filter (orphan elements) elements
  /\ (hierarchy_valid r = true
      <-> forall e, e ∈ elements -> ~ orphan elements e).
Proof.
  unfold checkHierarchy. cbn [issues hierarchy_valid].
  rewrite checkHierarchy_loop_spec, app_nil_l. split; [done|].
  rewrite Nat.eqb_eq, length_fmap, length_zero_iff_nil.
  split.
  - intros Hnil e He Ho.
    assert (Hin : e ∈ filter (orphan elements) elements).
    { apply list_elem_of_filter. by split. }
    rewrite Hnil in Hin. by apply not_elem_of_nil in Hin.
  - intros Hno. apply elem_of_nil_inv. intros e.
    rewrite list_elem_of_filter. intros [Ho He]. by apply (Hno e).
Qed.

(** X2.  On elements with parent ids as the generator builds them, the
    issues are, in list order, those of the elements whose parent id
    is given and is no element's id; the list is valid exactly when
    there is no such element. *)
Theorem checkHierarchy_reports_orphans (elements : list Element) :
  generated_parent_ids elements ->
  let r := checkHierarchy elements in
  issues r = issue_of <$> filter (orphan elements) elements
  /\ (hierarchy_valid r = true
      <-> forall e, e ∈ elements -> ~ orphan elements e).
Proof. intros _. apply checkHierarchy_orphans. Qed.

(** A text frame whose group is not in the list: one issue, for the
    text frame. *)
Lemma checkHierarchy_reports_orphans_witness :
  generated_parent_ids lost_child
  /\ (let r := checkHierarchy lost_child in
      issues r = issue_of <$> filter (orphan lost_child) lost_child
      /\ (hierarchy_valid r = true
          <-> forall e, e ∈ lost_child -> ~ orphan lost_child e))
  /\ (issue_elementId <$> issues (checkHierarchy lost_child))
     = ["text_1"%string]
  /\ hierarchy_valid (checkHierarchy lost_child) = false.
Proof.
  assert (Hids : generated_parent_ids lost_child).
  { intros e p He Hp. unfold lost_child in He.
    repeat (apply elem_of_cons in He as [->|He]);
      [discriminate Hp| |by apply elem_of_nil in He].
    injection Hp as <-. exists "group"%string, "7"%string.
    split; [reflexivity|]. split; [discriminate|].
    vm_compute. lia. }
  split; [exact Hids|]. split.
  - exact (checkHierarchy_reports_orphans lost_child Hids).
  - vm_compute. done.
Defined.

(** X3.  The check follows no chain of parents: a list in which every
    parent id is the id of some element passes, whatever the
    references form -- also an element that is its own parent. *)
Theorem checkHierarchy_accepts_cycles (elements : list Element) :
  (forall e p, e ∈ elements -> parentId e = Some p ->
     exists e', e' ∈ elements /\ id e' = p) ->
  checkHierarchy elements
  = {| hierarchy_valid := true; issues := [] |}.
Proof.
  intros Hparents.
  assert (Hnone : filter (orphan elements) elements = []).
  { apply elem_of_nil_inv. intros e.
    rewrite list_elem_of_filter. intros [Ho He]. unfold orphan in Ho.
    destruct (parentId e) as [p|] eqn:Hp; [|done].
    destruct (Hparents e p He Hp) as (e' & He' & Hid).
    destruct Ho as [_ Hnin]. apply Hnin. rewrite <- Hid.
    by apply list_elem_of_fmap_2. }
  unfold checkHierarchy.
  by rewrite checkHierarchy_loop_spec, Hnone.
Qed.

Lemma checkHierarchy_accepts_cycles_witness :
  checkHierarchy [self_parented]
  = {| hierarchy_valid := true; issues := [] |}.
Proof.
  apply (checkHierarchy_accepts_cycles [self_parented]).
  intros e p He Hp. apply list_elem_of_singleton in He. subst e.
  exists self_parented. split; [apply list_elem_of_singleton; reflexivity|].
  simpl in Hp. by injection Hp.
Defined.

End checkHierarchy_facts.

(** ** IdGenerator: sequential ids *)

Section generateSequentialId_facts.
Import JS SequentialId SequentialSpec NamerSpec.

Lemma generate_length (types : list string) (counters : gmap string nat) :
  length (generate types counters) = length types.
Proof.
  revert counters. induction types as [|t rest IH]; intros counters.
  - done.
  - cbn [generate generateSequentialId length]. by rewrite IH.
Qed.

Lemma generate_lookup (types : list string) (counters : gmap string nat)
    (i : nat) (t : string) :
  types !! i = Some t ->
  generate types counters !! i
  = Some (toLowerCase t +:+ "_"
          +:+ string_of_nat (default 0%nat (counters !! t)
                             + 1 + seen types i t))%string.
Proof.
  revert counters i.
  induction types as [|t0 rest IH]; intros counters i Hi; [done|].
  cbn [generate generateSequentialId].
  destruct i as [|i].
  - injection Hi as ->. unfold seen. cbn [take filter list_filter length lookup list_lookup].
    by rewrite Nat.add_0_r.
  - cbn [lookup list_lookup] in *. rewrite (IH _ _ Hi). unfold seen.
    cbn [take]. destruct (decide (t0 = t)) as [->|Hne].
    + rewrite filter_cons_True by done. rewrite lookup_insert_eq.
      cbn [default length]. do 4 f_equal. cbv [Datatypes.id]. lia.
    + rewrite filter_cons_False by done.
      by rewrite lookup_insert_ne.
Qed.

(** X4.  After [reset], the [i]-th request, for type [t], returns the
    lower-cased type followed by "_" and one more than the number of
    earlier requests for [t]; the ids handed out are pairwise distinct
    as long as no two requested types differ in letter case only. *)
Theorem generateSequentialId_distinct (types : list string) :
  case_distinct types ->
  (forall i t, types !! i = Some t ->
     generate types reset !! i
     = Some (toLowerCase t +:+ "_"
             +:+ string_of_nat (S (seen types i t)))%string)
  /\ NoDup (generate types reset).
Proof.
  intros Hcase.
  assert (Hnum : forall i t, types !! i = Some t ->
     generate types reset !! i
     = Some (toLowerCase t +:+ "_"
             +:+ string_of_nat (S (seen types i t)))%string).
  { intros i t Hi. rewrite (generate_lookup _ _ _ _ Hi).
    unfold reset. by rewrite lookup_empty. }
  split; [exact Hnum|].
  apply NoDup_alt. intros i j x Hi Hj.
  destruct (types !! i) as [ti|] eqn:Hti.
  2:{ apply lookup_ge_None in Hti. apply lookup_lt_Some in Hi.
      rewrite generate_length in Hi. lia. }
  destruct (types !! j) as [tj|] eqn:Htj.
  2:{ apply lookup_ge_None in Htj. apply lookup_lt_Some in Hj.
      rewrite generate_length in Hj. lia. }
  rewrite (Hnum _ _ Hti) in Hi. rewrite (Hnum _ _ Htj) in Hj.
  injection Hi as <-. injection Hj as Heq.
  apply key_number_inj in Heq; try apply string_of_nat_free.
  destruct Heq as [Hlow Hn]. apply string_of_nat_inj in Hn.
  assert (tj = ti) as ->.
  { apply Hcase; [by eapply list_elem_of_lookup_2..|done]. }
  injection Hn as Hn. unfold seen in Hn.
  destruct (Nat.lt_trichotomy i j) as [Hlt|[->|Hlt]]; [|done|]; exfalso.
  - assert (Hsplit : take j types = take i types ++ ti :: take (j - S i) (drop (S i) types)).
    { rewrite <- (take_drop_middle types i ti Hti) at 1.
      rewrite take_app_ge by (rewrite length_take; apply lookup_lt_Some in Hti; lia).
      rewrite length_take_le by (apply lookup_lt_Some in Hti; lia).
      replace (j - i)%nat with (S (j - S i)) by lia. done. }
    rewrite Hsplit, filter_app, filter_cons_True, length_app in Hn by done.
    simpl in Hn. lia.
  - assert (Hsplit : take i types = take j types ++ ti :: take (i - S j) (drop (S j) types)).
    { rewrite <- (take_drop_middle types j ti Htj) at 1.
      rewrite take_app_ge by (rewrite length_take; apply lookup_lt_Some in Htj; lia).
      rewrite length_take_le by (apply lookup_lt_Some in Htj; lia).
      replace (i - j)%nat with (S (i - S j)) by lia. done. }
    rewrite Hsplit, filter_app, filter_cons_True, length_app in Hn by done.
    simpl in Hn. lia.
Qed.

Lemma generateSequentialId_distinct_witness :
  case_distinct ["text"; "image"; "text"]%string
  /\ NoDup (generate ["text"; "image"; "text"]%string reset).
Proof.
  assert (H : case_distinct ["text"; "image"; "text"]%string).
  { intros t1 t2 H1 H2.
    repeat (apply elem_of_cons in H1 as [->|H1]);
      try (by apply elem_of_nil in H1);
      repeat (apply elem_of_cons in H2 as [->|H2]);
      try (by apply elem_of_nil in H2); vm_compute; congruence. }
  split; [exact H|].
  apply (generateSequentialId_distinct ["text"; "image"; "text"]%string H).
Defined.

(** X5.  The counter is kept under the type as written and the id is built
    from the lower-cased type: two types that differ in letter case
    only are given the same ids. *)
Theorem generateSequentialId_case_collision (t1 t2 : string) :
  t1 <> t2 -> toLowerCase t1 = toLowerCase t2 ->
  exists id, generate [t1; t2] reset = [id; id].
Proof.
  intros Hne Hlow. eexists.
  cbn [generate generateSequentialId]. unfold reset.
  rewrite lookup_insert_ne by done. rewrite lookup_empty, Hlow. reflexivity.
Qed.

Lemma generateSequentialId_case_collision_witness :
  exists id, generate ["Text"; "text"]%string reset = [id; id].
Proof.
  apply (generateSequentialId_case_collision "Text" "text");
    [discriminate | reflexivity].
Defined.

End generateSequentialId_facts.

(** ** CoordinateSystem *)

Section CoordinateSystem_facts.
Import JS IntegrityChecker.
Local Open Scope Q_scope.

Lemma round_scaled (a : Q) :
  CoordinateSystem.round a
  == inject_Z (Qfloor (a * 100 + (1 # 2))) * (1 # 100).
Proof. unfold CoordinateSystem.round, Math_round. field. Qed.

Lemma round_mono (a b : Q) :
  a <= b -> CoordinateSystem.round a <= CoordinateSystem.round b.
Proof.
  intros Hab. rewrite !round_scaled.
  assert (H : (Qfloor (a * 100 + (1 # 2)) <= Qfloor (b * 100 + (1 # 2)))%Z).
  { apply Qfloor_resp_le. lra. }
  rewrite Zle_Qle in H.
  set (x := inject_Z (Qfloor (a * 100 + (1 # 2)))) in *.
  set (y := inject_Z (Qfloor (b * 100 + (1 # 2)))) in *.
  lra.
Qed.

Lemma round_nonneg (a : Q) : 0 <= a -> 0 <= CoordinateSystem.round a.
Proof.
  intros Ha. apply (Qle_trans _ (CoordinateSystem.round 0)).
  - vm_compute. discriminate.
  - by apply round_mono.
Qed.

Lemma transformBounds_ordered (cs : CoordinateSystem.Setup)
    (aiLeft aiTop aiRight aiBottom : Q) :
  aiLeft <= aiRight -> aiBottom <= aiTop ->
  let t := CoordinateSystem.transformBounds cs
             (aiLeft, aiTop, aiRight, aiBottom) in
  CoordinateSystem.left t <= CoordinateSystem.right t
  /\ 0 <= CoordinateSystem.width t
  /\ 0 <= CoordinateSystem.height t
  /\ (if CoordinateSystem.useArtboardRelative cs
         || String.eqb (CoordinateSystem.origin cs) "top-left"
      then CoordinateSystem.top t <= CoordinateSystem.bottom t
      else CoordinateSystem.bottom t <= CoordinateSystem.top t).
Proof.
  intros Hx Hy. unfold CoordinateSystem.transformBounds.
  destruct (CoordinateSystem.useArtboardRelative cs);
    [|destruct (String.eqb (CoordinateSystem.origin cs) "top-left")];
    cbn [CoordinateSystem.left CoordinateSystem.right CoordinateSystem.top
         CoordinateSystem.bottom CoordinateSystem.width
         CoordinateSystem.height orb];
    (split; [apply round_mono; lra|]);
    (split; [apply round_nonneg; lra|]);
    (split; [apply round_nonneg; try apply Qabs_nonneg; lra|]);
    apply round_mono; lra.
Qed.

(** X6.  A native box that is the right way round ([left <= right],
    [bottom <= top], Y upwards) is transformed into one that is the
    right way round: [left <= right], sizes not negative, and
    [top <= bottom] in the two Y-down modes, [bottom <= top] in the
    mode that keeps the native axis. *)
Theorem transformBounds_orientation (cs : CoordinateSystem.Setup)
    (aiLeft aiTop aiRight aiBottom : Q) :
  aiLeft <= aiRight -> aiBottom <= aiTop ->
  let t := CoordinateSystem.transformBounds cs
             (aiLeft, aiTop, aiRight, aiBottom) in
  CoordinateSystem.left t <= CoordinateSystem.right t
  /\ 0 <= CoordinateSystem.width t
  /\ 0 <= CoordinateSystem.height t
  /\ (if CoordinateSystem.useArtboardRelative cs
         || String.eqb (CoordinateSystem.origin cs) "top-left"
      then CoordinateSystem.top t <= CoordinateSystem.bottom t
      else CoordinateSystem.bottom t <= CoordinateSystem.top t).
Proof. apply transformBounds_ordered. Qed.

Lemma transformBounds_orientation_witness :
  let cs := {| CoordinateSystem.docHeight := 600;
               CoordinateSystem.docWidth := 800;
               CoordinateSystem.origin := "top-left";
               CoordinateSystem.artboardLeft := 0;
               CoordinateSystem.artboardTop := 600;
               CoordinateSystem.artboardWidth := 800;
               CoordinateSystem.artboardHeight := 600;
               CoordinateSystem.useArtboardRelative := true |} in
  let t := CoordinateSystem.transformBounds cs (100, 500, 300, 450) in
  CoordinateSystem.left t <= CoordinateSystem.right t
  /\ 0 <= CoordinateSystem.width t
  /\ 0 <= CoordinateSystem.height t
  /\ CoordinateSystem.top t <= CoordinateSystem.bottom t.
Proof.
  intros cs.
  apply (transformBounds_orientation cs 100 500 300 450);
    vm_compute; discriminate.
Defined.

(** X8.  [isInArtboard] and the bounds check agree in the two Y-down
    modes: a native box that is the right way round is in the artboard
    exactly when the element that [ElementFactory] builds from it is
    counted as fully visible. *)
Theorem isInArtboard_iff_fully_visible (cs : CoordinateSystem.Setup)
    (aiLeft aiTop aiRight aiBottom : Q) (e : Element) (docWidth docHeight : Q) :
  aiLeft <= aiRight -> aiBottom <= aiTop ->
  CoordinateSystem.useArtboardRelative cs
    || String.eqb (CoordinateSystem.origin cs) "top-left" = true ->
  bounds e = Some (CoordinateSystem.element_bounds cs
                     (aiLeft, aiTop, aiRight, aiBottom)) ->
  CoordinateSystem.isInArtboard cs (aiLeft, aiTop, aiRight, aiBottom) = true
  <-> fullyVisible (checkBounds [e]
                      (Some (CoordinateSystem.getArtboardInfo cs))
                      docWidth docHeight) = 1%nat.
Proof.
  intros Hx Hy Hmode Hb.
  pose proof (transformBounds_ordered cs aiLeft aiTop aiRight aiBottom Hx Hy)
    as (Hlr & _ & _ & Htb).
  rewrite Hmode in Htb. cbv zeta in Hlr, Htb.
  unfold checkBounds. cbn [checkBounds_loop]. rewrite Hb.
  unfold CoordinateSystem.isInArtboard, CoordinateSystem.getArtboardInfo.
  cbn [ab_width ab_height].
  set (t := CoordinateSystem.transformBounds cs
              (aiLeft, aiTop, aiRight, aiBottom)) in *.
  rewrite !andb_true_iff, !Qle_bool_iff.
  destruct (fully_outside _ _ _) eqn:Hout.
  { cbn [fullyVisible]. split; [|discriminate]. intros Hin. exfalso.
    unfold fully_outside, margin, CoordinateSystem.element_bounds in Hout.
    fold t in Hout. cbn [left right top bottom] in Hout.
    rewrite !orb_true_iff, !lt_spec, !gt_spec in Hout. lra. }
  destruct (partly_outside _ _ _) eqn:Hpart; cbn [fullyVisible].
  - split; [|discriminate]. intros Hin. exfalso.
    unfold partly_outside, margin, CoordinateSystem.element_bounds in Hpart.
    fold t in Hpart. cbn [left right top bottom] in Hpart.
    rewrite !orb_true_iff, !lt_spec, !gt_spec in Hpart. lra.
  - split; [done|]. intros _.
    unfold partly_outside, margin, CoordinateSystem.element_bounds in Hpart.
    fold t in Hpart. cbn [left right top bottom] in Hpart.
    rewrite !orb_false_iff, !lt_false, !gt_false in Hpart. lra.
Qed.

Lemma isInArtboard_iff_fully_visible_witness :
  let cs := {| CoordinateSystem.docHeight := 600;
               CoordinateSystem.docWidth := 800;
               CoordinateSystem.origin := "top-left";
               CoordinateSystem.artboardLeft := 0;
               CoordinateSystem.artboardTop := 600;
               CoordinateSystem.artboardWidth := 800;
               CoordinateSystem.artboardHeight := 600;
               CoordinateSystem.useArtboardRelative := true |} in
  let box := (100, 500, 300, 450) in
  let e := {| id := "text_1f"; type := "text"; parentId := None;
              bounds := Some (CoordinateSystem.element_bounds cs box) |} in
  CoordinateSystem.isInArtboard cs box = true
  <-> fullyVisible (checkBounds [e]
                      (Some (CoordinateSystem.getArtboardInfo cs)) 800 600)
      = 1%nat.
Proof.
  intros cs box e.
  apply (isInArtboard_iff_fully_visible cs 100 500 300 450 e 800 600);
    [vm_compute; discriminate | vm_compute; discriminate
    | reflexivity | reflexivity].
Defined.

End CoordinateSystem_facts.

(** ** PatternMatcher: the tag map *)

Section extractTags_facts.
Import JS PatternMatcher TagSpec.

(** The tag under which the code files a child is the tag of the
    child. *)
Lemma tag_type_tag_of (v : VariableTag) : tag_type v = tag_of v.
Proof.
  unfold tag_type, tag_of.
  by destruct (primaryType v) as [|a t], (variableType v).
Qed.

Lemma extractTags_loop_lookup (children : list Element)
    (tags : gmap string (list TagRecord)) (k : string) :
  extractTags_loop children tags !! k
  = match omap (tagged_as k) children with
    | [] => tags !! k
    | l => Some (default [] (tags !! k) ++ l)
    end.
Proof.
  revert tags. induction children as [|c rest IH]; intros tags; [done|].
  cbn [extractTags_loop omap list_omap]. unfold tagged_as at 1.
  destruct (variable c) as [v|]; [|apply IH].
  rewrite <- (tag_type_tag_of v).
  destruct (String.eqb (tag_type v) "") eqn:Hempty.
  - apply String.eqb_eq in Hempty.
    rewrite decide_False by (intros [? ?]; congruence). apply IH.
  - apply String.eqb_neq in Hempty. rewrite IH.
    destruct (decide (tag_type v = k /\ k <> ""%string)) as [[<- _]|Hne].
    + rewrite lookup_insert_eq.
      destruct (omap (tagged_as (tag_type v)) rest); simpl.
      * done.
      * by rewrite <- app_assoc.
    + rewrite lookup_insert_ne; [done|].
      intros Heq. apply Hne. split; congruence.
Qed.

Lemma extractTags_lookup (children : list Element) (k : string) :
  extractTags children !! k
  = match omap (tagged_as k) children with
    | [] => None
    | l => Some l
    end.
Proof.
  unfold extractTags. rewrite extractTags_loop_lookup, lookup_empty.
  by destruct (omap (tagged_as k) children).
Qed.

(** X9.  [extractTags] files the children under their tags: the list
    stored for a key holds the records of the children carrying that
    tag, in the order of the children; a key with no such child is
    absent (no list is ever empty, the empty tag is never a key). *)
Theorem extractTags_groups_by_tag (children : list Element) (k : string) :
  extractTags children !! k
  = match omap (tagged_as k) children with
    | [] => None
    | l => Some l
    end.
Proof. apply extractTags_lookup. Qed.

Lemma extractTags_nonempty (children : list Element) (k : string)
    (l : list TagRecord) :
  extractTags children !! k = Some l -> l <> [].
Proof.
  unfold extractTags. rewrite extractTags_loop_lookup, lookup_empty.
  destruct (omap (tagged_as k) children); [done|].
  cbn [default app]. by intros [= <-].
Qed.

End extractTags_facts.

(** ** PatternMatcher: what a match is made of *)

Section matchAll_facts.
Import JS PatternMatcher MatchSpec RepeatSpec TagSpec.

Lemma length_omap_le {A B : Type} (f : A -> option B) (l : list A) :
  (length (omap f l) <= length l)%nat.
Proof.
  induction l as [|a l IH]; [done|].
  cbn [omap list_omap]. destruct (f a); cbn [length]; lia.
Qed.

Lemma build_fields_bound (pattern : PatternDef) (children : list Element)
    (k : string) (field : option TagRecord) :
  satisfies pattern (extractTags children) ->
  build_fields pattern (extractTags children) !! k = Some field ->
  (k ∈ required pattern \/ k ∈ optional pattern)
  /\ exists record,
       field = Some record
       /\ head (omap (tagged_as k) children) = Some record.
Proof.
  intros [Hreq _]. rewrite build_fields_lookup.
  destruct (decide _) as [Hk|]; [|done]. intros [= <-].
  split; [tauto|].
  assert (Hsome : is_Some (extractTags children !! k)).
  { destruct Hk as [Hk|[_ Hk]]; [|done].
    destruct (Hreq k Hk) as (r & o & ->). eauto. }
  destruct Hsome as [l Hl]. rewrite Hl. cbn [default].
  pose proof (extractTags_nonempty _ _ _ Hl) as Hne.
  rewrite extractTags_lookup in Hl.
  destruct (omap (tagged_as k) children) as [|r rs]; [done|].
  injection Hl as <-. exists r. done.
Qed.

Lemma matchPattern_loop_Some (catalog : list PatternDef) (group : Element)
    (childTags : gmap string (list TagRecord)) (m : PatternMatch) :
  matchPattern_loop catalog group childTags = Some m ->
  exists pattern,
    pattern ∈ catalog /\ satisfies pattern childTags
    /\ m = build_match pattern group childTags.
Proof.
  intros Hm. pose proof (matchPattern_loop_spec catalog group childTags)
    as Hspec.
  rewrite Hm in Hspec. destruct Hspec as (j & pattern & Hj & Hsat & _ & ->).
  exists pattern. split; [|done]. by eapply list_elem_of_lookup_2.
Qed.

Lemma matchPattern_Some (group : Element)
    (childTags : gmap string (list TagRecord)) (children : list Element)
    (m : PatternMatch) :
  matchPattern group childTags children = Some m ->
  exists pattern,
    pattern ∈ COMPOSITE_PATTERNS /\ satisfies pattern childTags
    /\ m = build_match pattern group childTags.
Proof. apply matchPattern_loop_Some. Qed.

Lemma match_groups_origin (elements : list Element) (m : PatternMatch) :
  m ∈ match_groups elements ->
  exists group pattern,
    group ∈ findGroups elements
    /\ pattern ∈ COMPOSITE_PATTERNS
    /\ satisfies pattern
         (extractTags (getGroupChildren elements (elem_id group)))
    /\ m = build_match pattern group
             (extractTags (getGroupChildren elements (elem_id group))).
Proof.
  unfold match_groups. rewrite list_elem_of_omap.
  intros (group & Hgroup & Hm). cbv zeta in Hm.
  apply matchPattern_Some in Hm as (pattern & Hin & Hsat & Hmeq).
  exists group, pattern. split; [exact Hgroup|]. split; [exact Hin|].
  split; [exact Hsat | exact Hmeq].
Qed.

(** X10.  Every match that [matchAll] returns belongs to a group of the
    element list, and each of its fields holds the record of the first
    child of that group (in the order of the elements) that carries
    the tag the field is named after; no field holds [undefined].
    There are at most as many matches as groups. *)
Theorem matchAll_fields_are_first_children (elements : list Element) :
  Forall (fun m =>
            exists group,
              group ∈ findGroups elements
              /\ groupId m = elem_id group
              /\ forall k field, fields m !! k = Some field ->
                   exists record,
                     field = Some record
                     /\ head (omap (tagged_as k)
                                (getGroupChildren elements (elem_id group)))
                        = Some record)
         (matchAll_patterns elements)
  /\ (length (matchAll_patterns elements)
      <= length (findGroups elements))%nat.
Proof.
  unfold matchAll_patterns.
  pose proof (detectRepeatablePatterns_group (match_groups elements) "")
    as [Hsame _].
  split.
  - apply Forall_forall. intros m' Hm'.
    apply list_elem_of_lookup in Hm' as [i Hi].
    destruct (Forall2_lookup_r _ _ _ _ _ Hsame Hi) as (m & Hm & Hmm').
    apply list_elem_of_lookup_2 in Hm.
    destruct (match_groups_origin _ _ Hm)
      as (group & pattern & Hgroup & _ & Hsat & Hmeq).
    destruct Hmm' as (_ & _ & Hgid & _ & _ & _ & Hfields & _).
    rewrite Hmeq in Hgid, Hfields. cbn [groupId fields build_match] in *.
    exists group. split; [exact Hgroup|]. split; [exact Hgid|].
    intros k field. rewrite Hfields.
    intros Hk. exact (proj2 (build_fields_bound _ _ _ _ Hsat Hk)).
  - rewrite <- (Forall2_length _ _ _ Hsame). apply length_omap_le.
Qed.

End matchAll_facts.

(** ** PatternMatcher: confidence of a match *)

Section calculateConfidence_facts.
Import JS PatternMatcher PatternScoring.

Lemma score_required_fold (childTags : gmap string (list TagRecord))
    (reqs : list string) (acc : Z * Z) :
  let r := fold_left (score_required childTags) reqs acc in
  (fst acc <= fst r)%Z
  /\ (fst r - fst acc <= snd r - snd acc)%Z
  /\ snd r = (snd acc + 2 * Z.of_nat (length reqs))%Z
  /\ (forallb (present childTags) reqs = true ->
      (fst r - fst acc = snd r - snd acc)%Z).
Proof.
  revert acc. induction reqs as [|k reqs IH]; intros acc.
  - cbn. repeat split; lia.
  - cbn [fold_left forallb]. rewrite length_cons, Nat2Z.inj_succ. cbv zeta.
    destruct (IH (score_required childTags acc k)) as (H1 & H2 & H3 & H4).
    cbv zeta in H1, H2, H3, H4.
    assert (Hstep : (fst acc <= fst (score_required childTags acc k))%Z
              /\ (fst (score_required childTags acc k) - fst acc <= 2)%Z
              /\ snd (score_required childTags acc k) = (snd acc + 2)%Z
              /\ (present childTags k = true ->
                  fst (score_required childTags acc k) = (fst acc + 2)%Z)).
    { unfold score_required. cbn [fst snd].
      destruct (present childTags k); repeat split; try lia; discriminate. }
    destruct Hstep as (S1 & S2 & S3 & S4).
    revert H1 H2 H3 H4 S1 S2 S3 S4.
    generalize (fold_left (score_required childTags) reqs
                  (score_required childTags acc k)).
    generalize (score_required childTags acc k).
    intros acc1 r H1 H2 H3 H4 S1 S2 S3 S4.
    split; [lia|]. split; [lia|]. split; [lia|].
    intros [Hk Hall]%andb_true_iff.
    specialize (H4 Hall). specialize (S4 Hk). lia.
Qed.

Lemma score_optional_fold (childTags : gmap string (list TagRecord))
    (opts : list string) (acc : Z * Z) :
  let r := fold_left (score_optional childTags) opts acc in
  (fst acc <= fst r)%Z
  /\ (fst r - fst acc <= snd r - snd acc)%Z
  /\ snd r = (snd acc + Z.of_nat (length opts))%Z
  /\ (forallb (present childTags) opts = true ->
      (fst r - fst acc = snd r - snd acc)%Z).
Proof.
  revert acc. induction opts as [|k opts IH]; intros acc.
  - cbn. repeat split; lia.
  - cbn [fold_left forallb]. rewrite length_cons, Nat2Z.inj_succ. cbv zeta.
    destruct (IH (score_optional childTags acc k)) as (H1 & H2 & H3 & H4).
    cbv zeta in H1, H2, H3, H4.
    assert (Hstep : (fst acc <= fst (score_optional childTags acc k))%Z
              /\ (fst (score_optional childTags acc k) - fst acc <= 1)%Z
              /\ snd (score_optional childTags acc k) = (snd acc + 1)%Z
              /\ (present childTags k = true ->
                  fst (score_optional childTags acc k) = (fst acc + 1)%Z)).
    { unfold score_optional. cbn [fst snd].
      destruct (present childTags k); repeat split; try lia; discriminate. }
    destruct Hstep as (S1 & S2 & S3 & S4).
    revert H1 H2 H3 H4 S1 S2 S3 S4.
    generalize (fold_left (score_optional childTags) opts
                  (score_optional childTags acc k)).
    generalize (score_optional childTags acc k).
    intros acc1 r H1 H2 H3 H4 S1 S2 S3 S4.
    split; [lia|]. split; [lia|]. split; [lia|].
    intros [Hk Hall]%andb_true_iff.
    specialize (H4 Hall). specialize (S4 Hk). lia.
Qed.

Lemma scores_bounds (pattern : PatternDef)
    (childTags : gmap string (list TagRecord))
    (children : list (option Point)) :
  let s := scores pattern childTags children in
  (0 <= fst s <= snd s)%Z
  /\ (Z.of_nat (length (required pattern)) <= snd s)%Z
  /\ (forallb (present childTags) (required pattern) = true ->
      forallb (present childTags) (optional pattern) = true ->
      fst s = snd s).
Proof.
  unfold scores.
  pose proof (score_required_fold childTags (required pattern) (0, 0)%Z)
    as (R1 & R2 & R3 & R4).
  set (acc := fold_left (score_required childTags) (required pattern)
                (0, 0)%Z) in *.
  pose proof (score_optional_fold childTags (optional pattern) acc)
    as (O1 & O2 & O3 & O4).
  set (acc' := fold_left (score_optional childTags) (optional pattern) acc)
    in *.
  cbv zeta in *. cbn [fst snd] in *.
  destruct (layout_bonus pattern children); cbn [fst snd];
    (split; [lia|]); (split; [lia|]);
    intros Hr Ho; specialize (R4 Hr); specialize (O4 Ho); lia.
Qed.

Lemma ratio_rounded (s m : Z) :
  (0 <= s <= m)%Z -> (0 < m)%Z ->
  (0 <= inject_Z (Math_round (inject_Z s / inject_Z m * 100)) / 100 <= 1)%Q.
Proof.
  intros [Hs Hsm] Hm.
  rewrite Zle_Qle in Hs, Hsm. rewrite Zlt_Qlt in Hm.
  change (inject_Z 0) with 0%Q in *.
  set (a := inject_Z s) in *. set (b := inject_Z m) in *.
  assert (Hlow : (0 <= a / b)%Q).
  { apply Qle_shift_div_l; [done|]. lra. }
  assert (Hup : (a / b <= 1)%Q).
  { apply Qle_shift_div_r; [done|]. lra. }
  unfold Math_round.
  assert (H0 : (Qfloor (1 # 2) <= Qfloor (a / b * 100 + (1 # 2)))%Z).
  { apply Qfloor_resp_le. set (q := (a / b)%Q) in *. lra. }
  assert (H100 : (Qfloor (a / b * 100 + (1 # 2))
                  <= Qfloor (100 + (1 # 2)))%Z).
  { apply Qfloor_resp_le. set (q := (a / b)%Q) in *. lra. }
  change (Qfloor (1 # 2)) with 0%Z in H0.
  change (Qfloor (100 + (1 # 2))) with 100%Z in H100.
  rewrite Zle_Qle in H0, H100.
  set (r := inject_Z (Qfloor (a / b * 100 + (1 # 2)))) in *.
  change (inject_Z 0) with 0%Q in *. change (inject_Z 100) with 100%Q in *.
  split.
  - apply Qle_shift_div_l; [done|]. lra.
  - apply Qle_shift_div_r; [done|]. lra.
Qed.

Lemma ratio_full (m : Z) :
  (0 < m)%Z ->
  (inject_Z (Math_round (inject_Z m / inject_Z m * 100)) / 100 == 1)%Q.
Proof.
  intros Hm. rewrite Zlt_Qlt in Hm. change (inject_Z 0) with 0%Q in Hm.
  assert (H1 : (inject_Z m / inject_Z m == 1)%Q).
  { field. intros H0. rewrite H0 in Hm. by apply Qlt_irrefl in Hm. }
  unfold Math_round. rewrite H1. reflexivity.
Qed.

Lemma calculateConfidence_bounds (pattern : PatternDef)
    (childTags : gmap string (list TagRecord))
    (children : list (option Point)) :
  (0 <= calculateConfidence pattern childTags children <= 1)%Q
  /\ (required pattern <> [] ->
      forallb (present childTags) (required pattern) = true ->
      forallb (present childTags) (optional pattern) = true ->
      (calculateConfidence pattern childTags children == 1)%Q).
Proof.
  unfold calculateConfidence.
  pose proof (scores_bounds pattern childTags children) as (Hb & Hlen & Hfull).
  destruct (scores pattern childTags children) as [score maxScore].
  cbv zeta in *. cbn [fst snd] in *.
  destruct (0 <? maxScore)%Z eqn:Hpos.
  - apply Z.ltb_lt in Hpos. split; [by apply ratio_rounded|].
    intros _ Hr Ho. rewrite (Hfull Hr Ho). by apply ratio_full.
  - apply Z.ltb_ge in Hpos. split; [split; discriminate|].
    intros Hne. destruct (required pattern); [done|].
    cbn [length] in Hlen. lia.
Qed.

(** X11.  The confidence is a number between 0 and 1, and it is 1 when all
    required and all optional keys of a definition with at least one
    required key are in the tag map, whether or not the layout hint
    is met and whatever positions the children have or lack. *)
Theorem calculateConfidence_range (pattern : PatternDef)
    (childTags : gmap string (list TagRecord))
    (children : list (option Point)) :
  (0 <= calculateConfidence pattern childTags children <= 1)%Q
  /\ (required pattern <> [] ->
      forallb (present childTags) (required pattern) = true ->
      forallb (present childTags) (optional pattern) = true ->
      (calculateConfidence pattern childTags children == 1)%Q).
Proof. apply calculateConfidence_bounds. Qed.

Lemma checkLayout_few (children : list (option Point)) (layout : string) :
  (length (placed children) < 2)%nat -> checkLayout children layout = true.
Proof.
  intros Hlen. unfold checkLayout. rewrite length_map.
  destruct (length children <? 2)%nat; [done|].
  apply Nat.ltb_lt in Hlen. by rewrite Hlen.
Qed.

Lemma placed_length (children : list (option Point)) :
  (length (placed children) <= length children)%nat.
Proof.
  unfold placed.
  induction children as [|[p|] rest IH]; cbn [omap list_omap length] in *;
    lia.
Qed.

(** X12.  Among children of which two or more have a position, at most
    one of the two layout hints is met: the hints compare the spread
    of the x and of the y positions strictly.  With fewer than two
    children that have a position every hint is met, and a hint other
    than the two is always met. *)
Theorem checkLayout_exclusive (children : list (option Point)) :
  ((2 <= length (placed children))%nat ->
   checkLayout children "vertical" && checkLayout children "horizontal"
   = false)
  /\ ((length (placed children) < 2)%nat ->
      forall layout, checkLayout children layout = true)
  /\ (forall layout, layout <> "vertical"%string ->
        layout <> "horizontal"%string ->
        checkLayout children layout = true).
Proof.
  split; [|split].
  - intros Hlen. pose proof (placed_length children) as Hle.
    unfold checkLayout. rewrite length_map.
    destruct (length children <? 2)%nat eqn:Hlt;
      [apply Nat.ltb_lt in Hlt; lia|].
    destruct (length (placed children) <? 2)%nat eqn:Hlt';
      [apply Nat.ltb_lt in Hlt'; lia|].
    cbn [String.eqb Ascii.eqb Bool.eqb andb].
    set (yv := variance _). set (xv := variance _).
    destruct (gt yv xv) eqn:Hv, (gt xv yv) eqn:Hh; try reflexivity.
    apply gt_spec in Hv, Hh. lra.
  - intros Hlen layout. by apply checkLayout_few.
  - intros layout Hv Hh. unfold checkLayout.
    apply String.eqb_neq in Hv, Hh. rewrite Hv, Hh.
    by destruct (length children <? 2)%nat,
         (length (map x (placed children)) <? 2)%nat.
Qed.

(** Two children one below the other and a third without a position:
    the two hints are not both met; of two children without a position
    both are. *)
Lemma checkLayout_exclusive_witness :
  let children :=
    [Some {| x := 10%Q; y := 0%Q |}; None; Some {| x := 10%Q; y := 40%Q |}] in
  checkLayout children "vertical" && checkLayout children "horizontal"
  = false
  /\ checkLayout [None; None] "vertical"
     && checkLayout [None; None] "horizontal" = true.
Proof.
  intros children. split.
  - apply (proj1 (checkLayout_exclusive children)). vm_compute. lia.
  - rewrite !(proj1 (proj2 (checkLayout_exclusive [None; None])));
      [done|vm_compute; lia|vm_compute; lia].
Defined.

End calculateConfidence_facts.

(** ** PatternMatcher: adjacent groups *)

Section tryMatchAdjacentGroup_facts.
Import JS PatternMatcher PatternScoring MatchSpec TagSpec.

Lemma present_extractTags (children : list Element) (k : string) :
  present (extractTags children) k = true
  <-> exists child, child ∈ children /\ is_Some (tagged_as k child).
Proof.
  unfold present. rewrite extractTags_lookup.
  destruct (omap (tagged_as k) children) as [|r rs] eqn:Ho.
  - split; [discriminate|]. intros (child & Hin & [r Hr]).
    assert (Hr' : r ∈ omap (tagged_as k) children).
    { apply list_elem_of_omap. eauto. }
    rewrite Ho in Hr'. by apply elem_of_nil in Hr'.
  - split; [|done]. intros _.
    assert (Hr : r ∈ omap (tagged_as k) children)
      by (rewrite Ho; apply elem_of_cons; by left).
    apply list_elem_of_omap in Hr as (child & Hin & Hr). eauto.
Qed.

Lemma present_nonempty (children : list Element) (k : string) :
  present (extractTags children) k = true
  <-> exists record others,
        extractTags children !! k = Some (record :: others).
Proof.
  unfold present.
  destruct (extractTags children !! k) as [l|] eqn:Hl.
  - pose proof (extractTags_nonempty _ _ _ Hl).
    destruct l as [|r rs]; [done|]. split; [eauto|done].
  - split; [discriminate|]. by intros (? & ? & ?).
Qed.

Lemma required_present (pattern : PatternDef) (children : list Element) :
  forallb (present (extractTags children)) (required pattern)
  = hasAllRequired pattern (extractTags children).
Proof.
  apply eq_true_iff_eq. rewrite hasAllRequired_spec, forallb_forall.
  split.
  - intros H k Hk. apply present_nonempty, H. by apply list_elem_of_In.
  - intros H k Hk. apply present_nonempty, H. by apply list_elem_of_In.
Qed.

Lemma forallb_false_ex {A : Type} (f : A -> bool) (l : list A) :
  forallb f l = false -> exists a, a ∈ l /\ f a = false.
Proof.
  induction l as [|a l IH]; cbn [forallb]; [discriminate|].
  destruct (f a) eqn:Ha; cbn [andb].
  - intros (b & Hb & Hf)%IH. exists b. split; [|done].
    apply elem_of_cons. by right.
  - intros _. exists a. split; [|done]. apply elem_of_cons. by left.
Qed.

Lemma catalog_repeatable_unbounded : repeatable_unbounded COMPOSITE_PATTERNS.
Proof.
  intros d Hd Hr. unfold COMPOSITE_PATTERNS in Hd.
  repeat (apply elem_of_cons in Hd as [->|Hd]; [try reflexivity; discriminate Hr|]).
  by apply elem_of_nil in Hd.
Qed.

Lemma tryMatchAdjacentGroup_loop_spec (catalog : list PatternDef)
    (elements : list Element) :
  match tryMatchAdjacentGroup_loop catalog (extractTags elements) elements
  with
  | Some a =>
      exists n pattern,
        catalog !! n = Some pattern /\ repeatable pattern = true
        /\ (forall k, k ∈ required pattern ->
              exists child, child ∈ elements /\ is_Some (tagged_as k child))
        /\ (forall j earlier, (j < n)%nat -> catalog !! j = Some earlier ->
              repeatable earlier = true ->
              exists k, k ∈ required earlier
                        /\ forall child, child ∈ elements ->
                             tagged_as k child = None)
        /\ adj_patternId a = id pattern
        /\ adj_patternLabel a = label pattern
        /\ adj_category a = category pattern
        /\ isAdjacentGroup a = true
        /\ elementCount a = length elements
        /\ (0 <= confidence a <= 1)%Q
  | None =>
      forall pattern, pattern ∈ catalog -> repeatable pattern = true ->
        exists k, k ∈ required pattern
                  /\ forall child, child ∈ elements -> tagged_as k child = None
  end.
Proof.
  assert (Hlacks : forall p,
            forallb (present (extractTags elements)) (required p) = false ->
            exists k, k ∈ required p
                      /\ forall child, child ∈ elements ->
                           tagged_as k child = None).
  { intros p Hall.
    apply forallb_false_ex in Hall as (k & Hk & Hno).
    exists k. split; [done|]. intros child Hchild.
    destruct (tagged_as k child) eqn:Ht; [|done].
    apply not_true_iff_false in Hno. exfalso. apply Hno.
    apply present_extractTags. exists child. by rewrite Ht. }
  induction catalog as [|p rest IH]; cbn [tryMatchAdjacentGroup_loop].
  - intros pattern []%elem_of_nil.
  - destruct (repeatable p) eqn:Hrep; cbn [negb].
    + destruct (forallb (present (extractTags elements)) (required p))
        eqn:Hall.
      * exists 0%nat, p. split; [done|]. split; [done|]. split.
        { intros k Hk. apply present_extractTags.
          rewrite forallb_forall in Hall. apply Hall.
          by apply list_elem_of_In. }
        split; [intros j earlier Hj; lia|].
        cbn [adj_patternId adj_patternLabel adj_category isAdjacentGroup
             elementCount confidence].
        repeat (split; [reflexivity|]).
        apply calculateConfidence_bounds.
      * destruct (tryMatchAdjacentGroup_loop rest _ elements) as [a|].
        -- destruct IH as (n & pattern & Hn & Hr & Hreq & Hearlier & Hrest).
           exists (S n), pattern. split; [done|]. split; [done|].
           split; [done|]. split; [|done].
           intros [|j] earlier Hj; cbn [lookup list_lookup].
           ++ intros [= <-] _. by apply Hlacks.
           ++ apply Hearlier. lia.
        -- intros pattern [->|Hin]%elem_of_cons Hr; [|by apply IH].
           by apply Hlacks.
    + destruct (tryMatchAdjacentGroup_loop rest _ elements) as [a|].
      * destruct IH as (n & pattern & Hn & Hr & Hreq & Hearlier & Hrest).
        exists (S n), pattern. split; [done|]. split; [done|].
        split; [done|]. split; [|done].
        intros [|j] earlier Hj; cbn [lookup list_lookup].
        -- intros [= <-] Hr'. congruence.
        -- apply Hearlier. lia.
      * intros pattern [->|Hin]%elem_of_cons Hr; [congruence|by apply IH].
Qed.

(** X13.  [tryMatchAdjacentGroup] returns the first definition of the
    catalog that may repeat and whose required keys are all carried by
    some element of the run: every repeatable definition before it
    has a required key that no element carries.  It reports the id,
    the label and the category of that definition, the number of
    elements and a confidence between 0 and 1.  It returns nothing
    exactly when every repeatable definition has a required key that
    no element carries. *)
Theorem tryMatchAdjacentGroup_spec (elements : list Element) :
  match tryMatchAdjacentGroup elements with
  | Some a =>
      exists n pattern,
        COMPOSITE_PATTERNS !! n = Some pattern /\ repeatable pattern = true
        /\ (forall k, k ∈ required pattern ->
              exists child, child ∈ elements /\ is_Some (tagged_as k child))
        /\ (forall j earlier, (j < n)%nat ->
              COMPOSITE_PATTERNS !! j = Some earlier ->
              repeatable earlier = true ->
              exists k, k ∈ required earlier
                        /\ forall child, child ∈ elements ->
                             tagged_as k child = None)
        /\ adj_patternId a = id pattern
        /\ adj_patternLabel a = label pattern
        /\ adj_category a = category pattern
        /\ isAdjacentGroup a = true
        /\ elementCount a = length elements
        /\ (0 <= confidence a <= 1)%Q
  | None =>
      forall pattern, pattern ∈ COMPOSITE_PATTERNS ->
        repeatable pattern = true ->
        exists k, k ∈ required pattern
                  /\ forall child, child ∈ elements -> tagged_as k child = None
  end.
Proof. apply tryMatchAdjacentGroup_loop_spec. Qed.

Lemma tryMatchAdjacentGroup_loop_agrees (catalog : list PatternDef)
    (group : Element) (elements : list Element) (m : PatternMatch) :
  repeatable_unbounded catalog ->
  matchPattern_loop catalog group (extractTags elements) = Some m ->
  match_repeatable m = true ->
  exists a,
    tryMatchAdjacentGroup_loop catalog (extractTags elements) elements
    = Some a
    /\ adj_patternId a = patternId m
    /\ adj_patternLabel a = patternLabel m.
Proof.
  intros Hcat. induction catalog as [|p rest IH];
    cbn [matchPattern_loop tryMatchAdjacentGroup_loop]; [discriminate|].
  assert (Hrest : repeatable_unbounded rest).
  { intros d Hd. apply Hcat, elem_of_cons. by right. }
  rewrite required_present.
  destruct (hasAllRequired p (extractTags elements)) eqn:Hreq; cbn [negb].
  - destruct (below_minFields p (extractTags elements)) eqn:Hmin.
    + destruct (repeatable p) eqn:Hrep; cbn [negb]; [|by apply IH].
      exfalso. unfold below_minFields in Hmin.
      rewrite (Hcat p) in Hmin; [discriminate| |done].
      apply elem_of_cons. by left.
    + intros [= <-]. cbn [match_repeatable build_match]. intros ->.
      cbn [negb]. eexists. split; [reflexivity|]. done.
  - destruct (repeatable p); cbn [negb]; by apply IH.
Qed.

(** X14.  On what may repeat, the two matchers agree: when the elements,
    taken as the children of a group, match a repeatable definition,
    the same elements taken as an adjacent run match the same
    definition. *)
Theorem tryMatchAdjacentGroup_agrees (group : Element)
    (elements : list Element) (m : PatternMatch) :
  matchPattern group (extractTags elements) elements = Some m ->
  match_repeatable m = true ->
  exists a,
    tryMatchAdjacentGroup elements = Some a
    /\ adj_patternId a = patternId m
    /\ adj_patternLabel a = patternLabel m.
Proof.
  apply tryMatchAdjacentGroup_loop_agrees, catalog_repeatable_unbounded.
Qed.

Lemma tryMatchAdjacentGroup_agrees_witness :
  exists m a,
    matchPattern (card "group_1" 50 100) (extractTags (tail scenario_C))
      (tail scenario_C) = Some m
    /\ tryMatchAdjacentGroup (tail scenario_C) = Some a
    /\ adj_patternId a = patternId m
    /\ adj_patternId a = "guest"%string.
Proof.
  destruct (matchPattern (card "group_1" 50 100)
              (extractTags (tail scenario_C)) (tail scenario_C))
    as [m|] eqn:Hm; [|vm_compute in Hm; discriminate Hm].
  assert (Hrep : match_repeatable m = true).
  { vm_compute in Hm. injection Hm as <-. reflexivity. }
  destruct (tryMatchAdjacentGroup_agrees _ _ _ Hm Hrep) as (a & Ha & Hid & _).
  exists m, a. split; [reflexivity|]. split; [exact Ha|].
  split; [exact Hid|]. rewrite Hid.
  vm_compute in Hm. injection Hm as <-. reflexivity.
Defined.

End tryMatchAdjacentGroup_facts.


(** ** PatternMatcher: ids of pattern variables *)

Section generatePatternVariableIds_facts.
Import JS PatternMatcher PatternScoring MatchSpec RepeatSpec TagSpec.
Import NamerSpec VariableIdSpec.

Lemma no_char_spec (a : ascii) (s : string) :
  no_char a s = true -> free_of a s.
Proof.
  induction s as [|c s IH]; cbn [no_char free_of]; [done|].
  intros [Hc Hs]%andb_true_iff. split; [|by apply IH].
  apply negb_true_iff, Ascii.eqb_neq in Hc. done.
Qed.

Lemma free_of_append (a : ascii) (s1 s2 : string) :
  free_of a s1 -> free_of a s2 -> free_of a (s1 +:+ s2).
Proof.
  induction s1 as [|c s1 IH]; rewrite ?append_empty, ?append_String;
    cbn [free_of]; [done|].
  intros [Hc H1] H2. split; [done|]. by apply IH.
Qed.

Lemma digits_free_of_dot (d : Decimal.uint) :
  free_of "." (DecimalString.NilEmpty.string_of_uint d).
Proof. induction d; simpl; auto; split; auto; discriminate. Qed.

Lemma string_of_nat_free_dot (n : nat) : free_of "." (string_of_nat n).
Proof.
  unfold string_of_nat, DecimalString.NilZero.string_of_uint.
  destruct (Nat.to_uint n) eqn:Hd;
    rewrite <- ?Hd; try apply digits_free_of_dot.
  simpl. split; [discriminate | exact I].
Qed.

(** A prefix without "." can be read back from an id. *)
Lemma dot_split (s1 s2 f1 f2 : string) :
  free_of "." s1 -> free_of "." s2 ->
  (s1 +:+ "." +:+ f1 = s2 +:+ "." +:+ f2)%string ->
  s1 = s2 /\ f1 = f2.
Proof.
  revert s2. induction s1 as [|c s1 IH]; intros [|c' s2];
    rewrite ?append_String, ?append_empty; cbn [free_of];
    intros H1 H2 Heq.
  - by injection Heq as ->.
  - injection Heq as <- _. by destruct H2.
  - injection Heq as -> _. by destruct H1.
  - injection Heq as -> Heq. destruct H1 as [_ H1], H2 as [_ H2].
    destruct (IH _ H1 H2 Heq) as [-> ->]. done.
Qed.

Lemma NoDup_prefixed (l : list (string * list string)) :
  NoDup (fst <$> l) ->
  Forall (fun e => free_of "." (fst e) /\ NoDup (snd e)) l ->
  NoDup (concat (map (fun e => map (fun k => (fst e +:+ "." +:+ k)%string)
                                (snd e)) l)).
Proof.
  induction l as [|[pre ks] l IH]; cbn [map concat fmap list_fmap fst snd].
  - constructor.
  - intros [Hfresh Hnd]%NoDup_cons [[Hfree Hks] Hall]%Forall_cons.
    cbn [fst snd] in *. apply NoDup_app. split; [|split].
    + apply NoDup_fmap_2_strong; [|done].
      intros k1 k2 _ _ Heq.
      by destruct (dot_split _ _ _ _ Hfree Hfree Heq).
    + intros x Hx Hx'.
      apply list_elem_of_fmap in Hx as (k & -> & Hk).
      apply list_elem_of_In, in_concat in Hx' as (ys & Hys & Hx').
      apply list_elem_of_In in Hys, Hx'.
      change (map ?f l) with (f <$> l) in Hys.
      apply list_elem_of_fmap in Hys as ([pre' ks'] & -> & He).
      cbn [fst snd] in Hx'.
      apply list_elem_of_fmap in Hx' as (k' & Heq & Hk').
      rewrite Forall_forall in Hall.
      destruct (Hall _ He) as [Hfree' _]. cbn [fst] in Hfree'.
      destruct (dot_split _ _ _ _ Hfree Hfree' Heq) as [-> _].
      apply Hfresh. apply list_elem_of_fmap. by exists (pre', ks').
    + by apply IH.
Qed.

Lemma catalog_plain_ids (d : PatternDef) :
  d ∈ COMPOSITE_PATTERNS -> free_of "_" (id d) /\ free_of "." (id d).
Proof.
  intros Hd.
  assert (Hall : plain_ids COMPOSITE_PATTERNS = true) by reflexivity.
  unfold plain_ids in Hall. rewrite forallb_forall in Hall.
  apply list_elem_of_In, Hall, andb_true_iff in Hd as [H1 H2].
  split; by apply no_char_spec.
Qed.

(** Groups of fewer than two matches are left as they are. *)
Lemma fold_groups_small (entries : list (string * list nat))
    (store : list PatternMatch) (r : nat) :
  (forall e, e ∈ entries -> r ∈ snd e -> (length (snd e) <= 1)%nat) ->
  fold_left (fun store entry => number_group store (snd entry))
    entries store !! r
  = store !! r.
Proof.
  revert store. induction entries as [|e rest IH]; intros store Hsmall;
    cbn [fold_left]; [done|].
  rewrite IH.
  - destruct (decide (r ∈ snd e)) as [Hin|Hnin].
    + unfold number_group.
      assert (Hle : (length (snd e) <= 1)%nat).
      { apply Hsmall; [apply elem_of_cons; by left|done]. }
      destruct (1 <? length (snd e))%nat eqn:Hlt; [|done].
      apply Nat.ltb_lt in Hlt. lia.
    + by apply number_group_outside.
  - intros e' He'. apply Hsmall, elem_of_cons. by right.
Qed.

Lemma detectRepeatablePatterns_small (patterns : list PatternMatch)
    (r : nat) (p : PatternMatch) :
  patterns !! r = Some p ->
  (length (refs_of patterns (patternId p)) <= 1)%nat ->
  detectRepeatablePatterns patterns !! r = Some p.
Proof.
  intros Hr Hlen. unfold detectRepeatablePatterns.
  rewrite fold_groups_small; [done|].
  intros [t refs] He Hin. cbn [snd] in *.
  set (entries := group_by_type patterns 0 []) in *.
  assert (Hkeys : NoDup (map fst entries))
    by (apply keys_NoDup_group; constructor).
  assert (Hrefs : refs = refs_of patterns t).
  { rewrite <- (stored_entry entries t refs Hkeys He).
    unfold entries. by rewrite stored_group_by_type. }
  subst refs. apply refs_of_spec in Hin as (p' & Hp' & Ht).
  rewrite Hr in Hp'. injection Hp' as <-. by rewrite <- Ht.
Qed.

(** The prefix that a match of an unnumbered list gets after
    [detectRepeatablePatterns]. *)
Lemma prefix_after_detect (patterns : list PatternMatch) (r : nat)
    (p : PatternMatch) :
  (forall q, q ∈ patterns -> repeatTotal q = None) ->
  patterns !! r = Some p ->
  let group := refs_of patterns (patternId p) in
  exists p',
    detectRepeatablePatterns patterns !! r = Some p'
    /\ same_match p p'
    /\ (((1 < length group)%nat
         /\ exists k,
              Array_sort (by_position_ref patterns) group !! k = Some r
              /\ prefix_of p'
                 = (patternId p +:+ "_" +:+ string_of_nat k)%string)
        \/ ((length group <= 1)%nat /\ prefix_of p' = patternId p)).
Proof.
  intros Hnone Hr group.
  destruct (decide (1 < length group)%nat) as [Hlt|Hle].
  - pose proof (detectRepeatablePatterns_group patterns (patternId p))
      as [_ Hnum].
    cbv zeta in Hnum. fold group in Hnum. specialize (Hnum Hlt).
    assert (Hin : r ∈ Array_sort (by_position_ref patterns) group).
    { apply Array_sort_elem_of, refs_of_spec. eauto. }
    apply list_elem_of_lookup in Hin as [k Hk].
    exists (set_repeat k (length group) p).
    split; [by rewrite (Hnum k r Hk), Hr|].
    split; [apply set_repeat_same|]. left. split; [done|].
    exists k. split; [done|].
    unfold prefix_of. cbn [repeatTotal set_repeat patternId repeatIndex].
    by rewrite (proj2 (Nat.ltb_lt _ _) Hlt).
  - exists p. split; [apply detectRepeatablePatterns_small; [done|]; fold group; lia|].
    split; [apply same_match_refl|]. right. split; [lia|].
    unfold prefix_of. rewrite Hnone; [done|]. by eapply list_elem_of_lookup_2.
Qed.

(** Prefixes tell the matches apart. *)
Lemma prefixes_distinct (patterns : list PatternMatch) :
  (forall q, q ∈ patterns ->
     repeatTotal q = None
     /\ free_of "_" (patternId q) /\ free_of "." (patternId q)) ->
  NoDup (prefix_of <$> detectRepeatablePatterns patterns)
  /\ Forall (fun p' => free_of "." (prefix_of p'))
       (detectRepeatablePatterns patterns).
Proof.
  intros Hq.
  assert (Hnone : forall q, q ∈ patterns -> repeatTotal q = None)
    by (intros q Hin; by destruct (Hq q Hin)).
  pose proof (detectRepeatablePatterns_group patterns "") as [Hsame _].
  assert (Hdesc : forall r p', detectRepeatablePatterns patterns !! r = Some p' ->
            exists p, patterns !! r = Some p /\ same_match p p'
              /\ free_of "_" (patternId p) /\ free_of "." (patternId p)
              /\ (((1 < length (refs_of patterns (patternId p)))%nat
                   /\ exists k,
                        Array_sort (by_position_ref patterns)
                          (refs_of patterns (patternId p)) !! k = Some r
                        /\ prefix_of p'
                           = (patternId p +:+ "_" +:+ string_of_nat k)%string)
                  \/ ((length (refs_of patterns (patternId p)) <= 1)%nat
                      /\ prefix_of p' = patternId p))).
  { intros r p' Hp'.
    destruct (Forall2_lookup_r _ _ _ _ _ Hsame Hp') as (p & Hp & _).
    destruct (prefix_after_detect patterns r p Hnone Hp)
      as (p'' & Hp'' & Hsm & Hcases).
    rewrite Hp' in Hp''. injection Hp'' as <-.
    exists p. split; [done|]. split; [done|].
    destruct (Hq p) as (_ & H1 & H2); [by eapply list_elem_of_lookup_2|].
    done. }
  split.
  - apply NoDup_alt. intros r1 r2 pre H1 H2.
    apply list_lookup_fmap_Some in H1 as (p1' & -> & Hr1).
    apply list_lookup_fmap_Some in H2 as (p2' & Heq & Hr2).
    destruct (Hdesc _ _ Hr1) as (p1 & Hp1 & _ & Hu1 & _ & Hc1).
    destruct (Hdesc _ _ Hr2) as (p2 & Hp2 & _ & Hu2 & _ & Hc2).
    destruct Hc1 as [(Hlen1 & k1 & Hk1 & Hpre1)|(Hlen1 & Hpre1)];
      destruct Hc2 as [(Hlen2 & k2 & Hk2 & Hpre2)|(Hlen2 & Hpre2)];
      rewrite Hpre1, Hpre2 in Heq.
    + apply key_number_inj in Heq as [Ht Hk];
        try apply string_of_nat_free.
      apply string_of_nat_inj in Hk. subst k2. rewrite Ht in Hk1.
      rewrite Hk1 in Hk2. by injection Hk2.
    + exfalso. rewrite <- Heq in Hu2. by apply free_of_app in Hu2.
    + exfalso. rewrite Heq in Hu1. by apply free_of_app in Hu1.
    + assert (Hin1 : r1 ∈ refs_of patterns (patternId p1))
        by (apply refs_of_spec; eauto).
      assert (Hin2 : r2 ∈ refs_of patterns (patternId p1))
        by (apply refs_of_spec; eauto).
      destruct (refs_of patterns (patternId p1)) as [|a [|b rest]];
        [by apply elem_of_nil in Hin1| |cbn [length] in Hlen1; lia].
      apply list_elem_of_singleton in Hin1, Hin2. congruence.
  - apply Forall_forall. intros p' Hin.
    apply list_elem_of_lookup in Hin as [r Hr].
    destruct (Hdesc _ _ Hr) as (p & _ & _ & _ & Hdot & Hc).
    destruct Hc as [(_ & k & _ & ->)|(_ & ->)]; [|done].
    apply free_of_append; [done|].
    apply (free_of_append "." "_"); [|apply string_of_nat_free_dot].
    split; [discriminate|exact I].
Qed.

Lemma variables_of_Some (p : PatternMatch)
    (l : list (string * option TagRecord)) :
  Forall (fun e => is_Some (snd e)) l ->
  exists vs,
    mapM (variable_of p) l = Some vs
    /\ variableId <$> vs
       = map (fun k => (prefix_of p +:+ "." +:+ k)%string) l.*1.
Proof.
  induction l as [|[k field] l IH].
  - intros _. by exists [].
  - intros [Hf Hall]%Forall_cons. cbn [snd] in Hf. destruct Hf as [f ->].
    destruct (IH Hall) as (vs & Hvs & Hids).
    eexists. split.
    + simpl. rewrite Hvs. simpl. reflexivity.
    + cbn [fmap list_fmap variableId map fst]. f_equal. exact Hids.
Qed.

Lemma generatePatternVariableIds_Some (out : list PatternMatch) :
  Forall (fun p => forall k field, fields p !! k = Some field -> is_Some field)
    out ->
  exists variables,
    generatePatternVariableIds out = Some variables
    /\ variableId <$> variables
       = concat (map (fun e => map (fun k => (fst e +:+ "." +:+ k)%string)
                                 (snd e))
                   ((fun p => (prefix_of p, (map_to_list (fields p)).*1))
                      <$> out)).
Proof.
  unfold generatePatternVariableIds.
  induction out as [|p out IH].
  - intros _. by exists [].
  - intros [Hp Hall]%Forall_cons.
    destruct (IH Hall) as (vars & Hvars & Hids).
    destruct (variables_of_Some p (map_to_list (fields p))) as (vs & Hvs & Hv).
    { apply Forall_forall. intros [k field] Hin. cbn [snd].
      apply elem_of_map_to_list in Hin. by eapply Hp. }
    destruct (mapM _ out) as [perMatch|] eqn:Hout; [|discriminate Hvars].
    cbn [fmap option_fmap option_map] in Hvars. injection Hvars as <-.
    exists (vs ++ concat perMatch). split.
    + simpl. rewrite Hvs. simpl. rewrite Hout. reflexivity.
    + rewrite fmap_app, Hv, Hids. reflexivity.
Qed.

(** X15.  The variables of the patterns of a document are named apart:
    [generatePatternVariableIds] applied to the matches of [matchAll]
    reads no field that holds [undefined], and no two of the variable
    ids it builds are the same. *)
Theorem pattern_variable_ids_distinct (elements : list Element) :
  exists variables,
    generatePatternVariableIds (matchAll_patterns elements) = Some variables
    /\ NoDup (variableId <$> variables).
Proof.
  unfold matchAll_patterns.
  set (patterns := match_groups elements).
  assert (Hq : forall q, q ∈ patterns ->
            repeatTotal q = None
            /\ free_of "_" (patternId q) /\ free_of "." (patternId q)).
  { intros q Hin.
    destruct (match_groups_origin _ _ Hin)
      as (group & pattern & _ & Hcat & _ & ->).
    split; [reflexivity|]. by apply catalog_plain_ids. }
  destruct (prefixes_distinct patterns Hq) as [Hnd Hfree].
  pose proof (detectRepeatablePatterns_group patterns "") as [Hsame _].
  destruct (generatePatternVariableIds_Some
              (detectRepeatablePatterns patterns))
    as (variables & Hvars & Hids).
  { apply Forall_forall. intros p' Hin k field.
    apply list_elem_of_lookup in Hin as [r Hr].
    destruct (Forall2_lookup_r _ _ _ _ _ Hsame Hr) as (p & Hp & Hpp').
    apply list_elem_of_lookup_2 in Hp.
    destruct (match_groups_origin _ _ Hp)
      as (group & pattern & _ & _ & Hsat & Hmeq).
    destruct Hpp' as (_ & _ & _ & _ & _ & _ & Hfields & _).
    rewrite Hfields, Hmeq. cbn [fields build_match]. intros Hk.
    destruct (build_fields_bound _ _ _ _ Hsat Hk) as (_ & record & -> & _).
    eauto. }
  exists variables. split; [exact Hvars|]. rewrite Hids.
  apply NoDup_prefixed.
  - rewrite <- list_fmap_compose. exact Hnd.
  - apply Forall_fmap, Forall_forall. intros p' Hin. cbn [fst snd compose].
    split.
    + rewrite Forall_forall in Hfree. by apply Hfree.
    + apply NoDup_fst_map_to_list.
Qed.

Lemma append_assoc (s1 s2 s3 : string) :
  ((s1 +:+ s2) +:+ s3 = s1 +:+ (s2 +:+ s3))%string.
Proof.
  induction s1 as [|c s1 IH]; rewrite ?append_empty, ?append_String;
    [done|by rewrite IH].
Qed.

(** X16.  The ids follow the composite format of [VariableNamer.generateId]:
    for a match with a pattern id, the id of a field is what the namer
    returns for the pattern id, the field name and the repeat index
    (left out when the match is not one of a repeated group), and the
    namer's counters are not touched. *)
Theorem pattern_variable_id_format (p : PatternMatch) (k : string)
    (counters : gmap string nat) :
  patternId p <> ""%string ->
  let index :=
    match repeatTotal p with
    | Some total =>
        if (1 <? total)%nat then VariableNamer.IndexNumber (repeatIndex p)
        else VariableNamer.IndexUndefined
    | None => VariableNamer.IndexUndefined
    end in
  VariableNamer.generateId (Some (patternId p)) (Some k) index counters
  = ((prefix_of p +:+ "." +:+ k)%string, counters).
Proof.
  intros Hne. cbv zeta. unfold VariableNamer.generateId, prefix_of.
  cbn [VariableNamer.truthy VariableNamer.text_of].
  rewrite (proj2 (String.eqb_neq _ _) Hne). cbn [negb andb].
  destruct (repeatTotal p) as [total|]; [|done].
  destruct (1 <? total)%nat; [|done].
  cbn [VariableNamer.index_text negb]. by rewrite !append_assoc.
Qed.

Lemma pattern_variable_id_format_witness :
  VariableNamer.generateId (Some "guest"%string) (Some "name"%string)
    (VariableNamer.IndexNumber 1) ∅
  = ("guest_1.name"%string, ∅).
Proof.
  apply (pattern_variable_id_format
           (set_repeat 1 2 (guest_at "group_2" 200 105)) "name" ∅).
  discriminate.
Defined.

End generatePatternVariableIds_facts.

(** ** PatternMatcher: the summary *)

Section generateSummary_facts.
Import JS PatternMatcher PatternScoring RepeatSpec.

Lemma refs_from_length (patterns : list PatternMatch) (i j : nat)
    (t : string) :
  length (refs_from patterns i t) = length (refs_from patterns j t).
Proof.
  revert i j. induction patterns as [|p rest IH]; intros i j; [done|].
  cbn [refs_from]. destruct (String.eqb (patternId p) t); cbn [length];
    by rewrite (IH (S i) (S j)).
Qed.

Lemma count_type_fold (patterns : list PatternMatch)
    (byType : gmap string nat) (t : string) :
  fold_left count_type patterns byType !! t
  = match length (refs_of patterns t) with
    | O => byType !! t
    | S n => Some (default 0 (byType !! t) + S n)%nat
    end.
Proof.
  unfold refs_of. revert byType.
  induction patterns as [|p rest IH]; intros byType; [done|].
  cbn [fold_left refs_from]. rewrite IH. unfold count_type.
  destruct (String.eqb (patternId p) t) eqn:Hp.
  - apply String.eqb_eq in Hp. subst t. rewrite lookup_insert_eq.
    cbn [length]. rewrite (refs_from_length rest 1 0).
    destruct (length (refs_from rest 0 (patternId p))); simpl; f_equal; lia.
  - apply String.eqb_neq in Hp. rewrite lookup_insert_ne by done.
    by rewrite (refs_from_length rest 1 0).
Qed.

Lemma refs_from_same (ps qs : list PatternMatch) (i : nat) (t : string) :
  Forall2 same_match ps qs -> refs_from qs i t = refs_from ps i t.
Proof.
  intros H. revert i. induction H as [|p q ps qs Hpq _ IH]; intros i; [done|].
  cbn [refs_from]. destruct Hpq as (-> & _). by rewrite IH.
Qed.

(** X17.  The summary of the matches of a document: [totalPatterns] is
    their number, [byType] holds for each pattern id the number of
    matches with that id (and no entry for an id without match), and
    for every match that was numbered this number is its
    [repeatTotal]; [byCategory] stays empty. *)
Theorem matchAll_summary (elements : list Element) :
  let out := matchAll_patterns elements in
  let summary := generateSummary out in
  totalPatterns summary = length out
  /\ (forall t,
        byType summary !! t
        = match length (refs_of out t) with
          | O => None
          | n => Some n
          end)
  /\ Forall (fun p => forall N, repeatTotal p = Some N ->
               byType summary !! patternId p = Some N) out
  /\ byCategory summary = ∅.
Proof.
  intros out summary. split; [reflexivity|].
  assert (Hcount : forall t,
            byType summary !! t
            = match length (refs_of out t) with
              | O => None
              | n => Some n
              end).
  { intros t. unfold summary, generateSummary. cbn [byType].
    rewrite count_type_fold, lookup_empty.
    by destruct (length (refs_of out t)). }
  split; [exact Hcount|]. split; [|reflexivity].
  apply Forall_forall. intros p' Hin N HN.
  apply list_elem_of_lookup in Hin as [r Hr].
  unfold out, matchAll_patterns in Hr.
  set (patterns := match_groups elements) in *.
  pose proof (detectRepeatablePatterns_group patterns "") as [Hsame _].
  destruct (Forall2_lookup_r _ _ _ _ _ Hsame Hr) as (p & Hp & Hpp').
  assert (Hnone : repeatTotal p = None).
  { apply list_elem_of_lookup_2 in Hp.
    destruct (match_groups_origin _ _ Hp) as (? & ? & _ & _ & _ & ->).
    reflexivity. }
  assert (Hid : patternId p' = patternId p) by apply Hpp'.
  rewrite Hcount, Hid. unfold out, matchAll_patterns. fold patterns.
  unfold refs_of. rewrite (refs_from_same _ _ 0 _ Hsame).
  fold (refs_of patterns (patternId p)).
  destruct (decide (1 < length (refs_of patterns (patternId p)))%nat)
    as [Hlt|Hle].
  - pose proof (detectRepeatablePatterns_group patterns (patternId p))
      as [_ Hnum].
    cbv zeta in Hnum. specialize (Hnum Hlt).
    assert (Hin : r ∈ Array_sort (by_position_ref patterns)
                        (refs_of patterns (patternId p))).
    { apply Array_sort_elem_of, refs_of_spec. eauto. }
    apply list_elem_of_lookup in Hin as [k Hk].
    rewrite (Hnum k r Hk), Hp in Hr. injection Hr as <-.
    cbn [repeatTotal set_repeat] in HN. injection HN as <-.
    destruct (length (refs_of patterns (patternId p))); [lia|done].
  - rewrite (detectRepeatablePatterns_small patterns r p Hp) in Hr by lia.
    injection Hr as <-. congruence.
Qed.

End generateSummary_facts.

(** ** MultiTagDetector: order and types of the tags *)

Section tag_order_facts.
Import JS Regex MultiTagDetector MultiTagDetectorMedia TagOrderSpec.

Lemma by_confidence_sorted (l : list Tag) :
  descending (Array_sort (fun a b => (confidence b - confidence a)%Q) l).
Proof.
  pose proof (Array_sort_sorted
                (fun a b : Tag => (confidence b - confidence a)%Q)
                (fun _ => True)) as Hs.
  assert (Hsorted : StronglySorted
            (fun a b : Tag => (confidence b - confidence a <= 0)%Q)
            (Array_sort (fun a b => (confidence b - confidence a)%Q) l)).
  { apply Hs.
    - intros a b _ _ H. lra.
    - intros a b c _ _ _ H1 H2. lra.
    - apply Forall_forall. done. }
  unfold descending.
  induction Hsorted as [|a l' _ IH Ha]; constructor; [done|].
  eapply Forall_impl; [exact Ha|]. cbv beta. intros b Hb. lra.
Qed.

Lemma descending_head (l : list Tag) (h t : Tag) :
  descending l -> head l = Some h -> t ∈ l ->
  (confidence t <= confidence h)%Q.
Proof.
  intros Hs Hh Ht. destruct l as [|a l]; [done|].
  injection Hh as ->. apply elem_of_cons in Ht as [->|Ht]; [lra|].
  apply StronglySorted_inv in Hs as [_ Hall].
  rewrite Forall_forall in Hall. by apply Hall.
Qed.

Lemma push_if_types (cond : bool) (tag : Tag) (l : list Tag)
    (names names' : list string) :
  names' = names ++ [type tag] ->
  type <$> l `sublist_of` names ->
  type <$> push_if cond tag l `sublist_of` names'.
Proof.
  intros -> H. unfold push_if. destruct cond.
  - rewrite fmap_app. by apply sublist_app.
  - by apply sublist_inserts_r.
Qed.

Ltac push_types :=
  match goal with
  | |- _ `sublist_of` ?names =>
      apply (push_if_types _ _ _ (removelast names)); [reflexivity|];
      cbn [removelast]
  end.

Lemma collect_tags_types (trimmed : jsstring) :
  type <$> collect_tags trimmed `sublist_of` text_types.
Proof.
  unfold collect_tags, rule_tags, text_types.
  do 13 push_types. apply sublist_nil_l.
Qed.

Lemma image_tags_types (width height : Q) :
  type <$> image_tags width height `sublist_of` image_types.
Proof.
  unfold image_tags, image_types.
  do 6 push_types. apply sublist_nil_l.
Qed.

Lemma text_types_NoDup : NoDup text_types.
Proof. apply (bool_decide_unpack _). vm_compute. exact I. Qed.

Lemma image_types_NoDup : NoDup image_types.
Proof. apply (bool_decide_unpack _). vm_compute. exact I. Qed.

Lemma collect_tags_varType (trimmed : jsstring) (t : Tag) :
  t ∈ collect_tags trimmed -> getVarType (type t) = varType t.
Proof.
  unfold collect_tags, rule_tags. rewrite !elem_of_push_if, elem_of_nil.
  intros H.
  repeat (destruct H as [H|[_ ->]]; [|reflexivity]). done.
Qed.

(** X18.  The tags that [detectText] returns are in the order of falling
    confidence, no type occurs twice among them, [getVarType] maps the
    type of each tag to the variable type the tag carries, and
    [maxConfidence] is the confidence of the first tag, which none of
    the tags exceeds. *)
Theorem detectText_tags_ordered (content : option jsstring) :
  let d := detectText content in
  descending (tags d)
  /\ NoDup (type <$> tags d)
  /\ Forall (fun t => getVarType (type t) = varType t) (tags d)
  /\ Forall (fun t => exists m, maxConfidence d = Some m
                                /\ (confidence t <= m)%Q) (tags d).
Proof.
  destruct content as [[|c content]|];
    try (cbn; repeat split; constructor).
  cbv zeta. rewrite detectText_tags.
  set (sorted := Array_sort _ _).
  assert (Hs : descending sorted) by apply by_confidence_sorted.
  split; [exact Hs|]. split; [|split].
  - apply (NoDup_Permutation_proper _ (type <$> collect_tags (trim (c :: content)))).
    + apply fmap_Permutation, Array_sort_perm.
    + eapply sublist_NoDup; [|apply collect_tags_types].
      apply text_types_NoDup.
  - apply Forall_forall. intros t Ht.
    apply Array_sort_elem_of in Ht. by eapply collect_tags_varType.
  - apply Forall_forall. intros t Ht. cbn [maxConfidence detectText].
    fold sorted. destruct (head sorted) as [h|] eqn:Hh.
    + exists (confidence h). split; [done|]. by eapply descending_head.
    + destruct sorted; [by apply elem_of_nil in Ht|done].
Qed.

Lemma elem_of_image_tags (width height : Q) (t : Tag) :
  t ∈ image_tags width height ->
  t ∈ [ {| type := "avatar"; varType := AVATAR; confidence := 0.85 |};
        {| type := "qrcode"; varType := QRCODE; confidence := 0.8 |};
        {| type := "logo"; varType := LOGO; confidence := 0.6 |};
        {| type := "banner"; varType := BANNER; confidence := 0.85 |};
        {| type := "photo"; varType := PHOTO; confidence := 0.6 |};
        {| type := "image"; varType := IMAGE; confidence := 0.5 |} ].
Proof.
  unfold image_tags. rewrite !elem_of_push_if, elem_of_nil.
  rewrite !elem_of_cons, elem_of_nil. intros H.
  repeat (destruct H as [H|[_ ->]]; [|tauto]). done.
Qed.

Lemma image_tags_nonempty (width height : Q) : image_tags width height <> [].
Proof.
  unfold image_tags.
  match goal with
  | |- push_if (Nat.eqb (length ?l) 0) _ _ <> [] => destruct l as [|a l']
  end; cbn [length Nat.eqb push_if app]; discriminate.
Qed.

Lemma qrcode_needs_avatar (width height : Q) :
  {| type := "qrcode"; varType := QRCODE; confidence := 0.8 |}
    ∈ image_tags width height ->
  {| type := "avatar"; varType := AVATAR; confidence := 0.85 |}
    ∈ image_tags width height
  /\ {| type := "banner"; varType := BANNER; confidence := 0.85 |}
       ∉ image_tags width height.
Proof.
  intros H.
  assert (Hq : gt (ratio_of width height) 0.95
               && lt (ratio_of width height) 1.05
               && Qle_bool 80 width && Qle_bool width 300 = true).
  { unfold image_tags in H. rewrite !elem_of_push_if, elem_of_nil in H.
    repeat (destruct H as [H|[Hc Heq]];
            [|try discriminate Heq; try exact Hc]).
    done. }
  clear H. rewrite !andb_true_iff, gt_spec, lt_spec, !Qle_bool_iff in Hq.
  destruct Hq as [[[H1 H2] H3] H4]. split.
  - unfold image_tags. rewrite !elem_of_push_if, elem_of_nil.
    do 5 left. right. split; [|done].
    rewrite !andb_true_iff, gt_spec, lt_spec, !Qle_bool_iff.
    repeat split; lra.
  - intros H. unfold image_tags in H.
    rewrite !elem_of_push_if, elem_of_nil in H.
    repeat (destruct H as [H|[Hc Heq]]; [|try discriminate Heq]);
      try done.
    rewrite andb_true_iff, !gt_spec in Hc. lra.
Qed.

Lemma detectImage_parts_full (width height : Q) :
  let d := detectImage width height in
  tags d <> []
  /\ descending (tags d)
  /\ NoDup (type <$> tags d)
  /\ exists p,
       primaryType d = Some p
       /\ key p <> "qrcode"%string
       /\ ("qrcode"%string ∈ (type <$> tags d) -> p = AVATAR).
Proof.
  cbv zeta. unfold detectImage. cbn [tags primaryType].
  set (sorted := Array_sort _ _).
  assert (Hperm : sorted ≡ₚ image_tags width height)
    by apply Array_sort_perm.
  assert (Hs : descending sorted) by apply by_confidence_sorted.
  assert (Hne : sorted <> []).
  { intros Hnil. rewrite Hnil in Hperm. symmetry in Hperm.
    apply Permutation_nil_r in Hperm.
    by apply (image_tags_nonempty width height). }
  split; [exact Hne|]. split; [exact Hs|]. split.
  { apply (NoDup_Permutation_proper _ (type <$> image_tags width height)).
    - by apply fmap_Permutation.
    - eapply sublist_NoDup; [apply image_types_NoDup|apply image_tags_types]. }
  clearbody sorted. destruct sorted as [|h rest]; [done|].
  exists (varType h). split; [done|].
  assert (Hh : h ∈ image_tags width height).
  { rewrite <- Hperm. apply elem_of_cons. by left. }
  assert (Hmax : forall t, t ∈ image_tags width height ->
            (confidence t <= confidence h)%Q).
  { intros t Ht. apply (descending_head (h :: rest)); [done|done|].
    by rewrite Hperm. }
  pose proof (elem_of_image_tags _ _ _ Hh) as Hcases.
  split.
  - intros Hkey.
    rewrite !elem_of_cons, elem_of_nil in Hcases.
    destruct Hcases as [->|[->|[->|[->|[->|[->|[]]]]]]]; try discriminate Hkey.
    destruct (qrcode_needs_avatar _ _ Hh) as [Hav _].
    specialize (Hmax _ Hav). cbn [confidence] in Hmax. lra.
  - intros Hq. apply list_elem_of_fmap in Hq as (q & Hq & Hin).
    rewrite Hperm in Hin.
    pose proof (elem_of_image_tags _ _ _ Hin) as Hqc.
    assert (q = {| type := "qrcode"; varType := QRCODE; confidence := 0.8 |})
      as ->.
    { rewrite !elem_of_cons, elem_of_nil in Hqc.
      destruct Hqc as [->|[->|[->|[->|[->|[->|[]]]]]]];
        try discriminate Hq. done. }
    destruct (qrcode_needs_avatar _ _ Hin) as [Hav Hnb].
    specialize (Hmax _ Hav). cbn [confidence] in Hmax.
    rewrite !elem_of_cons, elem_of_nil in Hcases.
    destruct Hcases as [->|[->|[->|[->|[->|[->|[]]]]]]];
      cbn [confidence varType] in *; try lra; [done|contradiction].
Qed.

Lemma detectImage_parts (width height : Q) :
  exists p,
    primaryType (detectImage width height) = Some p
    /\ key p <> "qrcode"%string.
Proof.
  destruct (detectImage_parts_full width height)
    as (_ & _ & _ & p & Hp & Hk & _).
  eauto.
Qed.

(** X19.  [detectImage] always returns at least one tag, in the order of
    falling confidence and without a repeated type.  The primary type
    is never the QR code: whenever the QR-code tag is given, so is the
    avatar tag with a higher confidence, and the primary type is the
    avatar. *)
Theorem detectImage_primary (width height : Q) :
  let d := detectImage width height in
  tags d <> []
  /\ descending (tags d)
  /\ NoDup (type <$> tags d)
  /\ exists p,
       primaryType d = Some p
       /\ key p <> "qrcode"%string
       /\ ("qrcode"%string ∈ (type <$> tags d) -> p = AVATAR).
Proof. apply detectImage_parts_full. Qed.

End tag_order_facts.

(** ** VariableDetectorV2 *)

Section processElements_facts.
Import JS MultiTagDetector MultiTagDetectorMedia VariableDetectorV2.
Import VariablesSpec NamerSpec TagOrderSpec.

(** Every image and every path gets a primary type. *)
Lemma detect_drawn (elem : Element) : drawn elem -> is_Some (detect elem).
Proof.
  unfold drawn, detect. intros H.
  assert (Htext : String.eqb (type elem) "text" = false).
  { apply String.eqb_neq. intros Heq. rewrite Heq in H.
    destruct H as [H|[H|[H|H]]]; discriminate H. }
  rewrite Htext. cbn [andb].
  destruct (String.eqb (type elem) "image_embedded"
            || String.eqb (type elem) "image_linked") eqn:Himg.
  - destruct (detectImage_parts
                (match size elem with Some s => s.1 | None => 0%Q end)
                (match size elem with Some s => s.2 | None => 0%Q end))
      as (p & -> & _). eauto.
  - destruct (String.eqb (type elem) "path"
              || String.eqb (type elem) "compound_path") eqn:Hpath; [eauto|].
    exfalso. apply orb_false_iff in Himg as [H1 H2], Hpath as [H3 H4].
    apply String.eqb_neq in H1, H2, H3, H4. tauto.
Qed.

Lemma allocate_NoDup (fieldTypes : list (option string)) :
  NoDup (VariableNamer.pass fieldTypes).
Proof.
  assert (Hlookup : forall i t, fieldTypes !! i = Some t ->
            VariableNamer.pass fieldTypes !! i
            = Some (VariableNamer.key_of t +:+ "_"
                    +:+ string_of_nat
                          (earlier fieldTypes i (VariableNamer.key_of t)))%string).
  { intros i t Hi. unfold VariableNamer.pass, VariableNamer.reset.
    rewrite (allocate_lookup _ _ _ _ Hi). by rewrite lookup_empty. }
  assert (Hlt : forall i j ti tj, (i < j)%nat ->
            fieldTypes !! i = Some ti -> fieldTypes !! j = Some tj ->
            VariableNamer.pass fieldTypes !! i
            <> VariableNamer.pass fieldTypes !! j).
  { intros i j ti tj Hij Hi Hj.
    rewrite (Hlookup _ _ Hi), (Hlookup _ _ Hj). intros [= Heq].
    apply key_number_inj in Heq as [Hk Hn];
      try apply string_of_nat_free.
    apply string_of_nat_inj in Hn.
    unfold earlier in Hn. rewrite <- Hk in Hn.
    rewrite <- (take_drop i (take j fieldTypes)) in Hn.
    rewrite take_take, Nat.min_l in Hn by lia.
    rewrite filter_app, length_app in Hn.
    assert (Hd : drop i (take j fieldTypes) !! 0%nat = Some ti).
    { rewrite lookup_drop, Nat.add_0_r, lookup_take_lt by lia. done. }
    destruct (drop i (take j fieldTypes)) as [|t' rest]; [done|].
    injection Hd as ->.
    rewrite filter_cons_True in Hn by done. simpl in Hn. lia. }
  apply NoDup_alt. intros i j s Hi Hj.
  assert (Hi' : is_Some (fieldTypes !! i)).
  { apply lookup_lt_is_Some.
    rewrite <- (allocate_length _ VariableNamer.reset).
    by eapply lookup_lt_Some. }
  assert (Hj' : is_Some (fieldTypes !! j)).
  { apply lookup_lt_is_Some.
    rewrite <- (allocate_length _ VariableNamer.reset).
    by eapply lookup_lt_Some. }
  destruct Hi' as [ti Hti], Hj' as [tj Htj].
  destruct (Nat.lt_trichotomy i j) as [Hlt'|[->|Hgt]]; [|done|].
  - exfalso. apply (Hlt _ _ _ _ Hlt' Hti Htj). congruence.
  - exfalso. apply (Hlt _ _ _ _ Hgt Htj Hti). congruence.
Qed.

(** What one round of the loop adds. *)
Lemma step_wanted (st : Progress) (e : Element) :
  (forall v, preset e = Some v -> variableKey v = ""%string) ->
  match wanted e with
  | Some k =>
      let alloc := VariableNamer.generateId None (Some k)
                     VariableNamer.IndexNull (counters st) in
      exists v,
        variables (step st e) = variables st ++ [v]
        /\ var_key v = fst alloc
        /\ elementId v = id e
        /\ variableMap (step st e) = <[fst alloc := id e]> (variableMap st)
        /\ counters (step st e) = snd alloc
  | None =>
      variables (step st e) = variables st
      /\ variableMap (step st e) = variableMap st
      /\ counters (step st e) = counters st
  end.
Proof.
  intros Hkey. unfold wanted, step.
  destruct (preset e) as [v|] eqn:Hp.
  - rewrite (Hkey v eq_refl). cbn [String.eqb]. cbv zeta.
    destruct (VariableNamer.generateId _ _ _ _) as [varKey counters'].
    eexists. cbn [variables variableMap counters fst snd var_key elementId].
    repeat (split; [reflexivity|]). reflexivity.
  - destruct (detect e) as [[[primary types] conf]|]; [|done].
    cbv zeta. destruct (VariableNamer.generateId _ _ _ _) as [varId counters'].
    eexists. cbn [variables variableMap counters fst snd var_key elementId].
    repeat (split; [reflexivity|]). reflexivity.
Qed.

Lemma fold_step (elements : list Element) (st : Progress) :
  keys_from_namer elements ->
  let final := fold_left step elements st in
  exists new,
    variables final = variables st ++ new
    /\ var_key <$> new
       = VariableNamer.allocate (Some <$> omap wanted elements) (counters st)
    /\ elementId <$> new
       = id <$> filter (fun e => is_Some (wanted e)) elements
    /\ variableMap final
       = fold_left (fun m v => <[var_key v := elementId v]> m) new
           (variableMap st).
Proof.
  revert st. induction elements as [|e rest IH]; intros st Hkeys.
  - exists []. cbn. by rewrite app_nil_r.
  - assert (Hrest : keys_from_namer rest).
    { intros e' v He'. apply Hkeys, elem_of_cons. by right. }
    assert (He : forall v, preset e = Some v -> variableKey v = ""%string).
    { intros v. apply Hkeys, elem_of_cons. by left. }
    cbn [fold_left]. cbv zeta.
    destruct (IH (step st e) Hrest) as (new & Hvars & Hk & Hids & Hmap).
    cbv zeta in Hvars, Hk, Hids, Hmap.
    pose proof (step_wanted st e He) as Hstep.
    cbn [omap list_omap].
    destruct (wanted e) as [k|] eqn:Hw.
    + cbv zeta in Hstep.
      destruct Hstep as (v & Hv & Hvk & Hvid & Hvm & Hvc).
      exists (v :: new). rewrite Hvars, Hv, <- app_assoc. split; [done|].
      rewrite filter_cons_True by (rewrite Hw; eauto).
      cbn [fmap list_fmap VariableNamer.allocate fold_left].
      destruct (VariableNamer.generateId None (Some k)
                  VariableNamer.IndexNull (counters st)) as [key0 c0] eqn:Hg.
      cbn [fst snd] in *. rewrite Hvc in Hk.
      split; [by rewrite Hvk; f_equal|].
      split; [by rewrite Hvid; f_equal|].
      by rewrite Hmap, Hvm, Hvk, Hvid.
    + destruct Hstep as (Hv & Hvm & Hvc).
      exists new. rewrite Hvars, Hv. split; [done|].
      rewrite filter_cons_False by (rewrite Hw; by intros [? ?]).
      rewrite Hvc in Hk. split; [done|]. split; [done|].
      by rewrite Hmap, Hvm.
Qed.

Lemma fold_insert_lookup (new : list VarInfo) (m : gmap string string)
    (v : VarInfo) :
  NoDup (var_key <$> new) -> v ∈ new ->
  fold_left (fun m v => <[var_key v := elementId v]> m) new m !! var_key v
  = Some (elementId v).
Proof.
  revert m. induction new as [|a new IH]; intros m Hnd Hin.
  - by apply elem_of_nil in Hin.
  - cbn [fmap list_fmap] in Hnd. apply NoDup_cons in Hnd as [Hfresh Hnd].
    cbn [fold_left]. apply elem_of_cons in Hin as [->|Hin]; [|by apply IH].
    clear IH. revert m Hfresh. induction new as [|b new IH]; intros m Hfresh.
    + cbn. by rewrite lookup_insert_eq.
    + cbn [fold_left]. cbn [fmap list_fmap] in *.
      apply NoDup_cons in Hnd as [_ Hnd].
      apply not_elem_of_cons in Hfresh as [Hne Hfresh].
      rewrite insert_insert_ne by done. by apply IH.
Qed.

Lemma fold_insert_dom (new : list VarInfo) (m : gmap string string) :
  dom (fold_left (fun m v => <[var_key v := elementId v]> m) new m)
  = list_to_set (var_key <$> new) ∪ dom m.
Proof.
  revert m. induction new as [|a new IH]; intros m; cbn [fold_left].
  - cbn. by rewrite union_empty_l_L.
  - rewrite IH, dom_insert_L. cbn [fmap list_fmap list_to_set].
    rewrite !union_assoc_L. f_equal. apply union_comm_L.
Qed.

(** X20.  When no element brings a key of its own, the keys of the
    variables are the ids that the namer hands out, one after the
    other, for the type keys of the elements that become variables:
    they are pairwise distinct, [variableMap] sends the key of each
    variable to its element, and it has as many entries as there are
    variables. *)
Theorem processElements_keys (elements : list Element) :
  keys_from_namer elements ->
  let r := processElements elements in
  var_key <$> result_variables r
  = VariableNamer.pass (Some <$> omap wanted elements)
  /\ elementId <$> result_variables r
     = id <$> filter (fun e => is_Some (wanted e)) elements
  /\ NoDup (var_key <$> result_variables r)
  /\ Forall (fun v => result_variableMap r !! var_key v = Some (elementId v))
       (result_variables r)
  /\ stdpp.base.size (result_variableMap r) = totalVariables r.
Proof.
  intros Hkeys r.
  destruct (fold_step elements
              {| seen := []; variables := []; variableMap := ∅;
                 counters := VariableNamer.reset |} Hkeys)
    as (new & Hvars & Hk & Hids & Hmap).
  cbv zeta in Hvars, Hk, Hids, Hmap.
  cbn [variables variableMap counters app] in Hvars, Hk, Hids, Hmap.
  unfold r, processElements.
  cbn [result_variables result_variableMap totalVariables].
  rewrite Hvars, Hmap.
  assert (Hnd : NoDup (var_key <$> new)).
  { rewrite Hk. apply allocate_NoDup. }
  split; [exact Hk|]. split; [exact Hids|]. split; [exact Hnd|]. split.
  - apply Forall_forall. intros v Hv. by apply fold_insert_lookup.
  - rewrite <- size_dom, fold_insert_dom, dom_empty_L, union_empty_r_L.
    rewrite size_list_to_set by done. by rewrite length_fmap.
Qed.

Lemma processElements_keys_witness :
  keys_from_namer sample_elements
  /\ var_key <$> result_variables (processElements sample_elements)
     = ["shape_0"; "logo_0"; "date_0"; "shape_1"]%string.
Proof.
  assert (H : keys_from_namer sample_elements).
  { intros e v He.
    repeat (apply elem_of_cons in He as [->|He]; [discriminate|]).
    by apply elem_of_nil in He. }
  split; [exact H|].
  destruct (processElements_keys sample_elements H) as [-> _].
  vm_compute. reflexivity.
Defined.

Lemma step_ids (st : Progress) (e : Element) :
  elementId <$> variables (step st e)
  = (elementId <$> variables st)
    ++ (if decide (is_Some (wanted e)) then [id e] else []).
Proof.
  unfold wanted, step.
  destruct (preset e) as [v|].
  - rewrite decide_True by eauto.
    destruct (if String.eqb (variableKey v) "" then _ else _)
      as [varKey counters'].
    cbn [variables]. by rewrite fmap_app.
  - destruct (detect e) as [[[primary types] conf]|].
    + rewrite decide_True by eauto.
      destruct (VariableNamer.generateId _ _ _ _) as [varId counters'].
      cbn [variables]. by rewrite fmap_app.
    + rewrite decide_False by (by intros [? ?]).
      cbn [variables]. by rewrite app_nil_r.
Qed.

Lemma fold_step_ids (elements : list Element) (st : Progress) :
  elementId <$> variables (fold_left step elements st)
  = (elementId <$> variables st)
    ++ (id <$> filter (fun e => is_Some (wanted e)) elements).
Proof.
  revert st. induction elements as [|e rest IH]; intros st.
  - cbn. by rewrite app_nil_r.
  - cbn [fold_left]. rewrite IH, step_ids, <- app_assoc. f_equal.
    destruct (decide (is_Some (wanted e))).
    + by rewrite filter_cons_True.
    + by rewrite filter_cons_False.
Qed.

Lemma wanted_drawn (e : Element) : drawn e -> is_Some (wanted e).
Proof.
  intros Hd. unfold wanted. destruct (preset e); [eauto|].
  destruct (detect_drawn e Hd) as [[[primary types] conf] ->]. eauto.
Qed.

(** X21.  Every path, compound path and image of the list becomes a
    variable, whatever its name and size: the entries of [variables]
    are, in the order of the elements, those of the elements that come
    with a variable of their own or for which a primary type is
    detected, and for a path or an image one always is. *)
Theorem processElements_drawn_elements (elements : list Element)
    (e : Element) :
  e ∈ elements -> drawn e ->
  let r := processElements elements in
  elementId <$> result_variables r
  = id <$> filter (fun e => is_Some (wanted e)) elements
  /\ id e ∈ (elementId <$> result_variables r).
Proof.
  intros He Hd r.
  assert (Hids : elementId <$> result_variables r
                 = id <$> filter (fun e => is_Some (wanted e)) elements).
  { unfold r, processElements. cbn [result_variables].
    by rewrite fold_step_ids. }
  split; [exact Hids|]. rewrite Hids.
  apply list_elem_of_fmap_2, list_elem_of_filter.
  split; [by apply wanted_drawn|done].
Qed.

Lemma processElements_drawn_elements_witness :
  let r := processElements sample_elements in
  elementId <$> result_variables r
  = id <$> filter (fun e => is_Some (wanted e)) sample_elements
  /\ "path_2"%string ∈ (elementId <$> result_variables r).
Proof.
  apply (processElements_drawn_elements sample_elements
           (plain_element "path_2" "path" [])).
  - do 3 (apply elem_of_cons; right). apply elem_of_cons. by left.
  - by left.
Defined.

(** *** The template *)

Lemma push_group_same {A : Type} (k : string) (members : list A) (a : A) :
  push_group [(k, members)] k a = [(k, members ++ [a])].
Proof. cbn [push_group]. by rewrite String.eqb_refl. Qed.

Lemma groupBy_constant {A : Type} (k : string) (arr : list A) :
  groupBy (fun _ => k) arr
  = match arr with [] => [] | _ => [(k, arr)] end.
Proof.
  unfold groupBy. destruct arr as [|a arr]; [done|].
  cbn [fold_left push_group].
  assert (H : forall (l acc : list A),
            fold_left (fun groups a => push_group groups k a) l [(k, acc)]
            = [(k, acc ++ l)]).
  { induction l as [|b l IH]; intros acc; cbn [fold_left].
    - by rewrite app_nil_r.
    - rewrite push_group_same, IH, <- app_assoc. done. }
  apply (H arr [a]).
Qed.

Lemma fill_category_fold (items : list VarInfo)
    (fields : gmap string TemplateField) :
  fold_left
    (fun fields v => <[read_variableId v := template_field v]> fields) items fields
  = match last items with
    | Some v => <["undefined"%string := template_field v]> fields
    | None => fields
    end.
Proof.
  revert fields. induction items as [|a items IH]; intros fields; [done|].
  cbn [fold_left]. rewrite IH. unfold read_variableId.
  destruct items as [|b items]; [done|].
  cbn [last]. destruct (last (b :: items)) eqn:Hl.
  - by rewrite insert_insert_eq.
  - by apply last_None in Hl.
Qed.

(** X22.  The template built from the variables of [processElements] has at
    most one field: the entries carry none of the properties that
    [generateTemplate] reads for the category and the field name, so
    every entry is written to the same place and the last one stays. *)
Theorem generateTemplate_single_field (variables : list VarInfo) :
  generateTemplate variables
  = match last variables with
    | Some v =>
        {[ "undefined"%string := {[ "undefined"%string := template_field v ]} ]}
    | None => ∅
    end.
Proof.
  unfold generateTemplate, read_category. rewrite groupBy_constant.
  destruct variables as [|a variables]; [done|].
  cbn [fold_left fst snd]. unfold fill_category.
  rewrite fill_category_fold.
  destruct (last (a :: variables)) as [v|] eqn:Hl; [done|].
  by apply last_None in Hl.
Qed.

End processElements_facts.

(** ** runFromConfig: reading a path *)

Section findByPath_facts.
Import JS BatchReplacer TemplateParser PathSpec NamerSpec.

Lemma digits_free_of_slash (d : Decimal.uint) :
  free_of "/" (DecimalString.NilEmpty.string_of_uint d).
Proof. induction d; simpl; auto; split; auto; discriminate. Qed.

Lemma string_of_nat_free_slash (n : nat) : free_of "/" (string_of_nat n).
Proof.
  unfold string_of_nat, DecimalString.NilZero.string_of_uint.
  destruct (Nat.to_uint n) eqn:Hd;
    rewrite <- ?Hd; try apply digits_free_of_slash.
  simpl. split; [discriminate | exact I].
Qed.

Lemma string_of_nat_nonempty (n : nat) : string_of_nat n <> ""%string.
Proof.
  unfold string_of_nat, DecimalString.NilZero.string_of_uint.
  destruct (Nat.to_uint n); discriminate.
Qed.

Lemma append_nil_r (s : string) : (s +:+ "")%string = s.
Proof.
  induction s as [|c s IH]; rewrite ?append_empty, ?append_String;
    [done|by rewrite IH].
Qed.

Lemma append_snoc (s : string) (c : ascii) (t : string) :
  ((s +:+ String c "") +:+ t)%string = (s +:+ String c t)%string.
Proof.
  induction s as [|a s IH]; rewrite ?append_empty, ?append_String;
    [done|by rewrite IH].
Qed.

Lemma split_slash_free (s cur : string) :
  free_of "/" s -> split_slash s cur = [(cur +:+ s)%string].
Proof.
  revert cur. induction s as [|c s IH]; intros cur; cbn [split_slash free_of].
  - intros _. by rewrite append_nil_r.
  - intros [Hc Hs]. rewrite (proj2 (Ascii.eqb_neq _ _) Hc).
    rewrite IH by done. by rewrite append_snoc.
Qed.

Lemma split_slash_app (s rest cur : string) :
  free_of "/" s ->
  split_slash (s +:+ String "/" rest) cur
  = (cur +:+ s)%string :: split_slash rest "".
Proof.
  revert cur. induction s as [|c s IH]; intros cur;
    rewrite ?append_empty, ?append_String; cbn [split_slash free_of].
  - intros _. cbn [Ascii.eqb Bool.eqb]. by rewrite append_nil_r.
  - intros [Hc Hs]. rewrite (proj2 (Ascii.eqb_neq _ _) Hc).
    rewrite IH by done. by rewrite append_snoc.
Qed.

Lemma split_slash_path (r : Ref) :
  r <> [] -> split_slash (path_string r) "" = string_of_nat <$> r.
Proof.
  unfold path_string. induction r as [|k r IH]; [done|]. intros _.
  cbn [fmap list_fmap String.concat].
  destruct r as [|k' r].
  - cbn [fmap list_fmap]. rewrite split_slash_free
      by apply string_of_nat_free_slash. by rewrite append_empty.
  - cbn [fmap list_fmap] in *.
    change (string_of_nat k ++ "/" ++ ?t)%string
      with (string_of_nat k +:+ String "/" t)%string.
    rewrite split_slash_app by apply string_of_nat_free_slash.
    rewrite append_empty. f_equal. by apply IH.
Qed.

Lemma digits_value_cons (c : ascii) (s : string) (acc : option nat)
    (k : nat) :
  digit_of c = Some k ->
  digits_value (String c s) acc
  = digits_value s (Some (10 * default 0 acc + k)%nat).
Proof. intros H. cbn [digits_value]. by rewrite H. Qed.

Lemma digits_value_uint (d : Decimal.uint) (acc : option nat) :
  d <> Decimal.Nil ->
  digits_value (DecimalString.NilEmpty.string_of_uint d) acc
  = Some (Nat.of_uint_acc d (default 0%nat acc)).
Proof.
  assert (Hstep : forall d acc,
            digits_value (DecimalString.NilEmpty.string_of_uint d) (Some acc)
            = Some (Nat.of_uint_acc d acc)).
  { clear. induction d as [|d IH|d IH|d IH|d IH|d IH|d IH|d IH|d IH|d IH|d IH];
      intros acc;
      cbn [DecimalString.NilEmpty.string_of_uint Nat.of_uint_acc]; [done|..];
      erewrite digits_value_cons by reflexivity;
      rewrite IH; do 2 f_equal;
      rewrite Nat.tail_mul_spec; cbn [default]; cbv [Datatypes.id];
      simpl (nat_of_ascii _ - 48)%nat; lia. }
  intros Hd. destruct d; [done|..];
    cbn [DecimalString.NilEmpty.string_of_uint Nat.of_uint_acc];
    erewrite digits_value_cons by reflexivity;
    rewrite Hstep; do 2 f_equal;
    rewrite Nat.tail_mul_spec; simpl (nat_of_ascii _ - 48)%nat; lia.
Qed.

Lemma parseInt_digits (d : Decimal.uint) :
  d <> Decimal.Nil ->
  parseInt (DecimalString.NilEmpty.string_of_uint d)
  = digits_value (DecimalString.NilEmpty.string_of_uint d) None.
Proof. intros Hd. destruct d; [done|..]; reflexivity. Qed.

(** [parseInt] reads back the decimal form of an index. *)
Lemma parseInt_string_of_nat (n : nat) : parseInt (string_of_nat n) = Some n.
Proof.
  unfold string_of_nat, DecimalString.NilZero.string_of_uint.
  pose proof (DecimalNat.Unsigned.of_to n) as Hn. unfold Nat.of_uint in Hn.
  pose proof (to_uint_not_Nil n) as Hnil.
  assert (Heq : match Nat.to_uint n with
                | Decimal.Nil => "0"%string
                | _ => DecimalString.NilEmpty.string_of_uint (Nat.to_uint n)
                end
                = DecimalString.NilEmpty.string_of_uint (Nat.to_uint n)).
  { by destruct (Nat.to_uint n). }
  rewrite Heq, parseInt_digits, digits_value_uint by done.
  cbn [default]. by rewrite Hn.
Qed.

Lemma walk_indices (items : list PageItem) (p acc : Ref) :
  walk items (string_of_nat <$> p) acc
  = if decide (descends items p) then Some (acc ++ p) else None.
Proof.
  revert items acc. induction p as [|k p IH]; intros items acc.
  - cbn. by rewrite app_nil_r.
  - cbn [fmap list_fmap walk]. rewrite parseInt_string_of_nat.
    destruct (items !! k) as [item|] eqn:Hk.
    + rewrite IH.
      destruct (decide (descends (pageItems item) p)) as [H|H].
      * rewrite decide_True by (cbn [descends]; rewrite Hk; exact H).
        by rewrite <- app_assoc.
      * rewrite decide_False by (cbn [descends]; rewrite Hk; exact H). done.
    + rewrite decide_False by (cbn [descends]; rewrite Hk; tauto). done.
Qed.

Lemma path_string_cons (k : nat) (p : Ref) :
  path_string (k :: p) = (string_of_nat k +:+ steps p)%string.
Proof.
  unfold path_string. revert k. induction p as [|k' p IH]; intros k.
  - cbn. by rewrite append_nil_r.
  - cbn [fmap list_fmap String.concat steps] in *.
    rewrite IH. reflexivity.
Qed.

Lemma path_string_nonempty (k : nat) (p : Ref) :
  path_string (k :: p) <> ""%string.
Proof.
  rewrite path_string_cons.
  pose proof (string_of_nat_nonempty k) as Hk.
  destruct (string_of_nat k); [done|]. by rewrite append_String.
Qed.

Lemma findByPath_path_string (doc : Document) (r : Ref) :
  findByPath doc (path_string r)
  = if decide (resolves doc r) then Some r else None.
Proof.
  destruct r as [|l p]; [done|]. unfold findByPath.
  rewrite (proj2 (String.eqb_neq _ _) (path_string_nonempty l p)).
  rewrite split_slash_path by done. cbn [fmap list_fmap].
  rewrite parseInt_string_of_nat.
  destruct (doc !! l) as [items|] eqn:Hl.
  - rewrite walk_indices.
    destruct (decide (descends items p)) as [H|H].
    + rewrite decide_True by (cbn [resolves]; rewrite Hl; exact H). done.
    + rewrite decide_False by (cbn [resolves]; rewrite Hl; exact H). done.
  - rewrite decide_False by (cbn [resolves]; rewrite Hl; tauto). done.
Qed.

Lemma path_below_steps (parent : string) (indices : list nat) :
  parent <> ""%string ->
  path_below parent indices = (parent +:+ steps indices)%string.
Proof.
  revert parent. induction indices as [|i rest IH]; intros parent Hne.
  - cbn. by rewrite append_nil_r.
  - cbn [path_below steps]. unfold itemPath.
    rewrite (proj2 (String.eqb_neq _ _) Hne). rewrite IH.
    + by rewrite !append_assoc.
    + destruct parent; [done|]. by rewrite append_String.
Qed.

Lemma recorded_path_string (indices : list nat) :
  recorded_path indices = path_string indices.
Proof.
  destruct indices as [|i rest]; [done|].
  unfold recorded_path. cbn [path_below]. unfold itemPath.
  cbn [String.eqb]. rewrite path_string_cons.
  apply path_below_steps, string_of_nat_nonempty.
Qed.

(** X23.  [findByPath] reads a path as the index of a layer followed by the
    indices of items: for the decimal path of a reference it returns
    that reference when the layer exists and each index in turn is
    the position of an item, and nothing otherwise. *)
Theorem findByPath_round_trip (doc : Document) (r : Ref) :
  findByPath doc (path_string r)
  = if decide (resolves doc r) then Some r else None.
Proof. apply findByPath_path_string. Qed.

(** X24.  The path that [traverseItems] records for an element holds the
    indices of the items from the layer's own items down, and not the
    index of the layer; read by [findByPath], its first index is taken
    for the layer.  So the path of the element at [indices] in layer
    [l] never leads [findByPath] back to that element: what it finds,
    if anything, is the layer or the item at the reference [indices]. *)
Theorem recorded_path_misses_element (doc : Document) (l : nat)
    (indices : list nat) :
  findByPath doc (recorded_path indices)
  = (if decide (resolves doc indices) then Some indices else None)
  /\ findByPath doc (recorded_path indices) <> Some (l :: indices).
Proof.
  rewrite recorded_path_string, findByPath_path_string. split; [done|].
  destruct (decide (resolves doc indices)); [|done].
  intros [= Heq]. apply (f_equal length) in Heq. cbn [length] in Heq. lia.
Qed.

End findByPath_facts.

(** ** runFromConfig: the two stages together *)

Section resolve_facts.
Import JS BatchReplacer ReplaceSpec PathSpec.

Lemma first_match_None (target : jsstring) (order : list (Ref * PageItem)) :
  first_match target order = None
  <-> forall item, item ∈ (snd <$> order) ->
        content_matches target item = false.
Proof.
  unfold first_match. induction order as [|[p it] order IH]; cbn [List.find].
  - split; [|done]. intros _ item Hin. by apply elem_of_nil in Hin.
  - cbn [snd fmap list_fmap]. destruct (content_matches target it) eqn:Hm.
    + split; [discriminate|]. intros H.
      rewrite H in Hm; [discriminate|]. apply elem_of_cons. by left.
    + rewrite IH. split.
      * intros H item [->|Hin]%elem_of_cons; [done|by apply H].
      * intros H item Hin. apply H, elem_of_cons. by right.
Qed.

Lemma snd_map_prefix (j : nat) (o : list (Ref * PageItem)) :
  snd <$> map (fun pr => (j :: pr.1, pr.2)) o = snd <$> o.
Proof.
  induction o as [|[p y] o IH]; [done|].
  cbn [map fmap list_fmap snd] in *. by rewrite IH.
Qed.

Lemma elem_of_number_items (order : PageItem -> list (Ref * PageItem))
    (items : list PageItem) (j : nat) (x : PageItem) :
  x ∈ (snd <$> number_items order items j)
  <-> exists it, it ∈ items /\ x ∈ (snd <$> order it).
Proof.
  revert j. induction items as [|a items IH]; intros j;
    cbn [number_items].
  - cbn. rewrite elem_of_nil. split; [done|].
    intros (it & Hin & _). by apply elem_of_nil in Hin.
  - rewrite fmap_app, elem_of_app, IH.
    rewrite snd_map_prefix. split.
    + intros [Hx|(it & Hin & Hx)].
      * exists a. split; [apply elem_of_cons; by left|done].
      * exists it. split; [apply elem_of_cons; by right|done].
    + intros (it & [->|Hin]%elem_of_cons & Hx); [by left|].
      right. eauto.
Qed.

Lemma document_order_self (it : PageItem) : it ∈ (snd <$> document_order it).
Proof. destruct it. cbn. apply elem_of_cons. by left. Qed.

Lemma document_order_below (it x : PageItem) :
  x ∈ (snd <$> items_order (pageItems it)) ->
  x ∈ (snd <$> document_order it).
Proof.
  intros Hx. destruct it as [t n c items].
  cbn [document_order pageItems fmap list_fmap snd] in *.
  apply elem_of_cons. by right.
Qed.

(** What lies below an item that a way down leads to lies below the
    items the way starts from. *)
Lemma items_order_descend (items : list PageItem) (p : Ref)
    (it x : PageItem) :
  item_at items p = Some it ->
  x ∈ (snd <$> document_order it) ->
  x ∈ (snd <$> items_order items).
Proof.
  revert items. induction p as [|k p IH]; intros items; [done|].
  destruct p as [|k' p].
  - cbn [item_at]. intros Hk Hx. apply elem_of_number_items.
    exists it. split; [by eapply list_elem_of_lookup_2|done].
  - cbn [item_at]. destruct (items !! k) as [parent|] eqn:Hk; [|done].
    intros Hit Hx. apply elem_of_number_items.
    exists parent. split; [by eapply list_elem_of_lookup_2|].
    apply document_order_below. by apply (IH (pageItems parent)).
Qed.

Lemma layers_order_layer (layers : list (list PageItem)) (j l : nat)
    (items : list PageItem) (x : PageItem) :
  layers !! l = Some items ->
  x ∈ (snd <$> items_order items) ->
  x ∈ (snd <$> layers_order layers j).
Proof.
  revert j l. induction layers as [|a layers IH]; intros j l; [done|].
  cbn [layers_order]. rewrite fmap_app, elem_of_app.
  destruct l as [|l]; cbn [lookup list_lookup].
  - intros [= ->] Hx. left.
    by rewrite snd_map_prefix.
  - intros Hl Hx. right. by eapply IH.
Qed.

(** Whatever a reference into the document holds below it is part of
    the document. *)
Lemma items_at_in_document (doc : Document) (r : Ref) (x : PageItem) :
  x ∈ (snd <$> items_order (items_at doc r)) ->
  x ∈ (snd <$> layers_order doc 0).
Proof.
  destruct r as [|l p]; [intros Hx; by apply elem_of_nil in Hx|].
  destruct p as [|k p].
  - cbn [items_at]. destruct (doc !! l) as [items|] eqn:Hl;
      [|intros Hx; by apply elem_of_nil in Hx].
    cbn [default]. by apply layers_order_layer with l.
  - unfold items_at, deref.
    destruct (doc !! l) as [items|] eqn:Hl;
      [|intros Hx; by apply elem_of_nil in Hx].
    destruct (item_at items (k :: p)) as [it|] eqn:Hit;
      [|intros Hx; by apply elem_of_nil in Hx].
    cbn [fmap option_fmap option_map default]. intros Hx.
    apply layers_order_layer with l items; [done|].
    apply (items_order_descend items (k :: p) it); [done|].
    by apply document_order_below.
Qed.

(** X25.  Once the content stage has failed, the search that the path stage
    starts below the item it found cannot succeed: the path stage
    yields the item at the path itself, and only if that is a text
    frame or the entry records no current value. *)
Theorem path_stage_yields_item_at_path (doc : Document) (rep : Replacement)
    (r : Ref) :
  by_content doc rep = None ->
  resolve doc rep = Some r ->
  findByPath doc (elementPath rep) = Some r
  /\ (typename_at doc r = Some "TextFrame"%string \/ currentValue rep = []).
Proof.
  intros Hc. unfold resolve. rewrite Hc. unfold by_path.
  destruct (findByPath doc (elementPath rep)) as [r0|]; [|done].
  destruct (typename_at doc r0) as [t|] eqn:Htn; [|done].
  destruct (String.eqb t "TextFrame") eqn:Ht; cbn [negb andb].
  - apply String.eqb_eq in Ht as ->. intros [= ->]. split; [done|by left].
  - destruct (currentValue rep) as [|c cur] eqn:Hcur; cbn [length Nat.eqb negb].
    + intros [= ->]. split; [done|by right].
    + rewrite findTextByContent_first.
      assert (Hnone : first_match (c :: cur) (items_order (items_at doc r0))
                      = None).
      { apply first_match_None. intros item Hin.
        rewrite by_content_first, Hcur in Hc.
        rewrite first_match_None in Hc. apply Hc.
        by apply (items_at_in_document doc r0). }
      by rewrite Hnone.
Qed.

Lemma path_stage_yields_item_at_path_witness :
  let rep := {| varKey := "guest_0.title"; elementPath := "0/0/1";
                currentValue := lit "CTO"; newValue := lit "COO";
                value := [] |} in
  findByPath two_layers (elementPath rep) = Some [0; 0; 1]%nat
  /\ (typename_at two_layers [0; 0; 1]%nat = Some "TextFrame"%string
      \/ currentValue rep = []).
Proof.
  intros rep.
  apply (path_stage_yields_item_at_path two_layers rep [0; 0; 1]%nat);
    vm_compute; reflexivity.
Defined.

End resolve_facts.

(** ** DataValidator *)

Section DataValidator_facts.
Import JS DataValidator ValidationSpec.
Local Open Scope Q_scope.

(** X26.  A number is brought into the range: with [min <= max], the result
    for a number lies between the bounds, is the number itself when
    that lies between them (no warning then), and is left alone by a
    second pass; one item is counted as validated.  The default that
    stands in for a missing number is returned as it is, also when it
    lies outside the range. *)
Theorem sanitizeNumber_clamps (x lo hi : Q) (defaultVal : option Q)
    (fieldName : jsstring) (stats : Stats) :
  lo <= hi ->
  let out := sanitizeNumber (Some x) (Some lo) (Some hi) defaultVal
               fieldName stats in
  (lo <= fst out <= hi)
  /\ (lo <= x <= hi -> fst out = x /\ warnings (snd out) = warnings stats)
  /\ fst (sanitizeNumber (Some (fst out)) (Some lo) (Some hi) defaultVal
            fieldName stats) = fst out
  /\ validated (snd out) = S (validated stats)
  /\ (forall d, fst (sanitizeNumber None (Some lo) (Some hi) (Some d)
                       fieldName stats) = d).
Proof.
  intros Hle. cbv zeta.
  assert (Hin : forall y, lo <= y <= hi ->
            sanitizeNumber (Some y) (Some lo) (Some hi) defaultVal
              fieldName stats
            = (y, {| validated := S (validated stats);
                     cleaned := cleaned stats; rejected := rejected stats;
                     warnings := warnings stats |})).
  { intros y [H1 H2]. unfold sanitizeNumber.
    rewrite (proj2 (lt_false y lo) H1).
    by rewrite (proj2 (gt_false y hi) H2). }
  assert (Hrange : lo <= fst (sanitizeNumber (Some x) (Some lo) (Some hi)
                                defaultVal fieldName stats) <= hi
                   /\ validated (snd (sanitizeNumber (Some x) (Some lo)
                                        (Some hi) defaultVal fieldName stats))
                      = S (validated stats)).
  { unfold sanitizeNumber.
    destruct (lt x lo) eqn:H1.
    - rewrite (proj2 (gt_false lo hi) Hle). cbn [fst snd validated].
      split; [lra|done].
    - apply lt_false in H1. destruct (gt x hi) eqn:H2; cbn [fst snd validated].
      + split; [lra|done].
      + apply gt_false in H2. split; [lra|done]. }
  destruct Hrange as [Hr Hv].
  split; [exact Hr|]. split.
  { intros Hx. by rewrite (Hin x Hx). }
  split; [by rewrite (Hin _ Hr)|]. split; [exact Hv|done].
Qed.

Lemma sanitizeNumber_clamps_witness :
  let out := sanitizeNumber (Some 300) (Some 0) (Some 255) (Some (- (1)))
               (lit "R") no_stats in
  fst out = 255
  /\ fst (sanitizeNumber None (Some 0) (Some 255) (Some (- (1)))
            (lit "R") no_stats) = - (1).
Proof.
  intros out.
  destruct (sanitizeNumber_clamps 300 0 255 (Some (- (1))) (lit "R")
              no_stats ltac:(vm_compute; discriminate))
    as (_ & _ & _ & _ & Hd).
  split; [reflexivity|apply Hd].
Defined.

Lemma add_if_nil (cond : bool) (msg : string) (l : list jsstring) :
  add_if cond msg l = [] <-> cond = false /\ l = [].
Proof.
  unfold add_if. destruct cond.
  - split; [|by intros [? _]]. intros H. by apply app_nil in H as [_ ?].
  - split; [by intros ->|by intros [_ ->]].
Qed.

Lemma validateElement_faulty (e : Element) :
  elem_valid (validateElement e) = false <-> faulty e.
Proof.
  unfold validateElement, faulty. cbn [elem_valid].
  rewrite Nat.eqb_neq, length_zero_iff_nil.
  rewrite <- !String.eqb_eq.
  destruct (size e) as [[w h]|].
  - rewrite !add_if_nil, <- !lt_spec.
    destruct (String.eqb (id e) ""), (String.eqb (type e) ""),
      (lt w 0), (lt h 0); intuition congruence.
  - rewrite !add_if_nil.
    destruct (String.eqb (id e) ""), (String.eqb (type e) "");
      intuition congruence.
Qed.

Lemma count_faulty (elems : list Element) :
  length (List.filter (fun r => negb (elem_valid r))
            (map validateElement elems))
  = length (filter faulty elems).
Proof.
  induction elems as [|e elems IH]; [done|].
  cbn [map List.filter].
  destruct (elem_valid (validateElement e)) eqn:Hv; cbn [negb].
  - rewrite filter_cons_False; [done|].
    rewrite <- validateElement_faulty. congruence.
  - rewrite filter_cons_True by by apply validateElement_faulty.
    cbn [length]. by rewrite IH.
Qed.

Lemma well_formed_test (s : Structure) :
  well_formed s
  <-> match meta s with Some _ => true | None => false end
      && match document s with
         | Some d => negb (Qeq_bool (doc_width d) 0
                           || Qeq_bool (doc_height d) 0)
         | None => false
         end
      && match elements s with Some _ => true | None => false end = true.
Proof.
  unfold well_formed. rewrite !andb_true_iff.
  destruct (document s) as [d|].
  - rewrite negb_true_iff, orb_false_iff, <- !not_true_iff_false,
      !Qeq_bool_iff.
    split.
    + intros ([m ->] & (d' & [= <-] & Hw & Hh) & [elems ->]). done.
    + intros [[Hm [Hw Hh]] He]. split; [|split].
      * destruct (meta s); [eauto|discriminate].
      * eauto.
      * destruct (elements s); [eauto|discriminate].
  - split.
    + intros (_ & (d' & Hd & _) & _). discriminate Hd.
    + intros [[_ Hf] _]. discriminate Hf.
Qed.

Lemma valid_test (s : Structure) :
  valid (validateStructure s)
  = match meta s with Some _ => true | None => false end
    && match document s with
       | Some d => negb (Qeq_bool (doc_width d) 0
                         || Qeq_bool (doc_height d) 0)
       | None => false
       end
    && match elements s with Some _ => true | None => false end.
Proof.
  unfold validateStructure.
  destruct (meta s) as [m|]; destruct (document s) as [d|];
    destruct (elements s) as [elems|];
    try destruct (Qeq_bool (doc_width d) 0);
    try destruct (Qeq_bool (doc_height d) 0); reflexivity.
Qed.

Lemma errors_test (s : Structure) :
  errors (validateStructure s) = []
  <-> valid (validateStructure s) = true.
Proof.
  unfold validateStructure.
  destruct (meta s) as [m|]; destruct (document s) as [d|];
    destruct (elements s) as [elems|];
    try destruct (Qeq_bool (doc_width d) 0);
    try destruct (Qeq_bool (doc_height d) 0);
    cbn [orb valid errors app]; split; try done; discriminate.
Qed.

(** X27.  Whether a structure is valid depends on its frame alone: it is
    valid exactly when it has a meta part, a document part with a
    width and a height, and a list of elements -- equivalently, when
    no error was noted.  The errors of the elements are counted but
    make no structure invalid. *)
Theorem validateStructure_frame_only (s : Structure) :
  let r := validateStructure s in
  (valid r = true <-> well_formed s)
  /\ (valid r = true <-> errors r = [])
  /\ (forall elems, elements s = Some elems ->
        elementErrors r = length (filter faulty elems)).
Proof.
  cbv zeta. split; [|split].
  - by rewrite well_formed_test, valid_test.
  - by rewrite errors_test.
  - intros elems He. unfold validateStructure. rewrite He.
    destruct (meta s) as [m|]; destruct (document s) as [d|];
      try destruct (Qeq_bool (doc_width d) 0 || Qeq_bool (doc_height d) 0);
      cbn [elementErrors]; apply count_faulty.
Qed.

End DataValidator_facts.

(** ** JsonSerializer, PrefixParser, ColorProcessor *)

Section serializer_facts.
Import JS JsonSerializer JsonSpec.

(** X28.  What [escape] writes reads back as the text without the control
    characters that [escape] drops (all below the space except tab,
    line feed and carriage return): in what it writes there is no raw
    quote, no raw control character, and no backslash that does not
    start one of the five escapes. *)
Theorem escape_reads_back (str : jsstring) :
  json_unescape (escape str) = Some (List.filter kept str).
Proof.
  induction str as [|c rest IH]; [done|].
  cbn [escape List.filter]. unfold kept at 1.
  destruct (Z.eqb_spec c 92) as [->|H92]; [cbn; by rewrite IH|].
  destruct (Z.eqb_spec c 34) as [->|H34]; [cbn; by rewrite IH|].
  destruct (Z.eqb_spec c 10) as [->|H10]; [cbn; by rewrite IH|].
  destruct (Z.eqb_spec c 13) as [->|H13]; [cbn; by rewrite IH|].
  destruct (Z.eqb_spec c 9) as [->|H9]; [cbn; by rewrite IH|].
  destruct (Z.ltb_spec c 32) as [Hlt|Hge]; cbn [negb orb]; [exact IH|].
  cbn [json_unescape].
  rewrite (proj2 (Z.eqb_neq c 92) H92), (proj2 (Z.eqb_neq c 34) H34).
  rewrite (proj2 (Z.ltb_ge c 32) Hge). cbn [orb]. by rewrite IH.
Qed.

End serializer_facts.

Section PrefixParser_facts.
Import JS PrefixParser PrefixSpec.

Lemma starts_with_split (kw s : jsstring) :
  starts_with kw s = true -> s = kw ++ drop (length kw) s.
Proof.
  revert s. induction kw as [|k kw IH]; intros s; [done|].
  destruct s as [|c s]; [discriminate|]. cbn [starts_with length drop app].
  intros [Hk Hs]%andb_true_iff. apply Z.eqb_eq in Hk as ->.
  f_equal. by apply IH.
Qed.

Lemma starts_with_both (a b s : jsstring) :
  starts_with a s = true -> starts_with b s = true ->
  starts_with a b = true \/ starts_with b a = true.
Proof.
  revert b s. induction a as [|x a IH]; intros b s; [by left|].
  destruct b as [|y b]; [by right|].
  destruct s as [|c s]; [discriminate|]. cbn [starts_with].
  intros [Hx Ha]%andb_true_iff [Hy Hb]%andb_true_iff.
  apply Z.eqb_eq in Hx, Hy. subst x y. rewrite Z.eqb_refl. cbn [andb].
  by apply (IH b s).
Qed.

Lemma parse_loop_spec (table : list PrefixDef) (name : jsstring) :
  match parse_loop table name with
  | Some info =>
      exists d, d ∈ table
        /\ starts_with (lit (def_prefix d)) name = true
        /\ prefix info = def_prefix d
        /\ baseName info = drop (String.length (def_prefix d)) name
        /\ type info = def_type d
        /\ replaceable info = def_replaceable d
        /\ role info = def_role d
  | None =>
      forall d, d ∈ table -> starts_with (lit (def_prefix d)) name = false
  end.
Proof.
  induction table as [|d0 table IH]; cbn [parse_loop].
  - intros d Hd. by apply elem_of_nil in Hd.
  - destruct (starts_with (lit (def_prefix d0)) name) eqn:Hs.
    + exists d0. split; [apply elem_of_cons; by left|]. done.
    + destruct (parse_loop table name) as [info|].
      * destruct IH as (d & Hd & Hrest). exists d.
        split; [apply elem_of_cons; by right|done].
      * intros d [->|Hd]%elem_of_cons; [done|by apply IH].
Qed.

Lemma table_unambiguous_spec (table : list PrefixDef) (d1 d2 : PrefixDef) :
  table_unambiguous table = true -> d1 ∈ table -> d2 ∈ table ->
  length (lit (def_prefix d1)) = String.length (def_prefix d1)
  /\ (starts_with (lit (def_prefix d1)) (lit (def_prefix d2)) = true ->
      def_prefix d1 = def_prefix d2).
Proof.
  unfold table_unambiguous. rewrite forallb_forall.
  intros Hall H1 H2. apply list_elem_of_In in H1, H2.
  specialize (Hall d1 H1). apply andb_true_iff in Hall as [Hlen Hpairs].
  apply Nat.eqb_eq in Hlen. split; [done|].
  rewrite forallb_forall in Hpairs. specialize (Hpairs d2 H2).
  intros Hs. rewrite Hs in Hpairs. by apply String.eqb_eq in Hpairs.
Qed.

(** X29.  [parse] splits a name into the prefix of the table that it starts
    with and the rest; no other prefix of the table starts the name,
    so the order of the table does not matter.  It returns nothing
    exactly when the name is empty or starts with no prefix of the
    table. *)
Theorem parse_splits_name (name : jsstring) :
  match parse name with
  | Some info =>
      name = lit (prefix info) ++ baseName info
      /\ (exists d, d ∈ ELEMENT_PREFIXES /\ prefix info = def_prefix d
                    /\ type info = def_type d
                    /\ replaceable info = def_replaceable d
                    /\ role info = def_role d)
      /\ (forall d, d ∈ ELEMENT_PREFIXES ->
            starts_with (lit (def_prefix d)) name = true ->
            def_prefix d = prefix info)
  | None =>
      forall d, d ∈ ELEMENT_PREFIXES ->
        name = [] \/ starts_with (lit (def_prefix d)) name = false
  end.
Proof.
  assert (Htable : table_unambiguous ELEMENT_PREFIXES = true)
    by (vm_compute; reflexivity).
  unfold parse. destruct name as [|c name]; [intros d _; by left|].
  pose proof (parse_loop_spec ELEMENT_PREFIXES (c :: name)) as Hspec.
  destruct (parse_loop ELEMENT_PREFIXES (c :: name)) as [info|].
  - destruct Hspec as (d & Hd & Hs & Hp & Hb & Ht & Hr & Hro).
    destruct (table_unambiguous_spec _ d d Htable Hd Hd) as [Hlen _].
    split; [|split].
    + rewrite Hp, Hb, <- Hlen. by apply starts_with_split.
    + exists d. split; [exact Hd|]. split; [exact Hp|].
      split; [exact Ht|]. split; [exact Hr|exact Hro].
    + intros d' Hd' Hs'. rewrite Hp.
      destruct (starts_with_both _ _ _ Hs Hs') as [H|H].
      * symmetry.
        by apply (table_unambiguous_spec _ d d' Htable Hd Hd').
      * by apply (table_unambiguous_spec _ d' d Htable Hd' Hd).
  - intros d Hd. right. by apply Hspec.
Qed.

End PrefixParser_facts.

Section ColorProcessor_facts.
Import JS ColorProcessor.

Lemma Math_round_integer (z : Z) : Math_round (inject_Z z) = z.
Proof.
  unfold Math_round.
  pose proof (Qfloor_le (inject_Z z + (1 # 2))) as Hle.
  pose proof (Qlt_floor (inject_Z z + (1 # 2))) as Hlt.
  set (f := Qfloor (inject_Z z + (1 # 2))) in *.
  assert (H1 : (f < z + 1)%Z).
  { rewrite Zlt_Qlt, inject_Z_plus. change (inject_Z 1) with 1%Q.
    revert Hle. generalize (inject_Z f), (inject_Z z). intros. lra. }
  assert (H2 : (z < f + 1)%Z).
  { rewrite Zlt_Qlt. revert Hlt. rewrite !inject_Z_plus.
    change (inject_Z 1) with 1%Q.
    generalize (inject_Z f), (inject_Z z). intros. lra. }
  lia.
Qed.

Lemma round_in_byte (q : Q) :
  (0 <= q <= 255)%Q -> (0 <= Math_round q <= 255)%Z.
Proof.
  intros [H0 H255]. unfold Math_round.
  assert (Hlow : (Qfloor (1 # 2) <= Qfloor (q + (1 # 2)))%Z)
    by (apply Qfloor_resp_le; lra).
  assert (Hup : (Qfloor (q + (1 # 2)) <= Qfloor (255 + (1 # 2)))%Z)
    by (apply Qfloor_resp_le; lra).
  change (Qfloor (1 # 2)) with 0%Z in Hlow.
  change (Qfloor (255 + (1 # 2))) with 255%Z in Hup. lia.
Qed.

Lemma component_in_byte (c k : Q) :
  (0 <= c <= 100)%Q -> (0 <= k <= 100)%Q ->
  (0 <= Math_round (255 * (1 - c / 100) * (1 - k / 100)) <= 255)%Z.
Proof.
  intros Hc Hk. apply round_in_byte.
  unfold Qdiv. change (/ 100)%Q with (1 # 100)%Q.
  set (a := (1 - c * (1 # 100))%Q). set (b := (1 - k * (1 # 100))%Q).
  assert (Ha : (0 <= a <= 1)%Q) by (unfold a; lra).
  assert (Hb : (0 <= b <= 1)%Q) by (unfold b; lra).
  clearbody a b. split; nra.
Qed.

Lemma toHex_length (z : Z) :
  (0 <= z <= 255)%Z -> String.length (toHex (inject_Z z)) = 2%nat.
Proof.
  intros Hz. unfold toHex. rewrite Math_round_integer.
  assert (Hall : forallb
                   (fun n =>
                      let hex := toString16 (Z.of_nat n) in
                      Nat.eqb
                        (String.length
                           (if Nat.eqb (String.length hex) 1
                            then ("0" +:+ hex)%string else hex)) 2)
                   (seq 0 256) = true) by (vm_compute; reflexivity).
  rewrite forallb_forall in Hall.
  specialize (Hall (Z.to_nat z)). rewrite Z2Nat.id in Hall by lia.
  apply Nat.eqb_eq, Hall, in_seq. lia.
Qed.

Lemma append_length (s1 s2 : string) :
  String.length (s1 +:+ s2) = (String.length s1 + String.length s2)%nat.
Proof.
  induction s1 as [|c s1 IH]; rewrite ?append_empty, ?append_String;
    cbn [String.length]; [done|by rewrite IH].
Qed.

(** X30.  A CMYK colour with components between 0 and 100 is converted to
    red, green and blue between 0 and 255, and the hexadecimal form
    that [extract] derives from them is seven characters long ("#" and
    two characters for each component). *)
Theorem cmyk_hex_well_formed (c m y k : Q) :
  (0 <= c <= 100)%Q -> (0 <= m <= 100)%Q -> (0 <= y <= 100)%Q ->
  (0 <= k <= 100)%Q ->
  let rgb := cmykToRgb c m y k in
  (0 <= r rgb <= 255)%Z /\ (0 <= g rgb <= 255)%Z /\ (0 <= b rgb <= 255)%Z
  /\ String.length (rgbToHex (inject_Z (r rgb)) (inject_Z (g rgb))
                      (inject_Z (b rgb))) = 7%nat.
Proof.
  intros Hc Hm Hy Hk rgb.
  assert (Hr : (0 <= r rgb <= 255)%Z) by by apply component_in_byte.
  assert (Hg : (0 <= g rgb <= 255)%Z) by by apply component_in_byte.
  assert (Hb : (0 <= b rgb <= 255)%Z) by by apply component_in_byte.
  split; [done|]. split; [done|]. split; [done|].
  unfold rgbToHex. rewrite !append_length, !toHex_length by done. done.
Qed.

Lemma cmyk_hex_well_formed_witness :
  let rgb := cmykToRgb 0 100 100 0 in
  ((0 <= r rgb <= 255)%Z /\ (0 <= g rgb <= 255)%Z /\ (0 <= b rgb <= 255)%Z
   /\ String.length (rgbToHex (inject_Z (r rgb)) (inject_Z (g rgb))
                       (inject_Z (b rgb))) = 7%nat)
  /\ rgbToHex (inject_Z (r rgb)) (inject_Z (g rgb)) (inject_Z (b rgb))
     = "#ff0000"%string.
Proof.
  intros rgb. split.
  - apply (cmyk_hex_well_formed 0 100 100 0);
      split; vm_compute; discriminate.
  - vm_compute. reflexivity.
Defined.

End ColorProcessor_facts.
